(** * a2-task.cpp: Mandelbrot rendering and 2D convolution by OpenMP tasks

    A shallow embedding of [src/a2-task.cpp] and the properties of its
    escape kernel, its tiling of the image into tasks, its convolution
    kernel, its multi-pass driver and the file [main] writes.

    Conventions of the embedding.
    - [int] is [Z]; [/] on [int] is [Z.quot] (truncation toward zero).
      Signed overflow is undefined in C++ and is not modelled: the
      development covers the runs in which every [int] expression stays
      in range.
    - [double] is the kernel's binary64 type [float]; each arithmetic
      operator is one correctly rounded IEEE 754 operation (no fused
      multiply-add contraction).
    - [std::complex<double>] is a pair of [float]s.
    - The operations C++ leaves undefined (division by zero, indexing a
      [std::vector] out of range, converting a NaN to [int]) end a run
      with a [fault], and so does the exception of a [std::vector] asked
      for a negative size; see [exec].
    - The functions of libm ([hypot] behind [std::abs], [log]) and the
      functions of the header [a2-helpers.hpp] ([colorize],
      [get_2d_kernel]), which is not part of the sources at hand, are
      section variables.
    - An OpenMP task region ("spawn all tasks, then join") is modelled by
      running its tasks one after the other in the order of creation; the
      sections on the order of the tasks show that the order does not
      matter for a convolution pass between two different images and for
      the fractal stage.
    - [ofs << x] appends to the text of the file; the file is kept as the
      list of its lines, [std::endl] ending a line. *)

From Stdlib Require Import ZArith Bool Floats List.
From stdpp Require Import base tactics option list numbers gmap.
From stdpp Require Import pretty.

Set Warnings "-inexact-float".
Local Open Scope Z_scope.

(* ================================================================== *)
(** * Runs that may stop before their end                              *)
(* ================================================================== *)

Inductive fault : Type :=
  | DivisionByZero                 (* [a / 0] on [int] *)
  | PixelIndex (ch : Z)            (* [pixel[ch]] outside the vector *)
  | KernelIndex (row col : Z)      (* [kernel[row][col]] outside the matrix *)
  | CastUndefined                  (* [(int)] of a NaN or of a value outside [int] *)
  | VectorLength (n : Z).          (* a [std::vector] of negative size *)

Inductive exec (A : Type) : Type :=
  | Ok (a : A)
  | Fault (f : fault).
Arguments Ok {A} a.
Arguments Fault {A} f.

Definition exec_bind {A B} (m : exec A) (k : A -> exec B) : exec B :=
  match m with
  | Ok a => k a
  | Fault f => Fault f
  end.

Notation "x <-- m ;; k" := (exec_bind m (fun x => k))
  (at level 100, m at next level, right associativity,
   format "'[v' x  <--  m  ;;  '/' k ']'").

(** A [for] loop whose bounds do not change: the body runs on each index
    in turn and the first fault ends the loop. *)
Fixpoint for_each {A S} (l : list A) (body : A -> S -> exec S) (s : S) : exec S :=
  match l with
  | [] => Ok s
  | x :: l' => s' <-- body x s ;; for_each l' body s'
  end.

(** [for (i = lo; i < hi; i++)]: the values [i] takes. *)
Definition range (lo hi : Z) : list Z := seqZ lo (hi - lo).

(** [a / b] on [int]. *)
Definition int_div (a b : Z) : exec Z :=
  if b =? 0 then Fault DivisionByZero else Ok (a ÷ b).

(* ================================================================== *)
(** * [double] and [std::complex<double>]                              *)
(* ================================================================== *)

Definition INT_MIN : Z := - 2 ^ 31.
Definition INT_MAX : Z := 2 ^ 31 - 1.

(** [(double)n] for an [int] [n]: exact, since [|n| <= 2^31]. *)
Definition double_of_int (n : Z) : float :=
  if n <? 0 then (- of_uint63 (Uint63.of_Z (- n)))%float
  else of_uint63 (Uint63.of_Z n).

(** [(int)x] for a [double] [x]: the fractional part is discarded; the
    conversion is undefined for a NaN, an infinity and a value whose
    integral part does not fit in [int]. *)
Definition int_of_double (x : float) : exec Z :=
  match Prim2SF x with
  | S754_zero _ => Ok 0
  | S754_finite s m e =>
      let n := if 0 <=? e then Z.pos m * 2 ^ e else Z.pos m / 2 ^ (- e) in
      let n := if s then - n else n in
      if (INT_MIN <=? n) && (n <=? INT_MAX) then Ok n else Fault CastUndefined
  | S754_infinity _ | S754_nan => Fault CastUndefined
  end.

Definition complex : Type := float * float.
Definition real (z : complex) : float := fst z.
Definition imag (z : complex) : float := snd z.

(** [operator*] and [operator+] of [std::complex<double>] by the textbook
    formulas. (The C runtime's multiplication differs only when both
    components come out as NaN, where it recovers infinities; the loop
    below leaves on either.) *)
Definition cmul (x y : complex) : complex :=
  ((real x * real y - imag x * imag y)%float,
   (real x * imag y + imag x * real y)%float).
Definition cadd (x y : complex) : complex :=
  ((real x + real y)%float, (imag x + imag y)%float).

(** Line 31: [z * z + c]. *)
Definition step (c z : complex) : complex := cadd (cmul z z) c.

(* ================================================================== *)
(** * The gradient table (line 17)                                     *)
(* ================================================================== *)

(** Modelled from the spec: the type [gradient] of [a2-helpers.hpp], a
    colour stop (startColor, endColor, tStart, tEnd, stepCount). *)
Record gradient := Gradient {
  start_color : list Z;
  end_color : list Z;
  t_start : float;
  t_end : float;
  step_count : Z
}.

Definition gradients : list gradient :=
  [ Gradient [0; 0; 0] [76; 57; 125] 0.0%float 0.010%float 2000;
    Gradient [76; 57; 125] [255; 255; 255] 0.010%float 0.020%float 2000;
    Gradient [255; 255; 255] [0; 0; 0] 0.020%float 0.050%float 2000;
    Gradient [0; 0; 0] [0; 0; 0] 0.050%float 1.0%float 2000 ].

(* ================================================================== *)
(** * [mandelbrot_kernel] (lines 24-46)                                *)
(* ================================================================== *)

Definition max_iterations : Z := 2048.

Section EscapeKernel.

(** [hypot] and [log] of libm; [colorize] of [a2-helpers.hpp], which
    receives the pixel by reference and is modelled as returning its
    new contents. *)
Variable hypot : float -> float -> float.
Variable log : float -> float.
Variable colorize : list Z -> float -> Z -> list gradient -> list Z.

(** [abs(z)] on [std::complex<double>]. *)
Definition cabs (z : complex) : float := hypot (real z) (imag z).

(** The test of the [while] on line 29. *)
Definition loop_test (z : complex) (iteration : Z) : bool :=
  (cabs z <=? 4)%float && (iteration <? max_iterations).

(** The [while] of lines 29-33, at most [fuel] turns of it. *)
Fixpoint escape_loop (fuel : nat) (c z : complex) (iteration : Z) : complex * Z :=
  match fuel with
  | O => (z, iteration)
  | S fuel' =>
      if loop_test z iteration
      then escape_loop fuel' c (step c z) (iteration + 1)
      else (z, iteration)
  end.

(** Lines 26-33: [z] and [iteration] when the loop is left. The test
    fails after at most [max_iterations] turns ([escape_loop_done]), so
    this fuel is never the reason to stop. *)
Definition escape (c : complex) : complex * Z :=
  escape_loop (Z.to_nat max_iterations) c (0%float, 0%float) 0.

(** Lines 36-41: the smooth colouring value. ([m] and the first value of
    [q], lines 37-38, are overwritten before use.) *)
Definition smooth_index (z : complex) (iteration : Z) : float :=
  let length := sqrt (real z * real z + imag z * imag z)%float in
  let q := (double_of_int (iteration + 1) - log (log length) / log 2)%float in
  (q / double_of_int max_iterations)%float.

Definition mandelbrot_kernel (c : complex) (pixel : list Z) : bool * list Z :=
  let '(z, iteration) := escape c in
  let q := smooth_index z iteration in
  (iteration <? max_iterations, colorize pixel q iteration gradients).

End EscapeKernel.

Arguments escape : simpl never.
Arguments mandelbrot_kernel : simpl never.

(* ================================================================== *)
(** * Images                                                           *)
(* ================================================================== *)

(** Modelled from the spec: the class [Image] of [a2-helpers.hpp], "a
    dense raster with channels, height, width; addressable by (channel,
    row, col)", created zero-initialised and copied by value. The samples
    are kept in a finite map; a sample that was never written reads as 0.
    The spec leaves accesses outside the dimensions to the container, and
    so does the model: it keeps no bounds check of its own. *)
Record Image := MkImage {
  channels : Z;
  height : Z;
  width : Z;
  data : gmap (Z * Z * Z) Z
}.

(** [Image(channels, height, width)]. *)
Definition new_image (c h w : Z) : Image := MkImage c h w ∅.

(** [image(ch, row, col)] read. *)
Definition sample (img : Image) (ch row col : Z) : Z :=
  default 0 (data img !! (ch, row, col)).

(** [image(ch, row, col) = v]. *)
Definition store_sample (img : Image) (ch row col v : Z) : Image :=
  MkImage (channels img) (height img) (width img) (<[(ch, row, col) := v]> (data img)).

Global Instance Image_inhabited : Inhabited Image := populate (new_image 0 0 0).

(* ================================================================== *)
(** * [mandelbrot] (lines 57-91) and its dispatch in [main] (202-214)  *)
(* ================================================================== *)

(** The columns task [task_num] walks through when each task gets
    [w_size] of them (lines 72 and 122). *)
Definition task_columns (w_size task_num : Z) : list Z :=
  range (task_num * w_size) ((task_num + 1) * w_size).

(** [pixel[ch]] on [std::vector<int>]. *)
Definition pixel_at (pixel : list Z) (ch : Z) : exec Z :=
  if ch <? 0 then Fault (PixelIndex ch)
  else match pixel !! Z.to_nat ch with
       | Some v => Ok v
       | None => Fault (PixelIndex ch)
       end.

(** Lines 76-79: the point of the complex plane behind pixel [(i, j)]. *)
Definition point (w h : Z) (ratio : float) (i j : Z) : complex :=
  ((double_of_int i / double_of_int w * ratio - 1.10)%float,
   (double_of_int j / double_of_int h * 0.1 - 0.35)%float).

(** What the two loops of [mandelbrot] carry from pixel to pixel. *)
Record fractal_state := FractalState {
  fs_image : Image;
  fs_pixel : list Z;
  fs_inside : Z
}.

Section FractalStage.

Variable hypot : float -> float -> float.
Variable log : float -> float.
Variable colorize : list Z -> float -> Z -> list gradient -> list Z.

(** Lines 85-86. *)
Definition write_channels (nchannels j i : Z) (pixel : list Z) (image : Image) : exec Image :=
  for_each (range 0 nchannels)
    (fun ch img => v <-- pixel_at pixel ch ;; Ok (store_sample img ch j i v))
    image.

(** Lines 76-86: the body of the inner loop. *)
Definition mandelbrot_pixel (w h nchannels : Z) (ratio : float) (i j : Z)
    (s : fractal_state) : exec fractal_state :=
  let c := point w h ratio i j in
  let r := mandelbrot_kernel hypot log colorize c (fs_pixel s) in
  let pixels_inside := if fst r then fs_inside s + 1 else fs_inside s in
  image <-- write_channels nchannels j i (snd r) (fs_image s) ;;
  Ok (FractalState image (snd r) pixels_inside).

Definition mandelbrot (image : Image) (ratio : float) (task_num task_size : Z)
    : exec (Image * Z) :=
  let h := height image in
  let w := width image in
  let nchannels := channels image in
  let ratio := (ratio / 10)%float in
  w_size <-- int_div w task_size ;;
  h_size <-- int_div h task_size ;;
  s <-- for_each (task_columns w_size task_num)
          (fun i => for_each (range 0 h) (fun j => mandelbrot_pixel w h nchannels ratio i j))
          (FractalState image [0; 0; 0] 0) ;;
  Ok (fs_image s, fs_inside s).

(** Lines 202-214 of [main], for any image, ratio and number of tasks
    ([main] itself has 512 tasks): every task stores its count in its
    own slot of [pixels_inside_local], and [std::accumulate] adds the
    slots up. The result is the image, the slots and the total. *)
Definition fractal_stage (task_size : Z) (ratio : float) (image : Image)
    : exec (Image * list Z * Z) :=
  if task_size <? 0 then Fault (VectorLength task_size) else
  r <-- for_each (range 0 task_size)
          (fun i (s : Image * list Z) =>
             r <-- mandelbrot (fst s) ratio i task_size ;;
             Ok (fst r, <[Z.to_nat i := snd r]> (snd s)))
          (image, replicate (Z.to_nat task_size) 0) ;;
  Ok (fst r, snd r, fold_left Z.add (snd r) 0).

(** Lines 182-214 with the constants of [main]. *)
Definition main_fractal : exec (Image * list Z * Z) :=
  let width := 1536 in
  let height := 1024 in
  let ratio := (double_of_int width / double_of_int height)%float in
  fractal_stage 512 ratio (new_image 3 height width).

End FractalStage.

(* ================================================================== *)
(** * [convolution_2d_helper] (109-152) and [convolution_2d] (154-176) *)
(* ================================================================== *)

(** The two [Image &] parameters name objects of the caller, and may name
    the same one: the images live in a store of objects. *)
Abbreviation heap := (gmap nat Image).

(** [kernel[row][col]] on [std::vector<std::vector<double>>]. *)
Definition kernel_at (kernel : list (list float)) (row col : Z) : exec float :=
  if (row <? 0) || (col <? 0) then Fault (KernelIndex row col)
  else match kernel !! Z.to_nat row with
       | Some r =>
           match r !! Z.to_nat col with
           | Some x => Ok x
           | None => Fault (KernelIndex row col)
           end
       | None => Fault (KernelIndex row col)
       end.

(** The test of line 139. *)
Definition outside (w h cx cy : Z) : bool :=
  (cx <? 0) || (w - 1 <? cx) || (cy <? 0) || (h - 1 <? cy).

(** Lines 134-145: what the neighbour at offset [(k, l)] of pixel
    [(i, j)] does to [val]. *)
Definition add_neighbor (kernel : list (list float)) (src : Image)
    (w h displ ch i j k l : Z) (val : float) : exec float :=
  let cy := i + k in
  let cx := j + l in
  if outside w h cx cy then Ok val
  else
    let src_val := sample src ch cy cx in
    weight <-- kernel_at kernel (k + displ) (l + displ) ;;
    Ok (val + weight * double_of_int src_val)%float.

(** Lines 128-147: [val] after the two loops over the neighbourhood. *)
Definition neighborhood_sum (kernel : list (list float)) (src : Image)
    (w h displ ch i j : Z) : exec float :=
  for_each (range (- displ) (displ + 1))
    (fun k => for_each (range (- displ) (displ + 1))
                (fun l => add_neighbor kernel src w h displ ch i j k l))
    0%float.

(** Line 148: [val > 255 ? 255 : (val < 0 ? 0 : val)] and its [(int)]. *)
Definition clamp (val : float) : float :=
  if (255 <? val)%float then 255%float
  else if (val <? 0)%float then 0%float
  else val.

Definition stored_value (val : float) : exec Z := int_of_double (clamp val).

(** Lines 128-148: the body of the innermost pixel loop. *)
Definition convolve_pixel (kernel : list (list float)) (src dst : nat)
    (w h displ j ch i : Z) (σ : heap) : exec heap :=
  val <-- neighborhood_sum kernel (σ !!! src) w h displ ch i j ;;
  n <-- stored_value val ;;
  Ok (<[dst := store_sample (σ !!! dst) ch i j n]> σ).

(** Line 173: [Image tmp = src; src = dst; dst = tmp;], three copies by
    value. *)
Definition swap_images (src dst : nat) (σ : heap) : heap :=
  let tmp := σ !!! src in
  let σ := <[src := σ !!! dst]> σ in
  <[dst := tmp]> σ.

Section ConvolutionStage.

(** [get_2d_kernel] of [a2-helpers.hpp]. *)
Variable get_2d_kernel : Z -> Z -> float -> list (list float).

Definition convolution_2d_helper (src dst : nat) (kernel_width : Z) (sigma : float)
    (nsteps task_num task_size : Z) (σ : heap) : exec heap :=
  let h := height (σ !!! src) in
  let w := width (σ !!! src) in
  let nchannels := channels (σ !!! src) in
  let kernel := get_2d_kernel kernel_width kernel_width sigma in
  w_size <-- int_div w task_size ;;
  h_size <-- int_div h task_size ;;
  let displ := Z.of_nat (length kernel) ÷ 2 in
  for_each (task_columns w_size task_num)
    (fun j => for_each (range 0 nchannels)
       (fun ch => for_each (range 0 h)
          (fun i => convolve_pixel kernel src dst w h displ j ch i)))
    σ.

(** Lines 159-169: one pass, the tasks of one parallel region. *)
Definition convolution_pass (src dst : nat) (kernel_width : Z) (sigma : float)
    (nsteps task_size : Z) (σ : heap) : exec heap :=
  for_each (range 0 task_size)
    (fun i => convolution_2d_helper src dst kernel_width sigma nsteps i task_size)
    σ.

Definition convolution_2d (src dst : nat) (kernel_width : Z) (sigma : float)
    (nsteps : Z) (σ : heap) : exec heap :=
  let task_size := 256 in
  for_each (range 0 nsteps)
    (fun step σ =>
       σ <-- convolution_pass src dst kernel_width sigma nsteps task_size σ ;;
       Ok (if step <? nsteps - 1 then swap_images src dst σ else σ))
    σ.

End ConvolutionStage.

(* ================================================================== *)
(** * [main] (lines 178-250)                                           *)
(* ================================================================== *)

(** Lines 240-246: the line of the file for the pixel in row [j] and
    column [i]; [ofs << int] writes the decimal numeral. *)
Definition ppm_pixel_line (img : Image) (j i : Z) : string :=
  " " +:+ pretty (sample img 0 j i) +:+ " " +:+ pretty (sample img 1 j i)
      +:+ " " +:+ pretty (sample img 2 j i).

(** Lines 235-247: the lines written to [mandelbrot-task.ppm], each one
    ended by a [std::endl]. *)
Definition ppm_lines (img : Image) (width height : Z) : list string :=
  ["P3"; pretty width +:+ " " +:+ pretty height; pretty 255]
    ++ flat_map (fun j => map (fun i => ppm_pixel_line img j i) (range 0 width))
         (range 0 height).

Section Main.

Variable hypot : float -> float -> float.
Variable log : float -> float.
Variable colorize : list Z -> float -> Z -> list gradient -> list Z.
Variable get_2d_kernel : Z -> Z -> float -> list (list float).

(** The body of [main] for a given [width] and [height]: [image] is
    object 0 of the store and [filtered_image] object 1. The result is
    the total written to the standard output and the lines of the file;
    the three timings, read from the clock, are left out. *)
Definition render (width height : Z) : exec (Z * list string) :=
  let ratio := (double_of_int width / double_of_int height)%float in
  let channels := 3 in
  let image := new_image channels height width in
  let filtered_image := new_image channels height width in
  r <-- fractal_stage hypot log colorize 512 ratio image ;;
  let image := fst (fst r) in
  let pixels_inside := snd r in
  σ <-- convolution_2d get_2d_kernel 0%nat 1%nat 5 0.37 20
          (<[0%nat := image]> (<[1%nat := filtered_image]> ∅)) ;;
  Ok (pixels_inside, ppm_lines (σ !!! 1%nat) width height).

(** Line 182: [int width = 1536, height = 1024;]. *)
Definition main : exec (Z * list string) := render 1536 1024.

End Main.

Arguments render : simpl never.
Arguments main : simpl never.

(* ================================================================== *)
(** * Concrete inputs                                                  *)
(* ================================================================== *)

(** The parameters of the model at which it is run on concrete inputs. *)

(** For [hypot]: the rounded root of the rounded sum of squares. On the
    orbits of [c = 0] and [c = 3], which stay among 0, 3 and 12, it is
    exact, as libm's [hypot] is; elsewhere the two may differ in the last
    bit. *)
Definition hypot_sqrt (x y : float) : float := sqrt (x * x + y * y)%float.

(** For [log] and [colorize], which only decide the colour written, never
    the path of a loop or the flag of the kernel. *)
Definition log_any (x : float) : float := x.
Definition colorize_keep (pixel : list Z) (q : float) (iteration : Z) (g : list gradient)
    : list Z := pixel.

(** For [get_2d_kernel]: [height] rows of [width] equal weights
    [1 / (width * height)], the kernel of the spec's end-to-end scenario. *)
Definition box_kernel (width height : Z) (sigma : float) : list (list float) :=
  replicate (Z.to_nat height)
    (replicate (Z.to_nat width) (1 / double_of_int (width * height))%float).

(** An image with every sample set to [v]. *)
Definition uniform_image (nchannels h w v : Z) : Image :=
  MkImage nchannels h w
    (list_to_map (map (fun p => (p, v))
       (list_prod (list_prod (range 0 nchannels) (range 0 h)) (range 0 w)))).

(** A store with a 4 by 4 single-channel image of 255s as object 0 and a
    fresh image of the same dimensions as object 1. *)
Definition two_images : heap :=
  <[0%nat := uniform_image 1 4 4 255]> (<[1%nat := new_image 1 4 4]> ∅).

(** A store with a one-row image 256 wide (one column for each of the 256
    tasks of a pass) as object 0 and a fresh image of the same dimensions
    as object 1. *)
Definition row_images : heap :=
  <[0%nat := uniform_image 1 1 256 200]> (<[1%nat := new_image 1 1 256]> ∅).

(* ================================================================== *)
(** * Notions the statements are written with                          *)
(* ================================================================== *)

(** A run that returns, as opposed to one that stops on a [fault]. *)
Definition completes {A} (r : exec A) : Prop := ∃ a, r = Ok a.

(** The sequence [0, c, c^2 + c, ...] the escape loop walks through. *)
Definition orbit (c : complex) (n : nat) : complex :=
  Nat.iter n (step c) (0%float, 0%float).

Section EscapeNotions.

Variable hypot : float -> float -> float.

(** The loop as the spec words it: it is left at the first [z] of the
    orbit with [|z| > 2], or after [max_iterations] turns. *)
Definition stops_at_radius_two (c : complex) : Prop :=
  ∃ n : nat,
    escape hypot c = (orbit c n, Z.of_nat n) ∧
    (∀ k : nat, (k < n)%nat → (2 <? cabs hypot (orbit c k))%float = false) ∧
    (Z.of_nat n = max_iterations ∨ (2 <? cabs hypot (orbit c n))%float = true).

End EscapeNotions.

(** Two images of the same dimensions. *)
Definition same_shape (a b : Image) : Prop :=
  channels a = channels b ∧ height a = height b ∧ width a = width b.

Section FractalNotions.

Variable hypot : float -> float -> float.
Variable log : float -> float.
Variable colorize : list Z -> float -> Z -> list gradient -> list Z.

(** The flag [mandelbrot_kernel] returns on the point behind pixel [p] of
    a [w] by [h] image (the flag is the same for every contents of the
    pixel buffer, [mandelbrot_kernel_flag]). *)
Definition kernel_flag (w h : Z) (ratio : float) (p : Z * Z) : bool :=
  fst (mandelbrot_kernel hypot log colorize (point w h ratio (fst p) (snd p)) [0; 0; 0]).

(** The pixels (column, row) of task [task_num] out of [task_size]. *)
Definition task_pixels (image : Image) (task_num task_size : Z) : list (Z * Z) :=
  list_prod (task_columns (width image ÷ task_size) task_num) (range 0 (height image)).

(** The number of pixels of the task for which the kernel returns [true]. *)
Definition task_count (image : Image) (ratio : float) (task_num task_size : Z) : Z :=
  Z.of_nat (length (List.filter
    (kernel_flag (width image) (height image) (ratio / 10)%float)
    (task_pixels image task_num task_size))).

End FractalNotions.

(** No [pixel[ch]] of the run was outside the pixel buffer. *)
Definition pixel_accesses_in_bounds {A} (r : exec A) : Prop :=
  ∀ ch, r ≠ Fault (PixelIndex ch).

(** The offsets [(k, l)] of the neighbourhood of pixel [(i, j)] whose
    coordinate [(j + l, i + k)] lies in [[0, w) x [0, h)], in the order
    the two loops of lines 130-132 visit them. *)
Definition inside_offsets (w h displ i j : Z) : list (Z * Z) :=
  List.filter (fun p => negb (outside w h (j + snd p) (i + fst p)))
    (list_prod (range (- displ) (displ + 1)) (range (- displ) (displ + 1))).

(** The term of the weighted sum for offset [(k, l)]: the weight times
    the sample at [(i + k, j + l)], added to [val]. *)
Definition add_term (kernel : list (list float)) (src : Image)
    (displ ch i j k l : Z) (val : float) : exec float :=
  weight <-- kernel_at kernel (k + displ) (l + displ) ;;
  Ok (val + weight * double_of_int (sample src ch (i + k) (j + l)))%float.

(** Two runs that end alike: both return, with related results, or both
    stop on the same fault. *)
Definition exec_rel {A B} (R : A -> B -> Prop) (x : exec A) (y : exec B) : Prop :=
  match x, y with
  | Ok a, Ok b => R a b
  | Fault f, Fault g => f = g
  | _, _ => False
  end.

(** The images [a] and [b] of [σ] are the images [a'] and [b'] of [τ]. *)
Definition same_images (a b a' b' : nat) (σ τ : heap) : Prop :=
  σ !!! a = τ !!! a' ∧ σ !!! b = τ !!! b'.

Section ConvolutionNotions.

Variable get_2d_kernel : Z -> Z -> float -> list (list float).

(** The multi-pass filter as the spec words it: the single-pass
    convolution ([convolution_2d] with [nsteps = 1]) applied [k] times,
    the two buffers changing roles from one pass to the next. *)
Fixpoint alternating_passes (k : nat) (a b : nat) (kernel_width : Z) (sigma : float)
    (σ : heap) : exec heap :=
  match k with
  | O => Ok σ
  | S k' =>
      σ' <-- convolution_2d get_2d_kernel a b kernel_width sigma 1 σ ;;
      alternating_passes k' b a kernel_width sigma σ'
  end.

End ConvolutionNotions.

(** The buffers the last of [k] alternating passes reads and writes, the
    first pass reading [a] and writing [b]. *)
Definition last_source (k : nat) (a b : nat) : nat := if Nat.even k then b else a.
Definition last_destination (k : nat) (a b : nat) : nat := if Nat.even k then a else b.

(** A stage that rejects its input does not run to its end. *)
Definition rejects {A} (r : exec A) : Prop := ¬ completes r.

(** A run from the store [σ] that leaves the image [src] as it was. *)
Definition leaves_unchanged (src : nat) (σ : heap) (r : exec heap) : Prop :=
  ∀ σ', r = Ok σ' → σ' !!! src = σ !!! src.

(** [g] after [f] ends where [f] after [g] ends. *)
Definition commutes {S} (f g : S -> exec S) : Prop :=
  ∀ s s', (s1 <-- f s ;; g s1) = Ok s' → (s2 <-- g s ;; f s2) = Ok s'.

(** Every sample of [img] is a value from 0 to 255 or the sample that the
    source or the destination of the store [σ] has at the same place. *)
Definition clamped_or_from (σ : heap) (src dst : nat) (img : Image) : Prop :=
  ∀ key n,
    data img !! key = Some n →
    0 <= n <= 255 ∨ data (σ !!! src) !! key = Some n ∨ data (σ !!! dst) !! key = Some n.


(* ------------------------------------------------------------------ *)
(** ** What the stages leave in the images                             *)

(** Sample [(ch, row, col)] of [image] holds channel [ch] of the colour
    [mandelbrot_kernel] returned for the point behind pixel [(col, row)]
    of a [w] by [h] image. The kernel is handed the buffer the previous
    pixel left, whatever it holds. *)
Definition coloured (hypot : float -> float -> float) (log : float -> float)
    (colorize : list Z -> float -> Z -> list gradient -> list Z)
    (w h : Z) (ratio : float) (image : Image) (ch row col : Z) : Prop :=
  ∃ pixel v,
    snd (mandelbrot_kernel hypot log colorize (point w h ratio col row) pixel)
      !! Z.to_nat ch = Some v
    ∧ data image !! (ch, row, col) = Some v.

(** What a pass stores for sample [(ch, row, col)] when it reads [src]:
    the weighted sum over the neighbourhood, clamped and cast. *)
Definition filtered_sample (kernel : list (list float)) (src : Image)
    (ch row col : Z) : exec Z :=
  val <-- neighborhood_sum kernel src (width src) (height src)
            (Z.of_nat (length kernel) ÷ 2) ch row col ;;
  stored_value val.

(** [(ch, row, col)] is a sample of [img] in one of the columns
    [[lo, hi)]. *)
Definition in_columns (img : Image) (lo hi ch row col : Z) : Prop :=
  0 <= ch < channels img ∧ 0 <= row < height img ∧ lo <= col < hi.

(** The kernel has [n] rows of [n] weights. *)
Definition square_kernel (kernel : list (list float)) (n : Z) : Prop :=
  Z.of_nat (length kernel) = n ∧ Forall (fun r => Z.of_nat (length r) = n) kernel.

(** The run returned, as a test. *)
Definition returned {A} (r : exec A) : bool :=
  match r with Ok _ => true | Fault _ => false end.

(** The image [base] with the samples written in [top] laid over it. *)
Definition overlay (top base : Image) : Image :=
  MkImage (channels base) (height base) (width base) (data top ∪ data base).

(** The fresh image of the dimensions of [img]. *)
Definition blank_of (img : Image) : Image :=
  new_image (channels img) (height img) (width img).

(* ------------------------------------------------------------------ *)
(** ** Eight-bit images and kernels without negative weights           *)

(** [+0], a positive number or [+infinity]. *)
Definition nonneg_sf (x : spec_float) : bool :=
  match x with
  | S754_zero false | S754_finite false _ _ | S754_infinity false => true
  | _ => false
  end.

Definition nonneg (x : float) : bool := nonneg_sf (Prim2SF x).

(** [+0] or a positive number. *)
Definition finite_nonneg (x : float) : bool :=
  match Prim2SF x with
  | S754_zero false | S754_finite false _ _ => true
  | _ => false
  end.

Definition weights_nonneg (kernel : list (list float)) : Prop :=
  Forall (Forall (fun x => finite_nonneg x = true)) kernel.

(** Every sample of the image reads as a value from 0 to 255. *)
Definition bytes (img : Image) : Prop :=
  ∀ ch row col, 0 <= sample img ch row col <= 255.

(* ------------------------------------------------------------------ *)
(** ** Membership                                                      *)

Section Membership.

Variable hypot : float -> float -> float.

(** Membership as the spec has it, "budget exhausted without escape",
    with the bound the code puts on [abs(z)]: each of the
    [max_iterations] points [z_0, ..., z_2047] of the orbit that the loop
    tests passes [abs(z) <= 4]. *)
Definition set_member (c : complex) : bool :=
  forallb (fun k => (cabs hypot (orbit c k) <=? 4)%float) (seq 0 (Z.to_nat max_iterations)).

(** The number of set members among the pixels of a task. *)
Definition task_members (image : Image) (ratio : float) (task_num task_size : Z) : Z :=
  Z.of_nat (length (List.filter
    (fun p => set_member (point (width image) (height image) (ratio / 10)%float
                            (fst p) (snd p)))
    (task_pixels image task_num task_size))).

End Membership.

Arguments set_member : simpl never.

(* ------------------------------------------------------------------ *)
(** ** The claim on the stored values, as it is worded                 *)

(** The task puts into every sample of its slice the weighted sum over
    the neighbourhood of that sample in the source, clamped and
    truncated, a value from 0 to 255. *)
Definition task_stores_clamped (get_2d_kernel : Z -> Z -> float -> list (list float))
    (src dst : nat) (kernel_width : Z) (sigma : float) (nsteps task_num task_size : Z)
    (σ : heap) : Prop :=
  ∃ σ',
    convolution_2d_helper get_2d_kernel src dst kernel_width sigma nsteps
      task_num task_size σ = Ok σ' ∧
    ∀ ch row col,
      in_columns (σ !!! src) (task_num * (width (σ !!! src) ÷ task_size))
        ((task_num + 1) * (width (σ !!! src) ÷ task_size)) ch row col →
      ∃ n, filtered_sample (get_2d_kernel kernel_width kernel_width sigma) (σ !!! src)
             ch row col = Ok n
           ∧ data (σ' !!! dst) !! (ch, row, col) = Some n
           ∧ 0 <= n <= 255.
(* ================================================================== *)
(** * The escape kernel                                                *)
(* ================================================================== *)

Section EscapeKernelFacts.

Variable hypot : float -> float -> float.
Variable log : float -> float.
Variable colorize : list Z -> float -> Z -> list gradient -> list Z.

(** The loop started at [(z, iteration)] with [fuel] turns allowed makes
    some number [n] of turns: the test held before each of them, and it
    fails afterwards unless the fuel is used up. *)
Lemma escape_loop_turns fuel c z iteration :
  ∃ n : nat,
    (n <= fuel)%nat ∧
    escape_loop hypot fuel c z iteration
      = (Nat.iter n (step c) z, iteration + Z.of_nat n) ∧
    (∀ k : nat, (k < n)%nat →
       loop_test hypot (Nat.iter k (step c) z) (iteration + Z.of_nat k) = true) ∧
    (n = fuel ∨
     loop_test hypot (Nat.iter n (step c) z) (iteration + Z.of_nat n) = false).
Proof.
  revert z iteration. induction fuel as [|fuel IH]; intros z iteration.
  - exists 0%nat. simpl. rewrite Z.add_0_r. repeat split; auto; lia.
  - simpl. destruct (loop_test hypot z iteration) eqn:Htest.
    + destruct (IH (step c z) (iteration + 1)) as (n & Hn & Hrun & Hbefore & Hafter).
      exists (S n). rewrite Nat.iter_succ_r.
      replace (iteration + Z.of_nat (S n)) with (iteration + 1 + Z.of_nat n) by lia.
      repeat split; [lia | exact Hrun | | ].
      * intros [|k] Hk.
        -- simpl. by rewrite Z.add_0_r.
        -- rewrite Nat.iter_succ_r.
           replace (iteration + Z.of_nat (S k)) with (iteration + 1 + Z.of_nat k) by lia.
           apply Hbefore. lia.
      * destruct Hafter as [->|Hafter]; [by left | by right].
    + exists 0%nat. simpl. rewrite Z.add_0_r. repeat split; auto; [lia | lia].
Qed.

(** The fuel of [escape] is never what stops it: the loop makes [n]
    turns, at most [max_iterations], and the test of the [while] fails
    after them. *)
Lemma escape_turns c :
  ∃ n : nat,
    Z.of_nat n <= max_iterations ∧
    escape hypot c = (orbit c n, Z.of_nat n) ∧
    (∀ k : nat, (k < n)%nat → loop_test hypot (orbit c k) (Z.of_nat k) = true) ∧
    loop_test hypot (orbit c n) (Z.of_nat n) = false.
Proof.
  unfold escape, orbit.
  assert (Hfuel : Z.of_nat (Z.to_nat max_iterations) = max_iterations)
    by (apply Z2Nat.id; unfold max_iterations; lia).
  generalize dependent (Z.to_nat max_iterations). intros fuel Hfuel.
  destruct (escape_loop_turns fuel c (0%float, 0%float) 0)
    as (n & Hn & Hrun & Hbefore & Hafter).
  rewrite Z.add_0_l in Hrun, Hafter.
  exists n. repeat split.
  - lia.
  - exact Hrun.
  - intros k Hk. specialize (Hbefore k Hk). by rewrite Z.add_0_l in Hbefore.
  - destruct Hafter as [-> | Hafter]; [|exact Hafter].
    unfold loop_test. rewrite andb_false_iff. right. apply Z.ltb_ge. lia.
Qed.

Lemma escape_loop_done c :
  loop_test hypot (fst (escape hypot c)) (snd (escape hypot c)) = false.
Proof. destruct (escape_turns c) as (n & _ & -> & _ & Hafter). exact Hafter. Qed.

(** The returned flag is [true] exactly when the loop was left with
    budget to spare. *)
Lemma mandelbrot_kernel_flag c pixel :
  fst (mandelbrot_kernel hypot log colorize c pixel)
    = (snd (escape hypot c) <? max_iterations).
Proof. unfold mandelbrot_kernel. by destruct (escape hypot c). Qed.

(** X11: what the returned flag tells. [mandelbrot_kernel] returns
    [true] exactly when the loop was left before its 2048 turns were
    used up: when some [z] of the orbit of [c], reached in fewer than
    [max_iterations] turns, failed [abs(z) <= 4]. The pixel buffer has no
    part in it. *)
Lemma mandelbrot_kernel_true_iff_escaped c pixel :
  fst (mandelbrot_kernel hypot log colorize c pixel) = true
    ↔ ∃ n : nat,
        escape hypot c = (orbit c n, Z.of_nat n) ∧
        Z.of_nat n < max_iterations ∧
        (cabs hypot (orbit c n) <=? 4)%float = false.
Proof.
  rewrite mandelbrot_kernel_flag.
  destruct (escape_turns c) as (n & Hn & Hrun & _ & Hafter). rewrite Hrun. simpl.
  rewrite Z.ltb_lt. split.
  - intros Hlt. exists n. split_and!; [done..|].
    unfold loop_test in Hafter. apply andb_false_iff in Hafter as [?|Hbudget]; [done|].
    apply Z.ltb_ge in Hbudget. lia.
  - intros (n' & [= _ Hn'] & Hlt & _). lia.
Qed.

Lemma mandelbrot_kernel_pixel c pixel :
  snd (mandelbrot_kernel hypot log colorize c pixel)
    = colorize pixel (smooth_index log (fst (escape hypot c)) (snd (escape hypot c)))
        (snd (escape hypot c)) gradients.
Proof. unfold mandelbrot_kernel. by destruct (escape hypot c). Qed.

(** C1, as amended: for every point [c] the kernel walks the orbit
    [0, c, c^2 + c, ...] of [z <- z^2 + c] from [z = 0] and leaves the
    loop at the first [z] for which [abs(z) <= 4] fails, or after 2048
    turns if there is no such [z] before: the bound on [abs(z)] is 4. *)
Theorem escape_stops_at_radius_four (c : complex) :
  ∃ n : nat,
    escape hypot c = (orbit c n, Z.of_nat n) ∧
    0 <= Z.of_nat n <= max_iterations ∧
    (∀ k : nat, (k < n)%nat → (cabs hypot (orbit c k) <=? 4)%float = true) ∧
    (Z.of_nat n = max_iterations ∨ (cabs hypot (orbit c n) <=? 4)%float = false).
Proof.
  destruct (escape_turns c) as (n & Hn & Hrun & Hbefore & Hafter).
  exists n. repeat split.
  - exact Hrun.
  - lia.
  - exact Hn.
  - intros k Hk. specialize (Hbefore k Hk).
    unfold loop_test in Hbefore. by apply andb_true_iff in Hbefore as [? _].
  - unfold loop_test in Hafter. apply andb_false_iff in Hafter as [Habs | Hbudget].
    + by right.
    + left. apply Z.ltb_ge in Hbudget. lia.
Qed.

End EscapeKernelFacts.

(** C1, the claim as stated fails: from [c = 3] the orbit is 0, 3, 12.
    [|3| > 2], so a loop bounded by 2 is left after one turn, but
    [abs(3) <= 4] holds and the kernel makes a second turn. *)
Lemma escape_not_at_radius_two :
  ¬ stops_at_radius_two hypot_sqrt (3%float, 0%float).
Proof.
  intros (n & Hrun & Hbefore & _).
  assert (Heval : escape hypot_sqrt (3%float, 0%float) = ((12%float, 0%float), 2))
    by (vm_compute; reflexivity).
  rewrite Heval in Hrun.
  assert (n = 2%nat) as -> by (injection Hrun; lia).
  specialize (Hbefore 1%nat ltac:(lia)). vm_compute in Hbefore. discriminate.
Qed.

(** At [c = 0] the loop stays on [z = 0] and uses up whatever budget is
    left. *)
Lemma escape_loop_origin hypot fuel iteration :
  (hypot 0 0 <=? 4)%float = true →
  iteration + Z.of_nat fuel <= max_iterations →
  escape_loop hypot fuel (0%float, 0%float) (0%float, 0%float) iteration
    = ((0%float, 0%float), iteration + Z.of_nat fuel).
Proof.
  intros Habs. revert iteration. induction fuel as [|fuel IH]; intros iteration Hbudget.
  - simpl. by rewrite Z.add_0_r.
  - cbn [escape_loop]. unfold loop_test, cabs. cbn [real imag fst snd]. rewrite Habs.
    destruct (Z.ltb_spec iteration max_iterations); [|lia]. cbn [andb].
    change (step (0%float, 0%float) (0%float, 0%float)) with (0%float, 0%float).
    rewrite IH by lia. f_equal. lia.
Qed.

(** C3, the code at [c = 0], for every [hypot] with [hypot(0, 0) <= 4]
    (libm's is 0 there): [z] stays 0 and the budget of 2048 turns is used
    up, as the claim says, but the flag the kernel returns is [false]. *)
Theorem mandelbrot_kernel_origin hypot log colorize pixel :
  (hypot 0 0 <=? 4)%float = true →
  escape hypot (0%float, 0%float) = ((0%float, 0%float), max_iterations) ∧
  fst (mandelbrot_kernel hypot log colorize (0%float, 0%float) pixel) = false.
Proof.
  intros Habs.
  assert (Heval : escape hypot (0%float, 0%float) = ((0%float, 0%float), max_iterations)).
  { assert (Hfuel : Z.of_nat (Z.to_nat max_iterations) = max_iterations)
      by (apply Z2Nat.id; unfold max_iterations; lia).
    unfold escape. rewrite escape_loop_origin; [| done | lia].
    by rewrite Z.add_0_l, Hfuel. }
  split; [exact Heval|]. rewrite mandelbrot_kernel_flag, Heval. reflexivity.
Qed.

(** C3 with the reference [hypot]. *)
Lemma mandelbrot_kernel_origin_witness :
  escape hypot_sqrt (0%float, 0%float) = ((0%float, 0%float), max_iterations) ∧
  fst (mandelbrot_kernel hypot_sqrt log_any colorize_keep (0%float, 0%float) [0; 0; 0]) = false.
Proof.
  apply (mandelbrot_kernel_origin hypot_sqrt log_any colorize_keep [0; 0; 0]). reflexivity.
Defined.

(* ================================================================== *)
(** * Loops                                                            *)
(* ================================================================== *)

Lemma exec_bind_ok {A B} (m : exec A) (k : A -> exec B) (b : B) :
  exec_bind m k = Ok b ↔ ∃ a, m = Ok a ∧ k a = Ok b.
Proof.
  destruct m as [a|f]; simpl; split.
  - intros H. by exists a.
  - by intros (a' & [= ->] & H).
  - discriminate.
  - by intros (a' & [=] & _).
Qed.

(** A run whose test [returned] is [true] returned. *)
Lemma returned_completes {A} (r : exec A) : returned r = true → completes r.
Proof. destruct r as [a|f]; [by exists a | discriminate]. Qed.

Lemma for_each_app {A S} (l1 l2 : list A) (body : A -> S -> exec S) (s : S) :
  for_each (l1 ++ l2) body s = (s' <-- for_each l1 body s ;; for_each l2 body s').
Proof.
  revert s. induction l1 as [|x l1 IH]; intros s; simpl; [done|].
  destruct (body x s); simpl; [apply IH | done].
Qed.

Lemma for_each_singleton {A S} (x : A) (body : A -> S -> exec S) (s : S) :
  for_each [x] body s = body x s.
Proof. simpl. by destruct (body x s). Qed.

Lemma for_each_map {A B S} (g : A -> B) (l : list A) (body : B -> S -> exec S) (s : S) :
  for_each (map g l) body s = for_each l (fun x => body (g x)) s.
Proof.
  revert s. induction l as [|x l IH]; intros s; simpl; [done|].
  destruct (body (g x) s); simpl; [apply IH | done].
Qed.

Lemma for_each_ext {A S} (l : list A) (f g : A -> S -> exec S) (s : S) :
  (∀ x s, x ∈ l → f x s = g x s) → for_each l f s = for_each l g s.
Proof.
  revert s. induction l as [|x l IH]; intros s Hfg; simpl; [done|].
  rewrite Hfg by left. destruct (g x s); simpl; [|done].
  apply IH. intros y s' Hy. apply Hfg. by right.
Qed.

(** Two nested loops walk through the pairs of indices, the outer index
    varying slowest. *)
Lemma for_each_nested {A B S} (l1 : list A) (l2 : list B)
    (body : A -> B -> S -> exec S) (s : S) :
  for_each l1 (fun a => for_each l2 (body a)) s
    = for_each (list_prod l1 l2) (fun p => body (fst p) (snd p)) s.
Proof.
  revert s. induction l1 as [|a l1 IH]; intros s; simpl; [done|].
  rewrite for_each_app, for_each_map. simpl.
  destruct (for_each l2 (body a) s); simpl; [apply IH | done].
Qed.

(** Indices on which the body does nothing can be left out. *)
Lemma for_each_skip {A S} (keep : A -> bool) (l : list A)
    (body : A -> S -> exec S) (s : S) :
  (∀ x s, keep x = false → body x s = Ok s) →
  for_each l body s = for_each (List.filter keep l) body s.
Proof.
  intros Hskip. revert s. induction l as [|x l IH]; intros s; simpl; [done|].
  destruct (keep x) eqn:Hx; simpl.
  - destruct (body x s); simpl; [apply IH | done].
  - rewrite Hskip by done. simpl. apply IH.
Qed.

(** A property that every turn of the loop keeps holds when it ends. *)
Lemma for_each_invariant {A S} (I : S -> Prop) (l : list A)
    (body : A -> S -> exec S) (s s' : S) :
  I s →
  (∀ x s s', x ∈ l → I s → body x s = Ok s' → I s') →
  for_each l body s = Ok s' → I s'.
Proof.
  revert s. induction l as [|x l IH]; intros s Hs Hstep; simpl.
  - by intros [= <-].
  - intros Hrun. apply exec_bind_ok in Hrun as (s1 & Hx & Hrun).
    apply (IH s1); [| |done].
    + apply (Hstep x s s1); [by left | done | done].
    + intros y t t' Hy. apply Hstep. by right.
Qed.

(** A loop whose every turn returns, returns. *)
Lemma for_each_completes {A S} (I : S -> Prop) (l : list A)
    (body : A -> S -> exec S) (s : S) :
  I s →
  (∀ x s, x ∈ l → I s → ∃ s', body x s = Ok s' ∧ I s') →
  ∃ s', for_each l body s = Ok s' ∧ I s'.
Proof.
  revert s. induction l as [|x l IH]; intros s Hs Hstep; simpl.
  - by exists s.
  - destruct (Hstep x s) as (s1 & -> & Hs1); [by left | done |]. simpl.
    apply IH; [done|]. intros y t Hy. apply Hstep. by right.
Qed.

(** A loop none of whose turns changes the state returns it as it was. *)
Lemma for_each_noop {A S} (l : list A) (body : A -> S -> exec S) (s : S) :
  (∀ x, x ∈ l → body x s = Ok s) → for_each l body s = Ok s.
Proof.
  induction l as [|x l IH]; intros Hbody; simpl; [done|].
  rewrite Hbody by left. simpl. apply IH. intros y Hy. apply Hbody. by right.
Qed.

Lemma exec_rel_bind {A B A' B'} (R : A -> B -> Prop) (R' : A' -> B' -> Prop)
    (x : exec A) (y : exec B) (f : A -> exec A') (g : B -> exec B') :
  exec_rel R x y →
  (∀ a b, R a b → exec_rel R' (f a) (g b)) →
  exec_rel R' (exec_bind x f) (exec_bind y g).
Proof. destruct x, y; simpl; try done. intros H Hfg. by apply Hfg. Qed.

Lemma exec_rel_ok_l {A B A'} (R : A -> B -> Prop) (R' : A' -> B -> Prop)
    (x : exec A) (y : exec B) (h : A -> A') :
  exec_rel R x y →
  (∀ a b, R a b → R' (h a) b) →
  exec_rel R' (a <-- x ;; Ok (h a)) y.
Proof. destruct x, y; simpl; try done. intros H Hh. by apply Hh. Qed.

(** Two loops over the same indices whose turns keep a relation between
    their states end alike. *)
Lemma for_each_sim {A S T} (R : S -> T -> Prop) (l : list A)
    (f : A -> S -> exec S) (g : A -> T -> exec T) (s : S) (t : T) :
  R s t →
  (∀ x s t, x ∈ l → R s t → exec_rel R (f x s) (g x t)) →
  exec_rel R (for_each l f s) (for_each l g t).
Proof.
  revert s t. induction l as [|x l IH]; intros s t Hst Hstep; simpl; [done|].
  apply (exec_rel_bind R); [apply Hstep; [by left | done]|].
  intros s' t' Hst'. apply IH; [done|]. intros y u v Hy. apply Hstep. by right.
Qed.

Lemma for_each_nil_inner {A B S} (l : list A) (body : A -> B -> S -> exec S) (s : S) :
  for_each l (fun a => for_each [] (body a)) s = Ok s.
Proof. by apply for_each_noop. Qed.

Lemma elem_of_range (lo hi i : Z) : i ∈ range lo hi ↔ lo <= i < hi.
Proof. unfold range. rewrite elem_of_seqZ. lia. Qed.

Lemma range_empty (lo hi : Z) : hi <= lo → range lo hi = [].
Proof.
  intros H. unfold range, seqZ.
  replace (Z.to_nat (hi - lo)) with 0%nat by lia. done.
Qed.

Lemma range_cons (lo hi : Z) : lo < hi → range lo hi = lo :: range (lo + 1) hi.
Proof.
  intros H. unfold range.
  replace (hi - lo) with (Z.succ (hi - (lo + 1))) by lia.
  rewrite seqZ_cons by lia. f_equal. f_equal; lia.
Qed.

(* ================================================================== *)
(** * The tiling of the columns into tasks                             *)
(* ================================================================== *)

Lemma elem_of_task_columns (w_size task_num i : Z) :
  i ∈ task_columns w_size task_num
    ↔ task_num * w_size <= i < (task_num + 1) * w_size.
Proof. unfold task_columns. apply elem_of_range. Qed.

Lemma task_columns_empty (w_size task_num : Z) :
  w_size <= 0 → task_columns w_size task_num = [].
Proof. intros H. unfold task_columns. apply range_empty. lia. Qed.

Lemma int_div_ok (a b : Z) : b ≠ 0 → int_div a b = Ok (a ÷ b).
Proof. intros H. unfold int_div. by destruct (Z.eqb_spec b 0). Qed.

Lemma int_div_zero (a : Z) : int_div a 0 = Fault DivisionByZero.
Proof. done. Qed.

(** C6: with [T > 0] tasks over an extent [W], the division of lines 70
    and 117 gives every task [W / T] columns (rounded down); task [t]
    walks exactly through [t * (W / T), (t + 1) * (W / T)); two different
    tasks share no column; and the [W mod T] columns from [T * (W / T)]
    up to [W] belong to no task. *)
Theorem task_columns_tiling (W T t : Z) :
  0 < T →
  ∃ w_size,
    int_div W T = Ok w_size ∧
    (∀ i, i ∈ task_columns w_size t ↔ t * (W `div` T) <= i < (t + 1) * (W `div` T)) ∧
    (∀ t' i, t ≠ t' → i ∈ task_columns w_size t → i ∉ task_columns w_size t') ∧
    (∀ t' i, 0 <= t' < T → T * (W `div` T) <= i < W → i ∉ task_columns w_size t') ∧
    W - T * (W `div` T) = W `mod` T.
Proof.
  intros HT. exists (W ÷ T). split; [apply int_div_ok; lia|].
  assert (Hq : 0 <= W ∧ W ÷ T = W `div` T ∨ W < 0 ∧ W ÷ T <= 0 ∧ W `div` T <= 0).
  { destruct (Z.le_gt_cases 0 W) as [HW|HW].
    - left. split; [done|]. apply Z.quot_div_nonneg; lia.
    - right. split; [done|]. split.
      + apply Z.quot_le_upper_bound; lia.
      + apply Z.div_le_upper_bound; lia. }
  pose proof (Z.div_mod W T ltac:(lia)) as Hdm.
  pose proof (Z.mod_pos_bound W T HT) as Hmod.
  split_and!.
  - intros i. rewrite elem_of_task_columns.
    destruct Hq as [[_ ->] | (_ & Hq1 & Hq2)]; [done|]. split; intros Hi; nia.
  - intros t' i Hne. rewrite !elem_of_task_columns. intros Hi Hi'.
    assert (t < t' ∨ t' < t) as [Hlt|Hlt] by lia; nia.
  - intros t' i Ht' Hi. rewrite elem_of_task_columns. intros Hi'.
    destruct Hq as [[_ Hq] | (_ & Hq1 & Hq2)]; [rewrite Hq in Hi'|]; nia.
  - lia.
Qed.

(** C6 at an extent the tasks do not divide: 10 columns, 4 tasks. *)
Lemma task_columns_tiling_witness :
  ∃ w_size,
    int_div 10 4 = Ok w_size ∧
    (∀ i, i ∈ task_columns w_size 1 ↔ 1 * (10 `div` 4) <= i < (1 + 1) * (10 `div` 4)) ∧
    (∀ t' i, 1 ≠ t' → i ∈ task_columns w_size 1 → i ∉ task_columns w_size t') ∧
    (∀ t' i, 0 <= t' < 4 → 4 * (10 `div` 4) <= i < 10 → i ∉ task_columns w_size t') ∧
    10 - 4 * (10 `div` 4) = 10 `mod` 4.
Proof. apply (task_columns_tiling 10 4 1). lia. Defined.

Example task_columns_10_4 :
  map (task_columns (10 ÷ 4)) [0; 1; 2; 3] = [[0; 1]; [2; 3]; [4; 5]; [6; 7]].
Proof. reflexivity. Qed.

(* ================================================================== *)
(** * The fractal stage                                                *)
(* ================================================================== *)

Lemma same_shape_refl (a : Image) : same_shape a a.
Proof. done. Qed.

Lemma same_shape_trans (a b c : Image) :
  same_shape a b → same_shape b c → same_shape a c.
Proof. unfold same_shape. intros (-> & -> & ->) (-> & -> & ->). done. Qed.

Lemma same_shape_store (img : Image) (ch row col v : Z) :
  same_shape img (store_sample img ch row col v).
Proof. done. Qed.

Section FractalStageFacts.

Variable hypot : float -> float -> float.
Variable log : float -> float.
Variable colorize : list Z -> float -> Z -> list gradient -> list Z.

Lemma kernel_flag_any_pixel w h ratio i j pixel :
  fst (mandelbrot_kernel hypot log colorize (point w h ratio i j) pixel)
    = kernel_flag hypot log colorize w h ratio (i, j).
Proof. unfold kernel_flag. by rewrite !mandelbrot_kernel_flag. Qed.

Lemma write_channels_shape nchannels j i pixel image image' :
  write_channels nchannels j i pixel image = Ok image' → same_shape image image'.
Proof.
  apply (for_each_invariant (same_shape image)); [apply same_shape_refl|].
  intros ch img img' _ Himg Hstep.
  apply exec_bind_ok in Hstep as (v & _ & [= <-]).
  eapply same_shape_trans; [exact Himg | apply same_shape_store].
Qed.

(** One pixel: the count grows by one when the kernel returns [true],
    the pixel buffer holds the kernel's colour, the image keeps its
    dimensions. *)
Lemma mandelbrot_pixel_inv w h nchannels ratio i j s s' :
  mandelbrot_pixel hypot log colorize w h nchannels ratio i j s = Ok s' →
  fs_inside s' = fs_inside s
      + (if kernel_flag hypot log colorize w h ratio (i, j) then 1 else 0) ∧
  fs_pixel s' = snd (mandelbrot_kernel hypot log colorize (point w h ratio i j) (fs_pixel s)) ∧
  same_shape (fs_image s) (fs_image s').
Proof.
  unfold mandelbrot_pixel. intros Hrun.
  apply exec_bind_ok in Hrun as (image1 & Hwrite & Hs').
  apply write_channels_shape in Hwrite.
  rewrite kernel_flag_any_pixel in Hs'. injection Hs' as <-. cbn [fs_inside fs_pixel fs_image].
  split_and!; [|done|done].
  destruct (kernel_flag _ _ _ _ _ _ _); lia.
Qed.

(** The two loops of [mandelbrot] add one to the count for each pixel on
    which the kernel returns [true], and keep the image's dimensions. *)
Lemma mandelbrot_pixels_count w h nchannels ratio (pixels : list (Z * Z)) s s' :
  for_each pixels (fun p => mandelbrot_pixel hypot log colorize w h nchannels ratio (fst p) (snd p)) s
    = Ok s' →
  fs_inside s' = fs_inside s
      + Z.of_nat (length (List.filter (kernel_flag hypot log colorize w h ratio) pixels)) ∧
  same_shape (fs_image s) (fs_image s').
Proof.
  revert s. induction pixels as [|[i j] pixels IH]; intros s; cbn [for_each fst snd].
  - intros [= <-]. cbn [List.filter length]. split; [lia | apply same_shape_refl].
  - intros Hrun. apply exec_bind_ok in Hrun as (s1 & Hpixel & Hrun).
    apply IH in Hrun as [Hcount Hshape].
    apply mandelbrot_pixel_inv in Hpixel as (Hone & _ & Hshape1).
    split; [|by eapply same_shape_trans].
    rewrite Hcount, Hone. cbn [List.filter].
    destruct (kernel_flag _ _ _ _ _ _ (i, j)); cbn [length]; lia.
Qed.

Lemma task_count_shape image image' ratio t T :
  same_shape image image' →
  task_count hypot log colorize image' ratio t T = task_count hypot log colorize image ratio t T.
Proof. intros (_ & Hh & Hw). unfold task_count, task_pixels. by rewrite Hh, Hw. Qed.

(** What one task returns. *)
Lemma mandelbrot_count image ratio t T image' n :
  mandelbrot hypot log colorize image ratio t T = Ok (image', n) →
  n = task_count hypot log colorize image ratio t T ∧ same_shape image image'.
Proof.
  unfold mandelbrot, int_div. destruct (Z.eqb_spec T 0) as [->|HT]; [discriminate|].
  simpl. rewrite for_each_nested. intros Hrun.
  apply exec_bind_ok in Hrun as (s & Hrun & [= <- <-]).
  apply mandelbrot_pixels_count in Hrun as [-> Hshape]. simpl in *.
  split; [|done]. unfold task_count, task_pixels. lia.
Qed.

(** The dispatch loop of [main] after its first [n] tasks: their slots
    hold their counts, the other slots are as before. *)
Lemma fractal_dispatch T ratio image (n : nat) (locals : list Z) r :
  (n <= length locals)%nat →
  for_each (seqZ 0 (Z.of_nat n))
    (fun i (s : Image * list Z) =>
       r <-- mandelbrot hypot log colorize (fst s) ratio i T ;;
       Ok (fst r, <[Z.to_nat i := snd r]> (snd s)))
    (image, locals) = Ok r →
  same_shape image (fst r) ∧
  snd r = map (fun t => task_count hypot log colorize image ratio t T) (seqZ 0 (Z.of_nat n))
            ++ drop n locals.
Proof.
  revert r. induction n as [|n IH]; intros r Hlen.
  - simpl. intros [= <-]. split; [apply same_shape_refl | by rewrite drop_0].
  - rewrite seqZ_S, for_each_app, map_app, Z.add_0_l.
    intros Hrun. apply exec_bind_ok in Hrun as ([img1 locals1] & Hfirst & Hlast).
    apply IH in Hfirst as [Hshape Hlocals]; [|lia].
    rewrite for_each_singleton in Hlast. cbn [fst snd map] in *.
    apply exec_bind_ok in Hlast as ([img2 c] & Htask & [= <-]). cbn [fst snd].
    apply mandelbrot_count in Htask as [-> Hshape2].
    split; [by eapply same_shape_trans|].
    rewrite (task_count_shape image img1) by done.
    rewrite Hlocals, Nat2Z.id.
    destruct (lookup_lt_is_Some_2 locals n ltac:(lia)) as [x Hx].
    rewrite (drop_S _ _ _ Hx).
    rewrite insert_app_r_alt; rewrite length_map, length_seqZ, Nat2Z.id; [|lia].
    rewrite Nat.sub_diag. simpl. by rewrite <- app_assoc.
Qed.

(** The count in terms of the flag: what a task returns as its count is
    the number of pixels of its slice on which [mandelbrot_kernel]
    returned [true]; the slots of [pixels_inside_local] hold these counts
    task by task, and the total of the stage is their sum. *)
Lemma fractal_counts_add_up :
  (∀ image ratio t T image' n,
     mandelbrot hypot log colorize image ratio t T = Ok (image', n) →
     n = task_count hypot log colorize image ratio t T) ∧
  (∀ T ratio image image' locals total,
     fractal_stage hypot log colorize T ratio image = Ok (image', locals, total) →
     locals = map (fun t => task_count hypot log colorize image ratio t T) (range 0 T) ∧
     total = foldr Z.add 0 locals).
Proof.
  split.
  - intros image ratio t T image' n Hrun. by apply mandelbrot_count in Hrun as [? _].
  - intros T ratio image image' locals total. unfold fractal_stage.
    destruct (Z.ltb_spec T 0) as [|HT]; [discriminate|].
    intros Hrun. apply exec_bind_ok in Hrun as (r & Hrun & [= <- <- <-]).
    unfold range in *. rewrite Z.sub_0_r in *.
    rewrite <- (Z2Nat.id T) in Hrun at 1 by done.
    apply fractal_dispatch in Hrun as [_ Hlocals]; [|by rewrite length_replicate].
    rewrite drop_ge, app_nil_r, Z2Nat.id in Hlocals by (rewrite ?length_replicate; lia).
    split; [done|].
    apply fold_symmetric; intros; lia.
Qed.

(** The flag [mandelbrot_kernel] returns is the negation of
    membership: it is [true] on the points whose orbit fails
    [abs(z) <= 4] within the budget. *)
Lemma kernel_flag_not_member w h ratio (p : Z * Z) :
  kernel_flag hypot log colorize w h ratio p
    = negb (set_member hypot (point w h ratio (fst p) (snd p))).
Proof.
  unfold kernel_flag. rewrite mandelbrot_kernel_flag.
  set (c := point w h ratio (fst p) (snd p)).
  destruct (escape_turns hypot c) as (n & Hn & Hrun & Hbefore & Hafter).
  rewrite Hrun. cbn [snd]. unfold set_member.
  destruct (Z.ltb_spec (Z.of_nat n) max_iterations) as [Hlt|Hge].
  - symmetry. apply negb_true_iff.
    destruct (forallb _ _) eqn:Hall; [|done].
    rewrite forallb_forall in Hall.
    specialize (Hall n ltac:(apply in_seq; lia)).
    unfold loop_test in Hafter. rewrite Hall in Hafter.
    apply andb_false_iff in Hafter as [|Hbudget]; [done|].
    apply Z.ltb_ge in Hbudget. lia.
  - symmetry. apply negb_false_iff, forallb_forall.
    intros k Hk%in_seq.
    specialize (Hbefore k ltac:(lia)). unfold loop_test in Hbefore.
    by apply andb_true_iff in Hbefore as [? _].
Qed.

Lemma task_count_non_members image ratio t T :
  task_count hypot log colorize image ratio t T + task_members hypot image ratio t T
    = Z.of_nat (length (task_pixels image t T)).
Proof.
  unfold task_count, task_members.
  rewrite (filter_ext _ _ (fun p => kernel_flag_not_member _ _ _ p)).
  rewrite <- (filter_length
                (fun p => set_member hypot
                            (point (width image) (height image) (ratio / 10)%float
                               (fst p) (snd p)))
                (task_pixels image t T)).
  lia.
Qed.

(** C2, what the code does: the count a task returns is the number of
    pixels of its slice that are not members of the set, the pixels
    whose orbit fails [abs(z) <= 4] within the budget; with the members
    of the slice it adds up to the pixels of the slice. The slots of
    [pixels_inside_local] hold these counts task by task, and the total
    of the stage is the sum of the slots, as the claim has it: what the
    stage reports as the inside-set count is the number of pixels
    outside the set. *)
Theorem fractal_counts_non_members :
  (∀ image ratio t T image' n,
     mandelbrot hypot log colorize image ratio t T = Ok (image', n) →
     n = Z.of_nat (length (task_pixels image t T)) - task_members hypot image ratio t T) ∧
  (∀ T ratio image image' locals total,
     fractal_stage hypot log colorize T ratio image = Ok (image', locals, total) →
     locals = map (fun t => Z.of_nat (length (task_pixels image t T))
                            - task_members hypot image ratio t T) (range 0 T) ∧
     total = foldr Z.add 0 locals).
Proof.
  split.
  - intros image ratio t T image' n Hrun. apply mandelbrot_count in Hrun as [-> _].
    pose proof (task_count_non_members image ratio t T). lia.
  - intros T ratio image image' locals total Hrun.
    apply (proj2 fractal_counts_add_up) in Hrun as [-> Htotal]. split; [|done].
    apply map_ext. intros t. pose proof (task_count_non_members image ratio t T). lia.
Qed.

(** The total does not depend on the order of the slots. *)
Lemma total_any_order (locals locals' : list Z) :
  Permutation locals locals' → fold_left Z.add locals 0 = fold_left Z.add locals' 0.
Proof.
  intros Hperm. rewrite !(fold_symmetric Z.add) by (intros; lia).
  induction Hperm; simpl; lia.
Qed.

End FractalStageFacts.

(** C2 on a run: one task on a 3-channel image 3 wide and 1 high with
    [ratio = 15]. The points behind its three pixels are
    [-1.1 - 0.35i], [-0.6 - 0.35i] and [-0.1 - 0.35i]; the first leaves
    the loop after 9 turns, the other two are members, and the task
    returns 1. *)
Lemma fractal_counts_non_members_witness :
  ∃ image',
    mandelbrot hypot_sqrt log_any colorize_keep (new_image 3 1 3) 15%float 0 1
      = Ok (image', 1) ∧
    task_members hypot_sqrt (new_image 3 1 3) 15%float 0 1 = 2 ∧
    Z.of_nat (length (task_pixels (new_image 3 1 3) 0 1)) = 3.
Proof.
  assert (Hret : returned (mandelbrot hypot_sqrt log_any colorize_keep (new_image 3 1 3)
                             15%float 0 1) = true) by (vm_compute; reflexivity).
  destruct (returned_completes _ Hret) as [[image' n] Hrun].
  assert (Hmembers : task_members hypot_sqrt (new_image 3 1 3) 15%float 0 1 = 2)
    by (vm_compute; reflexivity).
  assert (Hpixels : Z.of_nat (length (task_pixels (new_image 3 1 3) 0 1)) = 3)
    by reflexivity.
  pose proof (proj1 (fractal_counts_non_members hypot_sqrt log_any colorize_keep)
                _ _ _ _ _ _ Hrun) as Hn.
  rewrite Hmembers, Hpixels in Hn. change (3 - 2) with 1 in Hn.
  subst n. exists image'. exact (conj Hrun (conj Hmembers Hpixels)).
Defined.

(** On that image every point escapes, and every pixel is counted. *)
Example fractal_stage_4_2 :
  match fractal_stage hypot_sqrt log_any colorize_keep 2 1.5%float (new_image 3 2 4) with
  | Ok (_, locals, total) => locals = [4; 4] ∧ total = 8
  | Fault _ => False
  end.
Proof. vm_compute. done. Qed.

(* ------------------------------------------------------------------ *)
(** ** The pixel buffer                                                *)

Lemma pixel_at_ok (pixel : list Z) (ch : Z) :
  0 <= ch < Z.of_nat (length pixel) → ∃ v, pixel_at pixel ch = Ok v.
Proof.
  intros Hch. unfold pixel_at. destruct (Z.ltb_spec ch 0); [lia|].
  destruct (lookup_lt_is_Some_2 pixel (Z.to_nat ch) ltac:(lia)) as [v ->]. by exists v.
Qed.

Lemma pixel_at_fault (pixel : list Z) (ch : Z) :
  Z.of_nat (length pixel) <= ch → pixel_at pixel ch = Fault (PixelIndex ch).
Proof.
  intros Hch. unfold pixel_at. destruct (Z.ltb_spec ch 0); [done|].
  by rewrite lookup_ge_None_2 by lia.
Qed.

Section PixelBuffer.

Variable hypot : float -> float -> float.
Variable log : float -> float.
Variable colorize : list Z -> float -> Z -> list gradient -> list Z.

(** [colorize] fills the three entries of the buffer it is given and
    leaves its size alone. *)
Hypothesis colorize_length :
  ∀ pixel q iteration g, length (colorize pixel q iteration g) = length pixel.

Lemma write_channels_ok nchannels j i pixel image :
  length pixel = 3%nat → nchannels <= 3 →
  ∃ image', write_channels nchannels j i pixel image = Ok image'.
Proof.
  intros Hlen Hn.
  destruct (for_each_completes (fun _ => True) (range 0 nchannels)
              (fun ch img => v <-- pixel_at pixel ch ;; Ok (store_sample img ch j i v)) image)
    as (image' & Hrun & _); [done | | by exists image'].
  intros ch img Hch _. apply elem_of_range in Hch.
  destruct (pixel_at_ok pixel ch) as [v ->]; [lia|]. simpl. eauto.
Qed.

Lemma write_channels_fault nchannels j i pixel image :
  length pixel = 3%nat → 3 < nchannels →
  write_channels nchannels j i pixel image = Fault (PixelIndex 3).
Proof.
  intros Hlen Hn. unfold write_channels.
  do 4 (rewrite range_cons by lia). simpl.
  destruct pixel as [|a [|b [|c [|d pixel]]]]; try discriminate. reflexivity.
Qed.

Lemma kernel_pixel_length c pixel :
  length (snd (mandelbrot_kernel hypot log colorize c pixel)) = length pixel.
Proof. rewrite mandelbrot_kernel_pixel. apply colorize_length. Qed.

Lemma mandelbrot_pixel_ok w h nchannels ratio i j s :
  length (fs_pixel s) = 3%nat → nchannels <= 3 →
  ∃ s', mandelbrot_pixel hypot log colorize w h nchannels ratio i j s = Ok s'
        ∧ length (fs_pixel s') = 3%nat.
Proof.
  intros Hlen Hn. unfold mandelbrot_pixel.
  destruct (write_channels_ok nchannels j i
              (snd (mandelbrot_kernel hypot log colorize (point w h ratio i j) (fs_pixel s)))
              (fs_image s)) as [image' ->]; [by rewrite kernel_pixel_length | done |].
  simpl. eexists. split; [done|]. simpl. by rewrite kernel_pixel_length.
Qed.

Lemma mandelbrot_pixel_fault w h nchannels ratio i j s :
  length (fs_pixel s) = 3%nat → 3 < nchannels →
  mandelbrot_pixel hypot log colorize w h nchannels ratio i j s = Fault (PixelIndex 3).
Proof.
  intros Hlen Hn. unfold mandelbrot_pixel.
  rewrite write_channels_fault; [done | by rewrite kernel_pixel_length | done].
Qed.

(** A task returns when the image has at most three channels or when the
    task has no pixel to walk through. *)
Lemma mandelbrot_completes image ratio t T :
  T ≠ 0 →
  channels image <= 3 ∨ width image ÷ T <= 0 ∨ height image <= 0 →
  completes (mandelbrot hypot log colorize image ratio t T).
Proof.
  intros HT Hcase. unfold completes, mandelbrot. rewrite !int_div_ok by done. simpl.
  destruct Hcase as [Hch | [Hw | Hh]].
  - rewrite for_each_nested.
    destruct (for_each_completes (fun s => length (fs_pixel s) = 3%nat)
                (list_prod (task_columns (width image ÷ T) t) (range 0 (height image)))
                (fun p => mandelbrot_pixel hypot log colorize (width image) (height image)
                            (channels image) (ratio / 10)%float (fst p) (snd p))
                (FractalState image [0; 0; 0] 0)) as (s' & -> & _); [done | | simpl; eauto].
    intros p s _ Hs. by apply mandelbrot_pixel_ok.
  - rewrite task_columns_empty by done. simpl. eauto.
  - rewrite (range_empty 0) by done. rewrite for_each_nil_inner. simpl. eauto.
Qed.

(** X12: the fractal stage runs to its end. With a positive number of
    tasks, an image of at most three channels and a [colorize] that
    leaves the size of the pixel buffer alone, every task returns and so
    does the stage: no division by zero, no index outside the pixel
    buffer or the vector of counts. *)
Lemma fractal_stage_completes T ratio image :
  0 < T → channels image <= 3 →
  completes (fractal_stage hypot log colorize T ratio image).
Proof.
  intros HT Hch. unfold completes, fractal_stage.
  destruct (Z.ltb_spec T 0); [lia|].
  destruct (for_each_completes (fun s : Image * list Z => same_shape image (fst s))
              (range 0 T)
              (fun i (s : Image * list Z) =>
                 r <-- mandelbrot hypot log colorize (fst s) ratio i T ;;
                 Ok (fst r, <[Z.to_nat i := snd r]> (snd s)))
              (image, replicate (Z.to_nat T) 0)) as (r & -> & _).
  - apply same_shape_refl.
  - intros t [img locals] _ Hshape. simpl in *.
    destruct (mandelbrot_completes img ratio t T) as [[img' n] Hrun]; [lia | |].
    { left. destruct Hshape as (<- & _). done. }
    rewrite Hrun. simpl. eexists. split; [done|]. simpl.
    apply mandelbrot_count in Hrun as [_ Hshape']. by eapply same_shape_trans.
  - simpl. eauto.
Qed.

(** C10, as amended: the fractal task reads [pixel[ch]] for every
    [ch < image.channels] at each pixel it walks through, and the buffer
    has three entries; an index outside the buffer is used exactly when
    the image has more than three channels and the task has a pixel to
    walk through (a positive number [width / task_size] of columns and a
    positive height). With at most three channels no such index is ever
    used. *)
Theorem pixel_index_out_of_range (image : Image) (ratio : float) (t T : Z) :
  ¬ pixel_accesses_in_bounds (mandelbrot hypot log colorize image ratio t T)
    ↔ 3 < channels image ∧ T ≠ 0 ∧ 0 < width image ÷ T ∧ 0 < height image.
Proof.
  split.
  - intros Hfault.
    destruct (Z.eq_dec T 0) as [->|HT].
    { exfalso. apply Hfault. intros ch. unfold mandelbrot. by rewrite int_div_zero. }
    destruct (Z.le_gt_cases (channels image) 3) as [Hch|Hch];
      [|destruct (Z.le_gt_cases (width image ÷ T) 0) as [Hw|Hw];
        [|destruct (Z.le_gt_cases (height image) 0) as [Hh|Hh]; [|lia]]];
      exfalso; apply Hfault; intros ch;
      (destruct (mandelbrot_completes image ratio t T HT) as [r ->]; [tauto | discriminate]).
  - intros (Hch & HT & Hw & Hh) Hbounds. apply (Hbounds 3).
    unfold mandelbrot. rewrite !int_div_ok by done. simpl.
    unfold task_columns. rewrite range_cons by lia. rewrite (range_cons 0) by lia.
    simpl. rewrite mandelbrot_pixel_fault; [done | done | lia].
Qed.

End PixelBuffer.

(** C10 on a run: four channels, one task over a 2 by 2 image. *)
Lemma pixel_index_out_of_range_witness :
  ¬ pixel_accesses_in_bounds
      (mandelbrot hypot_sqrt log_any colorize_keep (new_image 4 2 2) 1.5%float 0 1)
    ↔ 3 < channels (new_image 4 2 2) ∧ 1 ≠ 0 ∧ 0 < width (new_image 4 2 2) ÷ 1
        ∧ 0 < height (new_image 4 2 2).
Proof.
  apply (pixel_index_out_of_range hypot_sqrt log_any colorize_keep). reflexivity.
Defined.

(** C10, the claim as stated fails: a 4-channel image 100 wide handed to
    512 tasks gives each task [100 / 512 = 0] columns; no pixel is walked
    through and no index is used, in bounds or not, although the image
    has more than three channels. *)
Lemma pixel_bounds_not_only_three_channels :
  ¬ (pixel_accesses_in_bounds
       (mandelbrot hypot_sqrt log_any colorize_keep (new_image 4 100 100) 1.5%float 0 512)
     ↔ channels (new_image 4 100 100) <= 3).
Proof.
  intros [Hdir _].
  assert (Hin : pixel_accesses_in_bounds
            (mandelbrot hypot_sqrt log_any colorize_keep (new_image 4 100 100) 1.5%float 0 512))
    by (intros ch; vm_compute; discriminate).
  specialize (Hdir Hin). simpl in Hdir. lia.
Qed.

(* ================================================================== *)
(** * The convolution kernel                                           *)
(* ================================================================== *)

Lemma outside_spec (w h cx cy : Z) :
  outside w h cx cy = true ↔ ¬ (0 <= cx < w ∧ 0 <= cy < h).
Proof.
  unfold outside. rewrite !orb_true_iff, !Z.ltb_lt. lia.
Qed.

Lemma add_neighbor_outside kernel src w h displ ch i j k l val :
  outside w h (j + l) (i + k) = true →
  add_neighbor kernel src w h displ ch i j k l val = Ok val.
Proof. intros H. unfold add_neighbor. by rewrite H. Qed.

Lemma add_neighbor_inside kernel src w h displ ch i j k l val :
  outside w h (j + l) (i + k) = false →
  add_neighbor kernel src w h displ ch i j k l val
    = add_term kernel src displ ch i j k l val.
Proof. intros H. unfold add_neighbor, add_term. by rewrite H. Qed.

(** C7: in the weighted sum of a pixel [(i, j)], a neighbour whose
    coordinate is not in [[0, width) x [0, height)] leaves the sum as it
    is: the sum is the sum of [weight * sample] over the neighbours
    inside the image alone, each sample read at the neighbour's own
    coordinate [(i + k, j + l)]. *)
Theorem outside_neighbors_add_nothing
    (kernel : list (list float)) (src : Image) (w h displ ch i j : Z) :
  (∀ cx cy, outside w h cx cy = true ↔ ¬ (0 <= cx < w ∧ 0 <= cy < h)) ∧
  (∀ k l val, outside w h (j + l) (i + k) = true →
     add_neighbor kernel src w h displ ch i j k l val = Ok val) ∧
  neighborhood_sum kernel src w h displ ch i j
    = for_each (inside_offsets w h displ i j)
        (fun p => add_term kernel src displ ch i j (fst p) (snd p)) 0%float.
Proof.
  split_and!.
  - apply outside_spec.
  - intros k l val. apply add_neighbor_outside.
  - unfold neighborhood_sum, inside_offsets. rewrite for_each_nested.
    rewrite (for_each_skip (fun p => negb (outside w h (j + snd p) (i + fst p)))).
    + apply for_each_ext. intros [k l] val Hin.
      apply list_elem_of_In, filter_In in Hin as [_ Hin]. simpl in *.
      apply add_neighbor_inside. by apply negb_true_iff.
    + intros [k l] val Hout. simpl in *.
      apply add_neighbor_outside. by apply negb_false_iff.
Qed.

(** C7 on the corner of a 4 by 4 image with a 3 by 3 kernel: of the nine
    neighbours of pixel (0, 0) the four inside the image are summed. *)
Example inside_offsets_corner :
  inside_offsets 4 4 1 0 0 = [(0, 0); (0, 1); (1, 0); (1, 1)].
Proof. reflexivity. Qed.

(** C7 on that corner: the neighbour at offset (-1, -1) leaves a sum of 7
    at 7, and the sum of the pixel has four terms. *)
Lemma outside_neighbors_add_nothing_witness :
  add_neighbor (box_kernel 3 3 1%float) (uniform_image 1 4 4 255) 4 4 1 0 0 0 (-1) (-1) 7%float
    = Ok 7%float ∧
  neighborhood_sum (box_kernel 3 3 1%float) (uniform_image 1 4 4 255) 4 4 1 0 0 0
    = for_each [(0, 0); (0, 1); (1, 0); (1, 1)]
        (fun p => add_term (box_kernel 3 3 1%float) (uniform_image 1 4 4 255) 1 0 0 0
                    (fst p) (snd p)) 0%float.
Proof.
  destruct (outside_neighbors_add_nothing
              (box_kernel 3 3 1%float) (uniform_image 1 4 4 255) 4 4 1 0 0 0)
    as (_ & Hout & Hsum).
  split; [by apply Hout | exact Hsum].
Defined.

(* ------------------------------------------------------------------ *)
(** ** The value stored (line 148)                                     *)

Lemma digits2_pos_bound (m : positive) : Z.pos m < 2 ^ Z.pos (digits2_pos m).
Proof.
  induction m as [m IH | m IH |]; simpl digits2_pos.
  - rewrite Pos2Z.inj_succ, Z.pow_succ_r by lia. lia.
  - rewrite Pos2Z.inj_succ, Z.pow_succ_r by lia. lia.
  - reflexivity.
Qed.

(** The mantissa of a binary64 number has at most 53 bits. *)
Lemma valid_mantissa_bound s m e :
  SpecFloat.valid_binary prec emax (S754_finite s m e) = true → Z.pos m < 2 ^ 53.
Proof.
  simpl. unfold bounded, canonical_mantissa, fexp. intros H.
  apply andb_true_iff in H as [H _]. apply Z.eqb_eq in H.
  pose proof (digits2_pos_bound m) as Hm.
  assert (Z.pos (digits2_pos m) <= 53) by (unfold prec in H; lia).
  eapply Z.lt_le_trans; [exact Hm|]. apply Z.pow_le_mono_r; lia.
Qed.

(** A [double] that is neither above 255 nor below 0 is a NaN, for which
    the conversion to [int] is undefined, or converts to an [int] from 0
    to 255. *)
Lemma int_of_double_clamped (val : float) :
  (255 <? val)%float = false → (val <? 0)%float = false →
  (is_nan val = true ∧ int_of_double val = Fault CastUndefined)
  ∨ ∃ n, int_of_double val = Ok n ∧ 0 <= n <= 255.
Proof.
  unfold is_nan. rewrite FloatAxioms.eqb_spec, !FloatAxioms.ltb_spec. unfold int_of_double.
  pose proof (Prim2SF_valid val) as Hvalid.
  change (Prim2SF 255) with (S754_finite false 8972014882652160 (-45)).
  change (Prim2SF 0) with (S754_zero false).
  destruct (Prim2SF val) as [s | s | | s m e].
  - intros _ _. right. exists 0. split; [done | lia].
  - destruct s; discriminate.
  - intros _ _. by left.
  - intros Hhi Hlo. right. apply valid_mantissa_bound in Hvalid.
    destruct s; [discriminate Hlo|]. clear Hlo.
    unfold SFltb, SFcompare in Hhi.
    destruct (Z.compare_spec (-45) e) as [<- | Hlt | Hgt]; [| discriminate |].
    + assert (Z.pos m <= 8972014882652160).
      { change (Pos.compare_cont Eq 8972014882652160 m)
          with (8972014882652160 ?= m)%positive in Hhi.
        destruct (Z.le_gt_cases (Z.pos m) 8972014882652160) as [|Hgt]; [done|].
        assert (Hc : (8972014882652160 ?= m)%positive = Lt)
          by (apply Pos.compare_lt_iff; lia).
        rewrite Hc in Hhi. discriminate. }
      change (0 <=? -45) with false. cbv iota zeta.
      change (2 ^ (- -45)) with 35184372088832.
      assert (0 <= Z.pos m / 35184372088832 <= 255).
      { split; [apply Z.div_pos; lia|]. apply Z.div_le_upper_bound; lia. }
      exists (Z.pos m / 35184372088832). split; [|done].
      unfold INT_MIN, INT_MAX.
      destruct (Z.leb_spec (- 2 ^ 31) (Z.pos m / 35184372088832)); [|lia].
      destruct (Z.leb_spec (Z.pos m / 35184372088832) (2 ^ 31 - 1)); [done|lia].
    + clear Hhi. destruct (Z.leb_spec 0 e); [lia|]. cbv zeta.
      assert (0 <= Z.pos m / 2 ^ (- e) <= 255).
      { split; [apply Z.div_pos; [lia | apply Z.pow_pos_nonneg; lia]|].
        assert (2 ^ 46 <= 2 ^ (- e)) by (apply Z.pow_le_mono_r; lia).
        apply Z.div_le_upper_bound; [lia|]. nia. }
      exists (Z.pos m / 2 ^ (- e)). split; [|done].
      unfold INT_MIN, INT_MAX.
      destruct (Z.leb_spec (- 2 ^ 31) (Z.pos m / 2 ^ (- e))); [|lia].
      destruct (Z.leb_spec (Z.pos m / 2 ^ (- e)) (2 ^ 31 - 1)); [done|lia].
Qed.

(** What line 148 stores for an accumulated sum [val]. *)
Lemma stored_value_cases (val : float) (n : Z) :
  stored_value val = Ok n →
  0 <= n <= 255 ∧
  ((255 <? val)%float = true ∧ n = 255
   ∨ (255 <? val)%float = false ∧ (val <? 0)%float = true ∧ n = 0
   ∨ (255 <? val)%float = false ∧ (val <? 0)%float = false ∧ int_of_double val = Ok n).
Proof.
  unfold stored_value, clamp.
  destruct (255 <? val)%float eqn:Hhi.
  { change (int_of_double 255) with (Ok 255). intros [= <-]. split; [lia | by left]. }
  destruct (val <? 0)%float eqn:Hlo.
  { change (int_of_double 0) with (Ok 0). intros [= <-]. split; [lia | right; by left]. }
  intros Hn. destruct (int_of_double_clamped val Hhi Hlo) as [[_ Hnan] | (m & Hm & Hrange)].
  - congruence.
  - assert (m = n) as -> by congruence. split; [done | right; by right].
Qed.

Example stored_value_examples :
  map stored_value [254.9%float; 255.5%float; 300%float; (-3.7)%float; (-0.0)%float;
                    0.99%float; 113.33333333333333%float; infinity; neg_infinity; nan]
    = [Ok 254; Ok 255; Ok 255; Ok 0; Ok 0; Ok 0; Ok 113; Ok 255; Ok 0; Fault CastUndefined].
Proof. vm_compute. reflexivity. Qed.

Example int_of_double_examples :
  map int_of_double [2.5%float; (-2.5)%float; 2147483647.9%float; 2147483648%float;
                     (-2147483648.5)%float; (-2147483649)%float]
    = [Ok 2; Ok (-2); Ok 2147483647; Fault CastUndefined;
       Ok (-2147483648); Fault CastUndefined].
Proof. vm_compute. reflexivity. Qed.

Lemma stored_value_completes (val : float) :
  is_nan val = false → completes (stored_value val).
Proof.
  intros Hnan. unfold completes, stored_value, clamp.
  destruct (255 <? val)%float eqn:Hhi; [by exists 255|].
  destruct (val <? 0)%float eqn:Hlo; [by exists 0|].
  destruct (int_of_double_clamped val Hhi Hlo) as [[Hnan' _] | (m & Hm & _)].
  - congruence.
  - by exists m.
Qed.

(* ================================================================== *)
(** * One convolution task                                             *)
(* ================================================================== *)

Lemma convolve_pixel_inv kernel src dst w h displ j ch i (σ σ' : heap) :
  convolve_pixel kernel src dst w h displ j ch i σ = Ok σ' →
  ∃ val n,
    neighborhood_sum kernel (σ !!! src) w h displ ch i j = Ok val ∧
    stored_value val = Ok n ∧
    σ' = <[dst := store_sample (σ !!! dst) ch i j n]> σ.
Proof.
  unfold convolve_pixel. intros Hrun.
  apply exec_bind_ok in Hrun as (val & Hval & Hrun).
  apply exec_bind_ok in Hrun as (n & Hn & [= <-]).
  by exists val, n.
Qed.

Section ConvolutionTaskFacts.

Variable get_2d_kernel : Z -> Z -> float -> list (list float).

(** A property of the store that every pixel written by the task keeps,
    holds when the task returns. *)
Lemma helper_invariant (I : heap -> Prop) src dst kernel_width sigma nsteps t T
    (σ σ' : heap) :
  I σ →
  (∀ j ch i σ1 σ2,
     j ∈ task_columns (width (σ !!! src) ÷ T) t → I σ1 →
     convolve_pixel (get_2d_kernel kernel_width kernel_width sigma) src dst
       (width (σ !!! src)) (height (σ !!! src))
       (Z.of_nat (length (get_2d_kernel kernel_width kernel_width sigma)) ÷ 2)
       j ch i σ1 = Ok σ2 →
     I σ2) →
  convolution_2d_helper get_2d_kernel src dst kernel_width sigma nsteps t T σ = Ok σ' →
  I σ'.
Proof.
  intros Hσ Hstep. unfold convolution_2d_helper, int_div.
  destruct (Z.eqb_spec T 0) as [->|HT]; [discriminate|]. simpl.
  apply for_each_invariant; [done|]. intros j σ1 σ2 Hj H1.
  apply for_each_invariant; [done|]. intros ch σ3 σ4 _ H3.
  apply for_each_invariant; [done|]. intros i σ5 σ6 _ H5. by apply Hstep.
Qed.

(** C9, as amended: a task that returns has changed nothing but the
    destination image, and of the destination only samples in its own
    columns [t * (width / T), (t + 1) * (width / T)); the destination
    keeps its dimensions, and the source is as before when it is another
    object than the destination. *)
Theorem helper_writes_own_columns src dst kernel_width sigma nsteps t T (σ σ' : heap) :
  convolution_2d_helper get_2d_kernel src dst kernel_width sigma nsteps t T σ = Ok σ' →
  (∀ ch row col,
     ¬ (t * (width (σ !!! src) ÷ T) <= col < (t + 1) * (width (σ !!! src) ÷ T)) →
     data (σ' !!! dst) !! (ch, row, col) = data (σ !!! dst) !! (ch, row, col)) ∧
  same_shape (σ !!! dst) (σ' !!! dst) ∧
  (∀ l, l ≠ dst → σ' !! l = σ !! l) ∧
  (src ≠ dst →
   leaves_unchanged src σ
     (convolution_2d_helper get_2d_kernel src dst kernel_width sigma nsteps t T σ)).
Proof.
  intros Hrun.
  cut ((∀ ch row col,
          ¬ (t * (width (σ !!! src) ÷ T) <= col < (t + 1) * (width (σ !!! src) ÷ T)) →
          data (σ' !!! dst) !! (ch, row, col) = data (σ !!! dst) !! (ch, row, col)) ∧
       same_shape (σ !!! dst) (σ' !!! dst) ∧
       (∀ l, l ≠ dst → σ' !! l = σ !! l)).
  { intros (Hdata & Hshape & Hother). split_and!; [done..|].
    intros Hne σ'' Hrun'. assert (σ'' = σ') as -> by congruence.
    unfold lookup_total, map_lookup_total. by rewrite Hother. }
  revert Hrun.
  apply (helper_invariant (fun σ1 : heap =>
    (∀ ch row col,
       ¬ (t * (width (σ !!! src) ÷ T) <= col < (t + 1) * (width (σ !!! src) ÷ T)) →
       data (σ1 !!! dst) !! (ch, row, col) = data (σ !!! dst) !! (ch, row, col)) ∧
    same_shape (σ !!! dst) (σ1 !!! dst) ∧
    (∀ l, l ≠ dst → σ1 !! l = σ !! l))).
  - split_and!; [done | apply same_shape_refl | done].
  - intros j ch i σ1 σ2 Hj (Hdata & Hshape & Hother) Hpixel.
    apply convolve_pixel_inv in Hpixel as (val & n & _ & _ & ->).
    apply elem_of_task_columns in Hj.
    split_and!.
    + intros ch' row col Hcol. rewrite lookup_total_insert_eq. simpl.
      rewrite lookup_insert_ne by (intros [= _ _ ->]; lia). by apply Hdata.
    + rewrite lookup_total_insert_eq.
      eapply same_shape_trans; [exact Hshape | apply same_shape_store].
    + intros l Hl. rewrite lookup_insert_ne by done. by apply Hother.
Qed.

(** What a task leaves in the destination: every sample is the one that
    was there or a value from 0 to 255. *)
Lemma helper_stores_clamped src dst kernel_width sigma nsteps t T (σ σ' : heap) :
  convolution_2d_helper get_2d_kernel src dst kernel_width sigma nsteps t T σ = Ok σ' →
  ∀ key,
    data (σ' !!! dst) !! key = data (σ !!! dst) !! key
    ∨ ∃ n, data (σ' !!! dst) !! key = Some n ∧ 0 <= n <= 255.
Proof.
  apply (helper_invariant (fun σ1 : heap =>
    ∀ key,
      data (σ1 !!! dst) !! key = data (σ !!! dst) !! key
      ∨ ∃ n, data (σ1 !!! dst) !! key = Some n ∧ 0 <= n <= 255)).
  - intros key. by left.
  - intros j ch i σ1 σ2 _ Hinv Hpixel key.
    apply convolve_pixel_inv in Hpixel as (val & n & _ & Hn & ->).
    apply stored_value_cases in Hn as [Hn _].
    rewrite lookup_total_insert_eq. simpl.
    destruct (decide (key = (ch, i, j))) as [->|Hkey].
    + right. exists n. by rewrite lookup_insert_eq.
    + rewrite lookup_insert_ne by done. apply Hinv.
Qed.

(** The same for the whole stage, where the two images are exchanged
    between the passes. *)
Lemma convolution_2d_stores_clamped src dst kernel_width sigma nsteps (σ σ' : heap) :
  convolution_2d get_2d_kernel src dst kernel_width sigma nsteps σ = Ok σ' →
  clamped_or_from σ src dst (σ' !!! src) ∧ clamped_or_from σ src dst (σ' !!! dst).
Proof.
  unfold convolution_2d.
  apply (for_each_invariant (fun σ1 : heap =>
    clamped_or_from σ src dst (σ1 !!! src) ∧ clamped_or_from σ src dst (σ1 !!! dst))).
  { split; intros key n Hn; tauto. }
  intros step σ1 σ3 _ Hinv Hstep.
  apply exec_bind_ok in Hstep as (σ2 & Hpass & [= <-]).
  assert (Hinv2 : clamped_or_from σ src dst (σ2 !!! src)
                  ∧ clamped_or_from σ src dst (σ2 !!! dst)).
  { revert Hpass. unfold convolution_pass.
    apply (for_each_invariant (fun σ1 : heap =>
      clamped_or_from σ src dst (σ1 !!! src) ∧ clamped_or_from σ src dst (σ1 !!! dst)));
      [done|].
    intros t τ1 τ2 _ Hτ1.
    apply (helper_invariant (fun σ1 : heap =>
      clamped_or_from σ src dst (σ1 !!! src) ∧ clamped_or_from σ src dst (σ1 !!! dst)));
      [done|].
    intros j ch i υ1 υ2 _ [Hsrc Hdst] Hpixel.
    apply convolve_pixel_inv in Hpixel as (val & n & _ & Hn & ->).
    apply stored_value_cases in Hn as [Hn _].
    assert (Hnew : clamped_or_from σ src dst (store_sample (υ1 !!! dst) ch i j n)).
    { intros key m. simpl. destruct (decide (key = (ch, i, j))) as [->|Hkey].
      - rewrite lookup_insert_eq. intros [= <-]. by left.
      - rewrite lookup_insert_ne by done. apply Hdst. }
    split; [|by rewrite lookup_total_insert_eq].
    destruct (decide (src = dst)) as [->|Hne].
    - by rewrite lookup_total_insert_eq.
    - by rewrite lookup_total_insert_ne. }
  destruct (step <? nsteps - 1); [|done].
  destruct Hinv2 as [Hsrc Hdst]. unfold swap_images. split.
  - destruct (decide (src = dst)) as [->|Hne].
    + by rewrite lookup_total_insert_eq.
    + by rewrite lookup_total_insert_ne, lookup_total_insert_eq.
  - by rewrite lookup_total_insert_eq.
Qed.

End ConvolutionTaskFacts.

(** The end-to-end scenario of the spec (3 by 3 kernel of weights 1/9,
    one task for the whole image): the centre keeps 255, an edge gets 170
    and a corner 113, the integer part of [255 * 4 / 9]. *)
Example helper_on_uniform_image :
  match convolution_2d_helper box_kernel 0 1 3 1%float 1 0 1 two_images with
  | Ok σ =>
      map (fun row => map (sample (σ !!! 1%nat) 0 row) [0; 1; 2; 3]) [0; 1; 2; 3]
        = [[113; 170; 170; 113]; [170; 255; 255; 170];
           [170; 255; 255; 170]; [113; 170; 170; 113]]
  | Fault _ => False
  end.
Proof. vm_compute. reflexivity. Qed.

(** C9 on a run: the second of two tasks on the 4 by 4 image, from
    object 0 to object 1. *)
Lemma helper_writes_own_columns_witness :
  ∃ σ',
    convolution_2d_helper box_kernel 0 1 3 1%float 1 1 2 two_images = Ok σ' ∧
    (∀ ch row col,
       ¬ (1 * (width (two_images !!! 0%nat) ÷ 2) <= col
            < (1 + 1) * (width (two_images !!! 0%nat) ÷ 2)) →
       data (σ' !!! 1%nat) !! (ch, row, col) = data (two_images !!! 1%nat) !! (ch, row, col)) ∧
    σ' !!! 0%nat = two_images !!! 0%nat.
Proof.
  destruct (convolution_2d_helper box_kernel 0 1 3 1%float 1 1 2 two_images)
    as [σ'|f] eqn:Hrun; [|vm_compute in Hrun; discriminate].
  exists σ'. split; [done|].
  destruct (helper_writes_own_columns box_kernel 0 1 3 1%float 1 1 2 two_images σ' Hrun)
    as (Hdata & _ & _ & Hsrc).
  split; [exact Hdata | by apply Hsrc].
Defined.

(** C9, the claim as stated fails: handed the same image as source and as
    destination, the task writes into its source. On the 4 by 4 image of
    255s the corner sample becomes 113. *)
Lemma helper_changes_aliased_source :
  ¬ leaves_unchanged 0 two_images
      (convolution_2d_helper box_kernel 0 0 3 1%float 1 0 1 two_images).
Proof.
  intros Hsame.
  destruct (convolution_2d_helper box_kernel 0 0 3 1%float 1 0 1 two_images)
    as [σ'|f] eqn:Hrun; [|vm_compute in Hrun; discriminate].
  specialize (Hsame σ' eq_refl).
  assert (Hcorner : sample (σ' !!! 0%nat) 0 0 0 = 113).
  { cut (Ok (sample (σ' !!! 0%nat) 0 0 0) = Ok (A:=Z) 113); [congruence|].
    change (Ok (sample (σ' !!! 0%nat) 0 0 0))
      with (σ'' <-- Ok σ' ;; Ok (sample (σ'' !!! 0%nat) 0 0 0)).
    rewrite <- Hrun. vm_compute. reflexivity. }
  rewrite Hsame in Hcorner. vm_compute in Hcorner. discriminate.
Qed.
(* ================================================================== *)
(** * The multi-pass driver                                            *)
(* ================================================================== *)

Lemma last_source_succ (m a b : nat) :
  last_source (S (S m)) a b = last_source (S m) b a.
Proof.
  unfold last_source. rewrite Nat.even_succ_succ, Nat.even_succ, <- Nat.negb_even.
  by destruct (Nat.even m).
Qed.

Lemma last_destination_succ (m a b : nat) :
  last_destination (S (S m)) a b = last_destination (S m) b a.
Proof.
  unfold last_destination. rewrite Nat.even_succ_succ, Nat.even_succ, <- Nat.negb_even.
  by destruct (Nat.even m).
Qed.

(** The pixel loop acts alike on two stores that hold the same source and
    the same destination, under whatever names. *)
Lemma convolve_pixel_sim kernel a b a' b' w h displ j ch i (σ τ : heap) :
  (a = b ↔ a' = b') →
  same_images a b a' b' σ τ →
  exec_rel (same_images a b a' b')
    (convolve_pixel kernel a b w h displ j ch i σ)
    (convolve_pixel kernel a' b' w h displ j ch i τ).
Proof.
  intros Halias [Ha Hb]. unfold convolve_pixel. rewrite Ha, Hb.
  destruct (neighborhood_sum kernel (τ !!! a') w h displ ch i j) as [val|f]; simpl; [|done].
  destruct (stored_value val) as [n|f]; simpl; [|done].
  split.
  - destruct (decide (a = b)) as [Hab|Hab].
    + assert (a' = b') as -> by tauto. subst a. by rewrite !lookup_total_insert_eq.
    + assert (a' ≠ b') by tauto. by rewrite !lookup_total_insert_ne.
  - by rewrite !lookup_total_insert_eq.
Qed.

(** Line 173 exchanges the contents of the two objects. *)
Lemma swap_images_sim a b a' b' (σ τ : heap) :
  same_images a b a' b' σ τ → same_images a b b' a' (swap_images a b σ) τ.
Proof.
  intros [Ha Hb]. unfold swap_images. split.
  - destruct (decide (a = b)) as [->|Hab].
    + rewrite lookup_total_insert_eq. congruence.
    + rewrite lookup_total_insert_ne, lookup_total_insert_eq by done. done.
  - by rewrite lookup_total_insert_eq.
Qed.

Section DriverFacts.

Variable get_2d_kernel : Z -> Z -> float -> list (list float).

Lemma helper_sim a b a' b' kernel_width sigma nsteps nsteps' t T (σ τ : heap) :
  (a = b ↔ a' = b') →
  same_images a b a' b' σ τ →
  exec_rel (same_images a b a' b')
    (convolution_2d_helper get_2d_kernel a b kernel_width sigma nsteps t T σ)
    (convolution_2d_helper get_2d_kernel a' b' kernel_width sigma nsteps' t T τ).
Proof.
  intros Halias Hsame. unfold convolution_2d_helper. rewrite (proj1 Hsame).
  destruct (int_div (width (τ !!! a')) T) as [w_size|f]; simpl; [|done].
  destruct (int_div (height (τ !!! a')) T) as [h_size|f]; simpl; [|done].
  apply for_each_sim; [done|]. intros j σ1 τ1 _ H1.
  apply for_each_sim; [done|]. intros ch σ2 τ2 _ H2.
  apply for_each_sim; [done|]. intros i σ3 τ3 _ H3.
  by apply convolve_pixel_sim.
Qed.

Lemma convolution_pass_sim a b a' b' kernel_width sigma nsteps nsteps' T (σ τ : heap) :
  (a = b ↔ a' = b') →
  same_images a b a' b' σ τ →
  exec_rel (same_images a b a' b')
    (convolution_pass get_2d_kernel a b kernel_width sigma nsteps T σ)
    (convolution_pass get_2d_kernel a' b' kernel_width sigma nsteps' T τ).
Proof.
  intros Halias Hsame. unfold convolution_pass.
  apply for_each_sim; [done|]. intros t σ1 τ1 _ H1. by apply helper_sim.
Qed.

(** With [nsteps = 1] the driver is one pass and no exchange. *)
Lemma convolution_2d_single a b kernel_width sigma (σ : heap) :
  convolution_2d get_2d_kernel a b kernel_width sigma 1 σ
    = convolution_pass get_2d_kernel a b kernel_width sigma 1 256 σ.
Proof.
  unfold convolution_2d. change (range 0 1) with [0]. rewrite for_each_singleton.
  change (0 <? 1 - 1) with false.
  by destruct (convolution_pass get_2d_kernel a b kernel_width sigma 1 256 σ).
Qed.

(** The driver's loop from step [first] on, with [S m] passes to go, next
    to [S m] alternating passes: the driver holds in its source and
    destination what the alternation holds in the buffers it read and
    wrote last. *)
Lemma driver_sim a b kernel_width sigma nsteps (m : nat) :
  ∀ first a' b' (σ τ : heap),
    first + Z.of_nat (S m) = nsteps →
    (a = b ↔ a' = b') →
    same_images a b a' b' σ τ →
    exec_rel (same_images a b (last_source (S m) a' b') (last_destination (S m) a' b'))
      (for_each (seqZ first (Z.of_nat (S m)))
         (fun step σ =>
            σ <-- convolution_pass get_2d_kernel a b kernel_width sigma nsteps 256 σ ;;
            Ok (if step <? nsteps - 1 then swap_images a b σ else σ))
         σ)
      (alternating_passes get_2d_kernel (S m) a' b' kernel_width sigma τ).
Proof.
  induction m as [|m IH]; intros first a' b' σ τ Hfirst Halias Hsame.
  - change (seqZ first (Z.of_nat 1)) with [first]. rewrite for_each_singleton.
    cbn [alternating_passes]. rewrite convolution_2d_single.
    apply (exec_rel_bind (same_images a b a' b')); [by apply convolution_pass_sim|].
    intros σ1 τ1 H1. destruct (Z.ltb_spec first (nsteps - 1)); [lia|]. exact H1.
  - rewrite seqZ_cons by lia.
    replace (Z.pred (Z.of_nat (S (S m)))) with (Z.of_nat (S m)) by lia.
    cbn [for_each]. rewrite last_source_succ, last_destination_succ.
    change (alternating_passes get_2d_kernel (S (S m)) a' b' kernel_width sigma τ)
      with (τ1 <-- convolution_2d get_2d_kernel a' b' kernel_width sigma 1 τ ;;
            alternating_passes get_2d_kernel (S m) b' a' kernel_width sigma τ1).
    rewrite convolution_2d_single.
    apply (exec_rel_bind (same_images a b b' a')).
    + apply (exec_rel_ok_l (same_images a b a' b')); [by apply convolution_pass_sim|].
      intros σ1 τ1 H1. destruct (Z.ltb_spec first (nsteps - 1)); [|lia].
      by apply swap_images_sim.
    + intros σ1 τ1 H1. apply IH; [lia | | done].
      split; intros H; [symmetry; by apply Halias | apply Halias; by symmetry].
Qed.

(** C4: for [nsteps >= 1], the driver ends as [nsteps] single passes with
    the two buffers changing roles from pass to pass: both runs return or
    both stop on the same fault, and when they return the driver's
    destination holds what the alternation holds in the buffer its last
    pass wrote, the driver's source what it holds in the buffer its last
    pass read. *)
Theorem multi_pass_alternates (src dst : nat) (kernel_width : Z) (sigma : float)
    (nsteps : Z) (σ : heap) :
  1 <= nsteps →
  exec_rel
    (same_images src dst
       (last_source (Z.to_nat nsteps) src dst) (last_destination (Z.to_nat nsteps) src dst))
    (convolution_2d get_2d_kernel src dst kernel_width sigma nsteps σ)
    (alternating_passes get_2d_kernel (Z.to_nat nsteps) src dst kernel_width sigma σ).
Proof.
  intros Hn. unfold convolution_2d, range. rewrite Z.sub_0_r.
  destruct (Z.to_nat nsteps) as [|m] eqn:Hm; [lia|].
  replace nsteps with (Z.of_nat (S m)) at 1 by lia.
  apply driver_sim; [lia | done | done].
Qed.

End DriverFacts.

(** C4 on a run of three passes. *)
Lemma multi_pass_alternates_witness :
  exec_rel
    (same_images 0 1 (last_source (Z.to_nat 3) 0 1) (last_destination (Z.to_nat 3) 0 1))
    (convolution_2d box_kernel 0 1 3 1%float 3 row_images)
    (alternating_passes box_kernel (Z.to_nat 3) 0 1 3 1%float row_images).
Proof. apply (multi_pass_alternates box_kernel 0 1 3 1%float 3 row_images). lia. Defined.

(** Two passes over the row of 200s. The driver leaves the result of the
    second pass in object 1 and that of the first in object 0; the
    alternation wrote object 1 first and object 0 last. *)
Example two_passes_on_row :
  match convolution_2d box_kernel 0 1 3 1%float 2 row_images,
        alternating_passes box_kernel 2 0 1 3 1%float row_images with
  | Ok σ1, Ok σ2 =>
      map (sample (σ1 !!! 1%nat) 0 0) [0; 1; 2; 128; 255] = [12; 19; 22; 22; 12] ∧
      map (sample (σ2 !!! 0%nat) 0 0) [0; 1; 2; 128; 255] = [12; 19; 22; 22; 12] ∧
      map (sample (σ1 !!! 0%nat) 0 0) [0; 1; 2; 128; 255] = [44; 66; 66; 66; 44] ∧
      map (sample (σ2 !!! 1%nat) 0 0) [0; 1; 2; 128; 255] = [44; 66; 66; 66; 44]
  | _, _ => False
  end.
Proof. vm_compute. repeat split; reflexivity. Qed.

(* ================================================================== *)
(** * Inputs outside the preconditions                                 *)
(* ================================================================== *)

Section Preconditions.

Variable hypot : float -> float -> float.
Variable log : float -> float.
Variable colorize : list Z -> float -> Z -> list gradient -> list Z.
Variable get_2d_kernel : Z -> Z -> float -> list (list float).

(** A fractal task with no pixel to walk through returns a count of 0 and
    the image as it was. *)
Lemma mandelbrot_no_pixel image ratio t T :
  T ≠ 0 → width image ÷ T <= 0 ∨ height image <= 0 →
  mandelbrot hypot log colorize image ratio t T = Ok (image, 0).
Proof.
  intros HT Hcase. unfold mandelbrot. rewrite !int_div_ok by done. simpl.
  destruct Hcase as [Hw | Hh].
  - by rewrite task_columns_empty.
  - rewrite (range_empty 0) by done. by rewrite for_each_nil_inner.
Qed.

(** A convolution task with no pixel to walk through returns the store
    as it was. *)
Lemma helper_no_pixel src dst kernel_width sigma nsteps t T (σ : heap) :
  T ≠ 0 → width (σ !!! src) ÷ T <= 0 ∨ height (σ !!! src) <= 0 →
  convolution_2d_helper get_2d_kernel src dst kernel_width sigma nsteps t T σ = Ok σ.
Proof.
  intros HT Hcase. unfold convolution_2d_helper. rewrite !int_div_ok by done. simpl.
  destruct Hcase as [Hw | Hh].
  - by rewrite task_columns_empty.
  - rewrite (range_empty 0 (height _)) by done.
    apply for_each_noop. intros j _. apply for_each_nil_inner.
Qed.

(** C5, as amended: the stages examine none of their preconditions. With
    [nsteps <= 0] the convolution stage returns at once, no task
    dispatched and the store as it was; on an image without a column for
    each task or without a row, every task of a pass and every fractal
    task returns having written nothing, the fractal task with a count
    of 0; with a task count of 0 a fractal task divides by zero. *)
Theorem stages_check_nothing :
  (∀ src dst kernel_width sigma nsteps (σ : heap),
     nsteps <= 0 →
     convolution_2d get_2d_kernel src dst kernel_width sigma nsteps σ = Ok σ) ∧
  (∀ src dst kernel_width sigma nsteps (σ : heap),
     width (σ !!! src) ÷ 256 <= 0 ∨ height (σ !!! src) <= 0 →
     convolution_pass get_2d_kernel src dst kernel_width sigma nsteps 256 σ = Ok σ) ∧
  (∀ image ratio t T,
     T ≠ 0 → width image ÷ T <= 0 ∨ height image <= 0 →
     mandelbrot hypot log colorize image ratio t T = Ok (image, 0)) ∧
  (∀ image ratio t,
     mandelbrot hypot log colorize image ratio t 0 = Fault DivisionByZero).
Proof.
  split_and!.
  - intros src dst kernel_width sigma nsteps σ Hn. unfold convolution_2d.
    by rewrite range_empty by lia.
  - intros src dst kernel_width sigma nsteps σ Hcase. unfold convolution_pass.
    apply for_each_noop. intros t _. by apply helper_no_pixel.
  - apply mandelbrot_no_pixel.
  - intros image ratio t. unfold mandelbrot. by rewrite int_div_zero.
Qed.

End Preconditions.

(** C5 on runs: no step, and an image too narrow for 256 tasks. *)
Lemma stages_check_nothing_witness :
  convolution_2d box_kernel 0 1 3 1%float 0 two_images = Ok two_images ∧
  convolution_pass box_kernel 0 1 3 1%float 1 256 two_images = Ok two_images ∧
  mandelbrot hypot_sqrt log_any colorize_keep (new_image 3 0 0) 1.5%float 0 512
    = Ok (new_image 3 0 0, 0).
Proof.
  destruct (stages_check_nothing hypot_sqrt log_any colorize_keep box_kernel)
    as (Hsteps & Hpass & Htask & _).
  split_and!.
  - apply Hsteps. lia.
  - apply Hpass. left. vm_compute. discriminate.
  - apply Htask; [lia|]. left. vm_compute. discriminate.
Defined.

(** C5, the claim as stated fails: a step count of 0 is not rejected, the
    convolution stage returns as from a run that went well. *)
Lemma zero_steps_not_rejected :
  ¬ rejects (convolution_2d box_kernel 0 1 3 1%float 0 two_images).
Proof. intros Hrej. apply Hrej. by exists two_images. Qed.

(* ================================================================== *)
(** * The order of the tasks                                           *)
(* ================================================================== *)

(** The tasks of a parallel region run in an order the scheduler picks.
    The model runs them in the order of their creation; this section
    shows that for the tasks of a convolution pass between two different
    images, and for the counts of the fractal stage, any other order ends
    in the same place. *)

Lemma commutes_for_each_r {A S} (f : S -> exec S) (g : A -> S -> exec S) (l : list A) :
  (∀ y, y ∈ l → commutes f (g y)) → commutes f (for_each l g).
Proof.
  induction l as [|y l IH]; intros Hc s s' Hrun.
  - apply exec_bind_ok in Hrun as (s1 & Hf & [= <-]). by simpl.
  - cbn [for_each] in *.
    apply exec_bind_ok in Hrun as (s1 & Hf & Hrun).
    apply exec_bind_ok in Hrun as (s2 & Hg & Hrun).
    assert (Hswap : (t <-- g y s ;; f t) = Ok s2).
    { apply (Hc y ltac:(left)). by rewrite Hf. }
    apply exec_bind_ok in Hswap as (t & Hgt & Hft). rewrite Hgt. simpl.
    apply IH; [intros z Hz; apply Hc; by right|]. by rewrite Hft.
Qed.

Lemma commutes_for_each_l {A S} (f : A -> S -> exec S) (g : S -> exec S) (l : list A) :
  (∀ x, x ∈ l → commutes (f x) g) → commutes (for_each l f) g.
Proof.
  induction l as [|x l IH]; intros Hc s s' Hrun.
  - simpl in *. by destruct (g s).
  - cbn [for_each] in *.
    apply exec_bind_ok in Hrun as (s1 & Hrun & Hg).
    apply exec_bind_ok in Hrun as (t & Hf & Hrun).
    assert (Hrest : (u <-- g t ;; for_each l f u) = Ok s').
    { apply IH; [intros z Hz; apply Hc; by right|]. by rewrite Hrun. }
    apply exec_bind_ok in Hrest as (u & Hgu & Hrest).
    assert (Hswap : (v <-- g s ;; f x v) = Ok u).
    { apply (Hc x ltac:(left)). by rewrite Hf. }
    apply exec_bind_ok in Hswap as (v & Hgv & Hfv). rewrite Hgv. simpl.
    by rewrite Hfv.
Qed.

(** A loop whose turns commute two by two can take its indices in any
    order. *)
Lemma for_each_permutation {A S} (body : A -> S -> exec S) (l l' : list A) :
  (∀ x y, x ≠ y → commutes (body x) (body y)) →
  Permutation l l' → NoDup l →
  ∀ s s', for_each l body s = Ok s' → for_each l' body s = Ok s'.
Proof.
  intros Hc Hperm. induction Hperm as [|x l l' Hperm IH|x y l|l l' l'' H1 IH1 H2 IH2];
    intros Hnodup s s' Hrun.
  - done.
  - cbn [for_each] in *. apply exec_bind_ok in Hrun as (s1 & -> & Hrun). simpl.
    apply NoDup_cons in Hnodup as [_ Hnodup]. by apply IH.
  - cbn [for_each] in *.
    apply NoDup_cons in Hnodup as [Hy _]. rewrite not_elem_of_cons in Hy.
    apply exec_bind_ok in Hrun as (s1 & Hy1 & Hrun).
    apply exec_bind_ok in Hrun as (s2 & Hx2 & Hrun).
    assert (Hswap : (t <-- body x s ;; body y t) = Ok s2).
    { apply (Hc y x); [tauto|]. by rewrite Hy1. }
    apply exec_bind_ok in Hswap as (t & Hxt & Hyt). rewrite Hxt. simpl. by rewrite Hyt.
  - apply IH2; [by rewrite <- H1|]. by apply IH1.
Qed.

Lemma task_columns_disjoint (w_size t t' j : Z) :
  t ≠ t' → j ∈ task_columns w_size t → j ∉ task_columns w_size t'.
Proof.
  intros Hne. rewrite !elem_of_task_columns. intros Hj Hj'.
  assert (t < t' ∨ t' < t) as [Hlt|Hlt] by lia; nia.
Qed.

(** Two pixels of a pass between different images can be computed in
    either order: each reads the source, neither writes it, and they
    write different samples. *)
Lemma convolve_pixel_commutes kernel src dst w h displ j ch i j' ch' i' :
  src ≠ dst → (ch, i, j) ≠ (ch', i', j') →
  commutes (convolve_pixel kernel src dst w h displ j ch i)
           (convolve_pixel kernel src dst w h displ j' ch' i').
Proof.
  intros Hne Hkey σ σ' Hrun.
  apply exec_bind_ok in Hrun as (σ1 & Hp & Hq).
  apply convolve_pixel_inv in Hp as (val & n & Hval & Hn & ->).
  apply convolve_pixel_inv in Hq as (val' & n' & Hval' & Hn' & ->).
  rewrite lookup_total_insert_ne in Hval' by done.
  rewrite lookup_total_insert_eq, insert_insert_eq.
  assert (Hq : convolve_pixel kernel src dst w h displ j' ch' i' σ
               = Ok (<[dst := store_sample (σ !!! dst) ch' i' j' n']> σ)).
  { unfold convolve_pixel. rewrite Hval'. simpl. by rewrite Hn'. }
  rewrite Hq. simpl. unfold convolve_pixel.
  rewrite lookup_total_insert_ne, Hval by done. simpl. rewrite Hn. simpl.
  rewrite lookup_total_insert_eq, insert_insert_eq.
  do 2 f_equal. unfold store_sample. simpl. f_equal. by apply insert_insert_ne.
Qed.

(** The three loops of two different tasks, for the same dimensions. *)
Lemma task_loops_commute kernel src dst w h nchannels displ w_size t t' :
  src ≠ dst → t ≠ t' →
  commutes
    (for_each (task_columns w_size t)
       (fun j => for_each (range 0 nchannels)
          (fun ch => for_each (range 0 h)
             (fun i => convolve_pixel kernel src dst w h displ j ch i))))
    (for_each (task_columns w_size t')
       (fun j => for_each (range 0 nchannels)
          (fun ch => for_each (range 0 h)
             (fun i => convolve_pixel kernel src dst w h displ j ch i)))).
Proof.
  intros Hne Htt'.
  apply commutes_for_each_l. intros j Hj.
  apply commutes_for_each_l. intros ch _.
  apply commutes_for_each_l. intros i _.
  apply commutes_for_each_r. intros j' Hj'.
  apply commutes_for_each_r. intros ch' _.
  apply commutes_for_each_r. intros i' _.
  apply convolve_pixel_commutes; [done|]. intros [= -> -> ->].
  by eapply task_columns_disjoint.
Qed.

Section TaskOrder.

Variable get_2d_kernel : Z -> Z -> float -> list (list float).

(** A task's three loops for given dimensions of the source. *)
Lemma helper_loops src dst kernel_width sigma nsteps t T (σ : heap) :
  T ≠ 0 →
  convolution_2d_helper get_2d_kernel src dst kernel_width sigma nsteps t T σ
    = for_each (task_columns (width (σ !!! src) ÷ T) t)
        (fun j => for_each (range 0 (channels (σ !!! src)))
           (fun ch => for_each (range 0 (height (σ !!! src)))
              (fun i => convolve_pixel (get_2d_kernel kernel_width kernel_width sigma)
                          src dst (width (σ !!! src)) (height (σ !!! src))
                          (Z.of_nat (length (get_2d_kernel kernel_width kernel_width sigma)) ÷ 2)
                          j ch i)))
        σ.
Proof. intros HT. unfold convolution_2d_helper. by rewrite !int_div_ok. Qed.

Lemma helper_keeps_source src dst kernel_width sigma nsteps t T (σ σ' : heap) :
  src ≠ dst →
  convolution_2d_helper get_2d_kernel src dst kernel_width sigma nsteps t T σ = Ok σ' →
  σ' !!! src = σ !!! src.
Proof.
  intros Hne.
  apply (helper_invariant get_2d_kernel (fun σ1 : heap => σ1 !!! src = σ !!! src)); [done|].
  intros j ch i σ1 σ2 _ H1 Hpixel.
  apply convolve_pixel_inv in Hpixel as (val & n & _ & _ & ->).
  by rewrite lookup_total_insert_ne.
Qed.

Lemma helper_task_size src dst kernel_width sigma nsteps t (σ : heap) :
  convolution_2d_helper get_2d_kernel src dst kernel_width sigma nsteps t 0 σ
    = Fault DivisionByZero.
Proof. unfold convolution_2d_helper. by rewrite int_div_zero. Qed.

(** Two different tasks of a pass between different images commute. *)
Lemma helper_commutes src dst kernel_width sigma nsteps t t' T :
  src ≠ dst → t ≠ t' →
  commutes (convolution_2d_helper get_2d_kernel src dst kernel_width sigma nsteps t T)
           (convolution_2d_helper get_2d_kernel src dst kernel_width sigma nsteps t' T).
Proof.
  intros Hne Htt' σ σ' Hrun.
  destruct (Z.eq_dec T 0) as [->|HT]; [by rewrite helper_task_size in Hrun|].
  apply exec_bind_ok in Hrun as (σ1 & Ht & Ht').
  pose proof (helper_keeps_source _ _ _ _ _ _ _ _ _ Hne Ht) as Hsrc.
  rewrite helper_loops in Ht, Ht' by done. rewrite Hsrc in Ht'.
  pose proof (task_loops_commute (get_2d_kernel kernel_width kernel_width sigma)
                src dst (width (σ !!! src)) (height (σ !!! src)) (channels (σ !!! src))
                (Z.of_nat (length (get_2d_kernel kernel_width kernel_width sigma)) ÷ 2)
                (width (σ !!! src) ÷ T) t t' Hne Htt' σ σ') as Hswap.
  rewrite Ht in Hswap. specialize (Hswap Ht').
  apply exec_bind_ok in Hswap as (σ2 & Hfirst & Hsecond).
  rewrite <- (helper_loops src dst kernel_width sigma nsteps t' T σ HT) in Hfirst.
  rewrite Hfirst. simpl.
  rewrite helper_loops, (helper_keeps_source _ _ _ _ _ _ _ _ _ Hne Hfirst) by done.
  exact Hsecond.
Qed.

(** X13: a pass does not depend on the order in which its tasks run. A
    pass between two different images that returns when its tasks run in
    the order of their creation returns the same store when they run in
    any other order. *)
Lemma convolution_pass_any_order src dst kernel_width sigma nsteps T (order : list Z)
    (σ σ' : heap) :
  src ≠ dst →
  Permutation (range 0 T) order →
  convolution_pass get_2d_kernel src dst kernel_width sigma nsteps T σ = Ok σ' →
  for_each order
    (fun i => convolution_2d_helper get_2d_kernel src dst kernel_width sigma nsteps i T)
    σ = Ok σ'.
Proof.
  intros Hne Hperm. unfold convolution_pass.
  apply for_each_permutation; [|done|apply NoDup_seqZ].
  intros t t' Htt'. by apply helper_commutes.
Qed.

End TaskOrder.

Section FractalTaskOrder.

Variable hypot : float -> float -> float.
Variable log : float -> float.
Variable colorize : list Z -> float -> Z -> list gradient -> list Z.

(** The dispatch loop of [main] over the tasks [order], in that order:
    the slot of every task that ran holds its count, whatever ran before
    it. *)
Lemma fractal_dispatch_any_order T ratio (order : list Z) :
  ∀ image (locals : list Z) r,
    (∀ t, t ∈ order → 0 <= t < Z.of_nat (length locals)) →
    for_each order
      (fun i (s : Image * list Z) =>
         r <-- mandelbrot hypot log colorize (fst s) ratio i T ;;
         Ok (fst r, <[Z.to_nat i := snd r]> (snd s)))
      (image, locals) = Ok r →
    same_shape image (fst r) ∧
    ∀ k : nat,
      snd r !! k = if decide (Z.of_nat k ∈ order)
                   then Some (task_count hypot log colorize image ratio (Z.of_nat k) T)
                   else locals !! k.
Proof.
  induction order as [|t order IH]; intros image locals r Hrange.
  - intros [= <-]. split; [apply same_shape_refl|]. intros k.
    destruct (decide (Z.of_nat k ∈ [])) as [Hin|_]; [by apply elem_of_nil in Hin | done].
  - cbn [for_each]. intros Hrun.
    apply exec_bind_ok in Hrun as ([img1 locals1] & Htask & Hrun).
    apply exec_bind_ok in Htask as ([img' n] & Htask & [= <- <-]). cbn [fst snd] in *.
    apply mandelbrot_count in Htask as [-> Hshape].
    apply IH in Hrun as [Hshape' Hslots].
    2:{ intros t' Ht'. rewrite length_insert. apply Hrange. by right. }
    split; [by eapply same_shape_trans|]. intros k. rewrite Hslots.
    rewrite (task_count_shape hypot log colorize image img') by done.
    pose proof (Hrange t ltac:(left)) as Ht.
    destruct (decide (Z.of_nat k ∈ order)) as [Hin|Hnin].
    + rewrite decide_True by (by right). done.
    + destruct (decide (Z.of_nat k = t)) as [<-|Hk].
      * rewrite decide_True by left. rewrite Nat2Z.id.
        apply list_lookup_insert_eq. lia.
      * rewrite decide_False by (rewrite not_elem_of_cons; done).
        apply list_lookup_insert_ne. lia.
Qed.

(** The slots, and with them the total, do not depend on the order in
    which the tasks of the fractal stage run. *)
Lemma fractal_counts_any_order T ratio image (order : list Z) r :
  0 <= T →
  Permutation (range 0 T) order →
  for_each order
    (fun i (s : Image * list Z) =>
       r <-- mandelbrot hypot log colorize (fst s) ratio i T ;;
       Ok (fst r, <[Z.to_nat i := snd r]> (snd s)))
    (image, replicate (Z.to_nat T) 0) = Ok r →
  snd r = map (fun t => task_count hypot log colorize image ratio t T) (range 0 T).
Proof.
  intros HT Hperm Hrun.
  assert (Hin : ∀ t, t ∈ order ↔ 0 <= t < T).
  { intros t. rewrite <- Hperm, elem_of_range. done. }
  apply fractal_dispatch_any_order in Hrun as [_ Hslots].
  2:{ intros t Ht. rewrite length_replicate. apply Hin in Ht. lia. }
  apply list_eq. intros k. rewrite Hslots. unfold range. rewrite Z.sub_0_r.
  destruct (decide (Z.of_nat k ∈ order)) as [Hk|Hk]; rewrite Hin in Hk.
  - rewrite list_lookup_fmap, lookup_seqZ_lt by lia. simpl. by rewrite Z.add_0_l.
  - rewrite lookup_ge_None_2 by (rewrite length_replicate; lia). symmetry.
    apply lookup_ge_None_2. rewrite length_map, length_seqZ. lia.
Qed.

End FractalTaskOrder.

(* ================================================================== *)
(** * More on loops                                                    *)
(* ================================================================== *)

(** What each turn establishes, and no later turn undoes, holds of every
    index when the loop ends. *)
Lemma for_each_each {A S} (I : S -> Prop) (Q : A -> S -> Prop) (l : list A)
    (body : A -> S -> exec S) (s s' : S) :
  I s →
  (∀ x s1 s2, x ∈ l → I s1 → body x s1 = Ok s2 → I s2 ∧ Q x s2) →
  (∀ x y s1 s2, x ∈ l → y ∈ l → I s1 → Q x s1 → body y s1 = Ok s2 → Q x s2) →
  for_each l body s = Ok s' →
  I s' ∧ ∀ x, x ∈ l → Q x s'.
Proof.
  revert I s. induction l as [|a l IH]; intros I s Hs Hstep Hkeep; simpl.
  - intros [= <-]. split; [done|]. intros x Hx. by apply elem_of_nil in Hx.
  - intros Hrun. apply exec_bind_ok in Hrun as (s1 & Ha & Hrun).
    destruct (Hstep a s s1) as [Hs1 Hqa]; [by left | done | done |].
    assert (Hrest : (I s' ∧ Q a s') ∧ ∀ x, x ∈ l → Q x s').
    { revert Hrun. apply (IH (fun t => I t ∧ Q a t) s1).
      - done.
      - intros x t1 t2 Hx [Ht1 Hq] Hb.
        destruct (Hstep x t1 t2) as [Ht2 Hqx]; [by right | done | done |].
        split; [split; [done|]|done].
        apply (Hkeep a x t1 t2); [by left | by right | done | done | done].
      - intros x y t1 t2 Hx Hy [Ht1 _] Hq Hb.
        apply (Hkeep x y t1 t2); [by right | by right | done | done | done]. }
    destruct Hrest as [[Hs' Hqa'] Hrest]. split; [done|].
    intros x [->|Hx]%elem_of_cons; [done | by apply Hrest].
Qed.

(** A loop that returns made every one of its turns return. *)
Lemma for_each_ok_each {A S} (l : list A) (body : A -> S -> exec S) (s s' : S) :
  for_each l body s = Ok s' → ∀ x, x ∈ l → ∃ s1 s2, body x s1 = Ok s2.
Proof.
  revert s. induction l as [|a l IH]; intros s; simpl.
  - intros _ x Hx. by apply elem_of_nil in Hx.
  - intros Hrun. apply exec_bind_ok in Hrun as (s1 & Ha & Hrun).
    intros x [->|Hx]%elem_of_cons; [by exists s, s1 | by apply (IH s1)].
Qed.

Lemma elem_of_list_prod {A B} (l1 : list A) (l2 : list B) (a : A) (b : B) :
  (a, b) ∈ list_prod l1 l2 ↔ a ∈ l1 ∧ b ∈ l2.
Proof. rewrite !list_elem_of_In. apply in_prod_iff. Qed.

Lemma range_snoc (lo hi : Z) : lo < hi → range lo hi = range lo (hi - 1) ++ [hi - 1].
Proof.
  intros H. unfold range.
  replace (hi - lo) with ((hi - 1 - lo) + 1) by lia.
  rewrite seqZ_app by lia. f_equal.
  rewrite seqZ_cons by lia. rewrite seqZ_nil by lia. f_equal. lia.
Qed.

Lemma for_each_snoc {A S} (l : list A) (x : A) (body : A -> S -> exec S) (s : S) :
  for_each (l ++ [x]) body s = (s' <-- for_each l body s ;; body x s').
Proof.
  rewrite for_each_app. destruct (for_each l body s); cbn [exec_bind]; [|done].
  apply for_each_singleton.
Qed.

(* ================================================================== *)
(** * What the fractal stage leaves in the image                       *)
(* ================================================================== *)

(** The columns of task [t], for [t] from 0 below [T], are the columns
    from 0 below [T * w_size]. *)
Lemma covered_columns (w_size T col : Z) :
  0 <= T →
  0 <= col < T * w_size ↔ ∃ t, 0 <= t < T ∧ col ∈ task_columns w_size t.
Proof.
  intros HT. split.
  - intros Hcol. exists (col / w_size).
    assert (Hq : 0 < w_size) by nia.
    rewrite elem_of_task_columns.
    pose proof (Z.div_mod col w_size ltac:(lia)) as Hdiv.
    pose proof (Z.mod_pos_bound col w_size Hq) as Hmod.
    split; [|nia]. split; [apply Z.div_pos; lia | apply Z.div_lt_upper_bound; lia].
  - intros (t & Ht & Hcol). apply elem_of_task_columns in Hcol. nia.
Qed.

Section FractalImage.

Variable hypot : float -> float -> float.
Variable log : float -> float.
Variable colorize : list Z -> float -> Z -> list gradient -> list Z.

(** Lines 85-86 store the first [nchannels] entries of the buffer at
    pixel [(i, j)] and nothing else. *)
Lemma write_channels_effect nchannels j i pixel image image' :
  write_channels nchannels j i pixel image = Ok image' →
  (∀ ch, 0 <= ch < nchannels →
     ∃ v, pixel !! Z.to_nat ch = Some v ∧ data image' !! (ch, j, i) = Some v) ∧
  (∀ ch row col, ¬ (0 <= ch < nchannels ∧ row = j ∧ col = i) →
     data image' !! (ch, row, col) = data image !! (ch, row, col)).
Proof.
  intros Hrun. unfold write_channels in Hrun.
  apply (for_each_each
           (fun img : Image => ∀ ch row col, ¬ (0 <= ch < nchannels ∧ row = j ∧ col = i) →
              data img !! (ch, row, col) = data image !! (ch, row, col))
           (fun ch (img : Image) =>
              ∃ v, pixel !! Z.to_nat ch = Some v ∧ data img !! (ch, j, i) = Some v))
    in Hrun.
  - destruct Hrun as [Hframe Hall]. split; [|done].
    intros ch Hch. apply Hall. apply elem_of_range. lia.
  - done.
  - intros ch img img' Hch%elem_of_range Himg Hstep.
    apply exec_bind_ok in Hstep as (v & Hv & [= <-]). split.
    + intros ch' row col Hout. simpl.
      rewrite lookup_insert_ne; [by apply Himg|].
      intros [= -> -> ->]. apply Hout. lia.
    + exists v. split; [|simpl; by rewrite lookup_insert_eq].
      unfold pixel_at in Hv. destruct (ch <? 0); [done|].
      destruct (pixel !! Z.to_nat ch); by inversion Hv.
  - intros ch ch' img img' _ _ _ (v & Hv & Hd) Hstep.
    apply exec_bind_ok in Hstep as (v' & Hv' & [= <-]).
    exists v. split; [done|]. simpl.
    destruct (decide (ch' = ch)) as [->|Hne].
    + rewrite lookup_insert_eq. unfold pixel_at in Hv'.
      destruct (ch <? 0); [done|]. rewrite Hv in Hv'. by inversion Hv'.
    + rewrite lookup_insert_ne; [done | congruence].
Qed.

(** One pixel of a task: its samples get the colour of its point, every
    other sample stays. *)
Lemma mandelbrot_pixel_effect w h nchannels ratio i j s s' :
  mandelbrot_pixel hypot log colorize w h nchannels ratio i j s = Ok s' →
  (∀ ch, 0 <= ch < nchannels →
     coloured hypot log colorize w h ratio (fs_image s') ch j i) ∧
  (∀ ch row col, ¬ (0 <= ch < nchannels ∧ row = j ∧ col = i) →
     data (fs_image s') !! (ch, row, col) = data (fs_image s) !! (ch, row, col)).
Proof.
  unfold mandelbrot_pixel. intros Hrun.
  apply exec_bind_ok in Hrun as (image1 & Hwrite & [= <-]). cbn [fs_image].
  apply write_channels_effect in Hwrite as [Hin Hout]. split; [|done].
  intros ch Hch. destruct (Hin ch Hch) as (v & Hv & Hd).
  by exists (fs_pixel s), v.
Qed.

(** One task: every sample of its columns gets the colour of its point,
    every other sample stays. *)
Lemma mandelbrot_effect image ratio t T image' n :
  mandelbrot hypot log colorize image ratio t T = Ok (image', n) →
  ∀ ch row col,
    (in_columns image (t * (width image ÷ T)) ((t + 1) * (width image ÷ T)) ch row col →
       coloured hypot log colorize (width image) (height image) (ratio / 10)%float
         image' ch row col) ∧
    (¬ in_columns image (t * (width image ÷ T)) ((t + 1) * (width image ÷ T)) ch row col →
       data image' !! (ch, row, col) = data image !! (ch, row, col)).
Proof.
  unfold mandelbrot, int_div. destruct (Z.eqb_spec T 0) as [->|HT]; [discriminate|].
  cbn [exec_bind]. rewrite for_each_nested. intros Hrun.
  apply exec_bind_ok in Hrun as (s & Hrun & [= <- <-]).
  set (q := width image ÷ T) in *.
  apply (for_each_each
           (fun s1 : fractal_state => ∀ ch row col,
              ¬ in_columns image (t * q) ((t + 1) * q) ch row col →
              data (fs_image s1) !! (ch, row, col) = data image !! (ch, row, col))
           (fun (p : Z * Z) (s1 : fractal_state) => ∀ ch, 0 <= ch < channels image →
              coloured hypot log colorize (width image) (height image) (ratio / 10)%float
                (fs_image s1) ch (snd p) (fst p)))
    in Hrun.
  - destruct Hrun as [Hframe Hall]. intros ch row col. split; [|apply Hframe].
    intros (Hch & Hrow & Hcol).
    apply (Hall (col, row)); [|done].
    apply elem_of_list_prod. split; [by apply elem_of_task_columns | by apply elem_of_range].
  - done.
  - intros [i j] s1 s2 [Hi%elem_of_task_columns Hj%elem_of_range]%elem_of_list_prod Hs1 Hstep.
    cbn [fst snd] in *. apply mandelbrot_pixel_effect in Hstep as [Hin Hout]. split; [|done].
    intros ch row col Hnot. rewrite Hout; [by apply Hs1|].
    intros (Hch & -> & ->). apply Hnot. done.
  - intros [i j] [i' j'] s1 s2 _ _ _ Hq Hstep. cbn [fst snd] in *.
    apply mandelbrot_pixel_effect in Hstep as [Hin Hout].
    intros ch Hch. destruct (decide (j = j' ∧ i = i')) as [[-> ->]|Hne].
    + by apply Hin.
    + destruct (Hq ch Hch) as (pixel & v & Hv & Hd). exists pixel, v. split; [done|].
      rewrite Hout; [done|]. intros (_ & -> & ->). by apply Hne.
Qed.

(** The dispatch loop of [main]: the tasks colour the columns from 0
    below [T * (width / T)], and only these. *)
Lemma fractal_dispatch_effect T ratio image locals r :
  0 <= T →
  for_each (range 0 T)
    (fun i (s : Image * list Z) =>
       r <-- mandelbrot hypot log colorize (fst s) ratio i T ;;
       Ok (fst r, <[Z.to_nat i := snd r]> (snd s)))
    (image, locals) = Ok r →
  same_shape image (fst r) ∧
  ∀ ch row col,
    (in_columns image 0 (T * (width image ÷ T)) ch row col →
       coloured hypot log colorize (width image) (height image) (ratio / 10)%float
         (fst r) ch row col) ∧
    (¬ in_columns image 0 (T * (width image ÷ T)) ch row col →
       data (fst r) !! (ch, row, col) = data image !! (ch, row, col)).
Proof.
  intros HT Hrun. set (q := width image ÷ T) in *.
  apply (for_each_each
           (fun s : Image * list Z =>
              same_shape image (fst s) ∧
              ∀ ch row col, ¬ in_columns image 0 (T * q) ch row col →
                data (fst s) !! (ch, row, col) = data image !! (ch, row, col))
           (fun t (s : Image * list Z) => ∀ ch row col,
              in_columns image (t * q) ((t + 1) * q) ch row col →
              coloured hypot log colorize (width image) (height image) (ratio / 10)%float
                (fst s) ch row col))
    in Hrun.
  - destruct Hrun as [[Hshape Hframe] Hall]. split; [done|].
    intros ch row col. split; [|apply Hframe].
    intros (Hch & Hrow & Hcol).
    apply covered_columns in Hcol as (t & Ht & Hcol%elem_of_task_columns); [|done].
    apply (Hall t); [by apply elem_of_range | done].
  - split; [apply same_shape_refl | done].
  - intros t [img l] [img' l'] Ht%elem_of_range [Hshape Hframe] Hstep. cbn [fst snd] in *.
    apply exec_bind_ok in Hstep as ([img2 c] & Htask & [= <- <-]).
    pose proof (mandelbrot_effect _ _ _ _ _ _ Htask) as Heff.
    apply mandelbrot_count in Htask as [_ Hshape2].
    destruct Hshape as (Hc & Hh & Hw). unfold in_columns in *.
    rewrite <- Hc, <- Hh, <- Hw in Heff. fold q in Heff. split; [split|].
    + eapply same_shape_trans; [|exact Hshape2]. done.
    + intros ch row col Hnot. rewrite (proj2 (Heff ch row col)); [by apply Hframe|].
      intros (Hch & Hrow & Hcol). apply Hnot. split_and!; try done; nia.
    + intros ch row col Hin. by apply Heff.
  - intros t t' [img l] [img' l'] _ _ [Hshape _] Hq Hstep. cbn [fst snd] in *.
    apply exec_bind_ok in Hstep as ([img2 c] & Htask & [= <- <-]).
    pose proof (mandelbrot_effect _ _ _ _ _ _ Htask) as Heff.
    destruct Hshape as (Hc & Hh & Hw). unfold in_columns in *.
    rewrite <- Hc, <- Hh, <- Hw in Heff. fold q in Heff.
    intros ch row col Hin.
    destruct (decide (0 <= ch < channels image ∧ 0 <= row < height image
                      ∧ t' * q <= col < (t' + 1) * q)) as [Hin'|Hout].
    + by apply Heff.
    + destruct (Hq ch row col Hin) as (pixel & v & Hv & Hd). exists pixel, v.
      split; [done|]. by rewrite (proj2 (Heff ch row col)).
Qed.

(** X1: the fractal stage colours exactly the columns its tasks cover.
    With [T] tasks on an image [w] wide, every sample in the columns from
    0 below [T * (w / T)] holds its channel of the colour the kernel
    returned for the point of its pixel; every other sample, the
    [w mod T] rightmost columns among them, is as it was before the
    stage; the dimensions of the image stay. *)
Theorem fractal_stage_image T ratio image image' locals total :
  fractal_stage hypot log colorize T ratio image = Ok (image', locals, total) →
  same_shape image image' ∧
  ∀ ch row col,
    (in_columns image 0 (T * (width image ÷ T)) ch row col →
       coloured hypot log colorize (width image) (height image) (ratio / 10)%float
         image' ch row col) ∧
    (¬ in_columns image 0 (T * (width image ÷ T)) ch row col →
       data image' !! (ch, row, col) = data image !! (ch, row, col)).
Proof.
  unfold fractal_stage. destruct (Z.ltb_spec T 0) as [|HT]; [discriminate|].
  intros Hrun. apply exec_bind_ok in Hrun as (r & Hrun & [= <- <- <-]).
  by apply fractal_dispatch_effect in Hrun.
Qed.

(** A task counts no more pixels than its slice has. *)
Lemma task_count_bound image ratio t T :
  0 <= task_count hypot log colorize image ratio t T
    <= Z.max 0 (width image ÷ T) * Z.max 0 (height image).
Proof.
  unfold task_count, task_pixels. split; [lia|].
  etrans; [apply Nat2Z.inj_le, filter_length_le|].
  rewrite length_prod. unfold task_columns, range. rewrite !length_seqZ. nia.
Qed.

Lemma sum_bound (f : Z -> Z) (b : Z) (l : list Z) :
  (∀ t, 0 <= f t <= b) →
  0 <= foldr Z.add 0 (map f l) <= Z.of_nat (length l) * b.
Proof.
  intros Hf. induction l as [|t l IH]; simpl; [lia|]. specialize (Hf t). nia.
Qed.

(** X2: the counts stay within the pixels there are. On an image [w]
    wide and [h] high, each of the [T] slots of [pixels_inside_local]
    ends between 0 and [(w / T) * h], the size of a slice, and the total
    between 0 and [w * h]. *)
Theorem fractal_counts_bounded T ratio image image' locals total :
  0 <= width image → 0 <= height image →
  fractal_stage hypot log colorize T ratio image = Ok (image', locals, total) →
  Forall (fun n => 0 <= n <= (width image ÷ T) * height image) locals ∧
  0 <= total <= width image * height image.
Proof.
  intros Hw Hh Hrun.
  assert (HT : 0 <= T).
  { unfold fractal_stage in Hrun. destruct (Z.ltb_spec T 0); [discriminate | done]. }
  unfold fractal_stage in Hrun. destruct (T <? 0); [discriminate|].
  apply exec_bind_ok in Hrun as (r & Hrun & [= <- <- <-]).
  unfold range in Hrun. rewrite Z.sub_0_r in Hrun.
  rewrite <- (Z2Nat.id T) in Hrun at 1 by done.
  apply fractal_dispatch in Hrun as [_ Hlocals]; [|by rewrite length_replicate].
  rewrite drop_ge, app_nil_r in Hlocals by (rewrite ?length_replicate; lia).
  assert (Hq : 0 <= width image ÷ T).
  { destruct (Z.eq_dec T 0) as [->|HT0]; [by rewrite Z.quot_0_r_ext|].
    apply Z.quot_pos; lia. }
  assert (Hone : ∀ t, 0 <= task_count hypot log colorize image ratio t T
                        <= (width image ÷ T) * height image).
  { intros t. pose proof (task_count_bound image ratio t T). lia. }
  rewrite Hlocals. split.
  - apply Forall_forall. intros n (t & -> & _)%list_elem_of_fmap. apply Hone.
  - rewrite (fold_symmetric Z.add) by (intros; lia).
    pose proof (sum_bound _ _ (seqZ 0 (Z.of_nat (Z.to_nat T))) Hone) as Hsum.
    rewrite length_seqZ, Nat2Z.id in Hsum. rewrite Z2Nat.id in * by done.
    split; [lia|]. etrans; [apply Hsum|].
    destruct (Z.eq_dec T 0) as [->|HT0]; [rewrite Z.quot_0_r_ext by done; lia|].
    pose proof (Z.quot_div_nonneg (width image) T Hw ltac:(lia)) as Hdiv.
    pose proof (Z.mul_div_le (width image) T ltac:(lia)). rewrite Hdiv. nia.
Qed.

End FractalImage.

(** X1 on a run: two tasks on an image 5 wide cover the columns 0 to 3
    and leave column 4 alone. *)
Lemma fractal_stage_image_witness :
  ∃ image' locals total,
    fractal_stage hypot_sqrt log_any colorize_keep 2 1.5%float (new_image 3 2 5)
      = Ok (image', locals, total) ∧
    same_shape (new_image 3 2 5) image' ∧
    ∀ ch row col,
      (in_columns (new_image 3 2 5) 0 (2 * (width (new_image 3 2 5) ÷ 2)) ch row col →
         coloured hypot_sqrt log_any colorize_keep (width (new_image 3 2 5))
           (height (new_image 3 2 5)) (1.5 / 10)%float image' ch row col) ∧
      (¬ in_columns (new_image 3 2 5) 0 (2 * (width (new_image 3 2 5) ÷ 2)) ch row col →
         data image' !! (ch, row, col) = data (new_image 3 2 5) !! (ch, row, col)).
Proof.
  assert (Hret : returned (fractal_stage hypot_sqrt log_any colorize_keep 2 1.5%float (new_image 3 2 5))
                 = true) by (vm_compute; reflexivity).
  destruct (returned_completes _ Hret) as [[[image' locals] total] Hrun].
  exists image', locals, total. split; [exact Hrun|].
  exact (fractal_stage_image hypot_sqrt log_any colorize_keep _ _ _ _ _ _ Hrun).
Defined.

(** X2 on a run. *)
Lemma fractal_counts_bounded_witness :
  ∃ image' locals total,
    fractal_stage hypot_sqrt log_any colorize_keep 2 1.5%float (new_image 3 2 5)
      = Ok (image', locals, total) ∧
    Forall (fun n => 0 <= n <= (width (new_image 3 2 5) ÷ 2) * height (new_image 3 2 5))
      locals ∧
    0 <= total <= width (new_image 3 2 5) * height (new_image 3 2 5).
Proof.
  assert (Hret : returned (fractal_stage hypot_sqrt log_any colorize_keep 2 1.5%float (new_image 3 2 5))
                 = true) by (vm_compute; reflexivity).
  destruct (returned_completes _ Hret) as [[[image' locals] total] Hrun].
  exists image', locals, total. split; [exact Hrun|].
  apply (fractal_counts_bounded hypot_sqrt log_any colorize_keep 2 1.5%float
           (new_image 3 2 5) image' locals total); [done | done | exact Hrun].
Defined.

(* ================================================================== *)
(** * What a pass leaves in the destination                            *)
(* ================================================================== *)

Lemma filtered_sample_ok kernel (src : Image) ch row col val n :
  neighborhood_sum kernel src (width src) (height src)
    (Z.of_nat (length kernel) ÷ 2) ch row col = Ok val →
  stored_value val = Ok n →
  filtered_sample kernel src ch row col = Ok n.
Proof. unfold filtered_sample. intros -> Hn. exact Hn. Qed.

Lemma filtered_sample_clamped kernel (src : Image) ch row col n :
  filtered_sample kernel src ch row col = Ok n → 0 <= n <= 255.
Proof.
  unfold filtered_sample. intros Hrun.
  apply exec_bind_ok in Hrun as (val & _ & Hn). by apply stored_value_cases in Hn as [? _].
Qed.

Lemma lookup_total_eq (σ σ' : heap) (l : nat) : σ' !! l = σ !! l → σ' !!! l = σ !!! l.
Proof. intros H. by rewrite !lookup_total_alt, H. Qed.

Section PassImage.

Variable get_2d_kernel : Z -> Z -> float -> list (list float).

(** One task between two different images: every sample of its columns
    gets the filtered value of the source, every other sample of the
    destination stays, and so does every other image. *)
Lemma helper_effect src dst kernel_width sigma nsteps t T (σ σ' : heap) :
  src ≠ dst →
  convolution_2d_helper get_2d_kernel src dst kernel_width sigma nsteps t T σ = Ok σ' →
  (∀ l, l ≠ dst → σ' !! l = σ !! l) ∧
  same_shape (σ !!! dst) (σ' !!! dst) ∧
  ∀ ch row col,
    (in_columns (σ !!! src) (t * (width (σ !!! src) ÷ T)) ((t + 1) * (width (σ !!! src) ÷ T))
       ch row col →
     ∃ n, filtered_sample (get_2d_kernel kernel_width kernel_width sigma) (σ !!! src)
            ch row col = Ok n
          ∧ data (σ' !!! dst) !! (ch, row, col) = Some n) ∧
    (¬ in_columns (σ !!! src) (t * (width (σ !!! src) ÷ T))
         ((t + 1) * (width (σ !!! src) ÷ T)) ch row col →
     data (σ' !!! dst) !! (ch, row, col) = data (σ !!! dst) !! (ch, row, col)).
Proof.
  intros Hne Hrun.
  destruct (Z.eq_dec T 0) as [->|HT]; [by rewrite helper_task_size in Hrun|].
  rewrite helper_loops in Hrun by done.
  set (kernel := get_2d_kernel kernel_width kernel_width sigma) in *.
  set (q := width (σ !!! src) ÷ T) in *.
  rewrite for_each_nested in Hrun.
  rewrite (for_each_nested _ _
             (fun (p : Z * Z) i =>
                convolve_pixel kernel src dst (width (σ !!! src)) (height (σ !!! src))
                  (Z.of_nat (length kernel) ÷ 2) (fst p) (snd p) i)) in Hrun.
  apply (for_each_each
           (fun σ1 : heap =>
              (∀ l, l ≠ dst → σ1 !! l = σ !! l) ∧
              same_shape (σ !!! dst) (σ1 !!! dst) ∧
              ∀ ch row col,
                ¬ in_columns (σ !!! src) (t * q) ((t + 1) * q) ch row col →
                data (σ1 !!! dst) !! (ch, row, col) = data (σ !!! dst) !! (ch, row, col))
           (fun (p : Z * Z * Z) (σ1 : heap) =>
              ∃ n, filtered_sample kernel (σ !!! src) (snd (fst p)) (snd p) (fst (fst p)) = Ok n
                   ∧ data (σ1 !!! dst) !! (snd (fst p), snd p, fst (fst p)) = Some n))
    in Hrun.
  - destruct Hrun as [(Hothers & Hshape & Hframe) Hall]. split_and!; [done | done |].
    intros ch row col. split; [|apply Hframe].
    intros (Hch & Hrow & Hcol). apply (Hall (col, ch, row)).
    rewrite !elem_of_list_prod, elem_of_task_columns, !elem_of_range. done.
  - split_and!; [done | apply same_shape_refl | done].
  - intros [[j ch] i] σ1 σ2 Hp (Hothers & Hshape & Hframe) Hstep.
    rewrite !elem_of_list_prod, elem_of_task_columns, !elem_of_range in Hp.
    cbn [fst snd] in *.
    apply convolve_pixel_inv in Hstep as (val & n & Hval & Hn & ->).
    rewrite (lookup_total_eq σ σ1 src) in Hval by (by apply Hothers).
    rewrite lookup_total_insert_eq. split; [split_and!|].
    + intros l Hl. rewrite lookup_insert_ne by done. by apply Hothers.
    + eapply same_shape_trans; [exact Hshape | apply same_shape_store].
    + intros ch' row col Hnot. cbn [store_sample data].
      rewrite lookup_insert_ne; [by apply Hframe|].
      intros [= -> -> ->]. apply Hnot. unfold in_columns. lia.
    + exists n. split; [by eapply filtered_sample_ok|].
      cbn [store_sample data]. by rewrite lookup_insert_eq.
  - intros [[j ch] i] [[j' ch'] i'] σ1 σ2 _ _ (Hothers & _) (n & Hn & Hd) Hstep.
    cbn [fst snd] in *.
    apply convolve_pixel_inv in Hstep as (val' & n' & Hval' & Hn' & ->).
    rewrite (lookup_total_eq σ σ1 src) in Hval' by (by apply Hothers).
    exists n. split; [done|]. rewrite lookup_total_insert_eq. cbn [store_sample data].
    destruct (decide ((ch', i', j') = (ch, i, j))) as [[= -> -> ->]|Hkey].
    + rewrite lookup_insert_eq.
      pose proof (filtered_sample_ok _ _ _ _ _ _ _ Hval' Hn') as Hn2.
      rewrite Hn in Hn2. by injection Hn2 as ->.
    + by rewrite lookup_insert_ne.
Qed.

(** The tasks of one pass between two different images: the columns from
    0 below [T * (width / T)] get the filtered values of the source. *)
Lemma convolution_pass_effect src dst kernel_width sigma nsteps T (σ σ' : heap) :
  src ≠ dst → 0 <= T →
  convolution_pass get_2d_kernel src dst kernel_width sigma nsteps T σ = Ok σ' →
  (∀ l, l ≠ dst → σ' !! l = σ !! l) ∧
  same_shape (σ !!! dst) (σ' !!! dst) ∧
  ∀ ch row col,
    (in_columns (σ !!! src) 0 (T * (width (σ !!! src) ÷ T)) ch row col →
     ∃ n, filtered_sample (get_2d_kernel kernel_width kernel_width sigma) (σ !!! src)
            ch row col = Ok n
          ∧ data (σ' !!! dst) !! (ch, row, col) = Some n) ∧
    (¬ in_columns (σ !!! src) 0 (T * (width (σ !!! src) ÷ T)) ch row col →
     data (σ' !!! dst) !! (ch, row, col) = data (σ !!! dst) !! (ch, row, col)).
Proof.
  intros Hne HT Hrun. unfold convolution_pass in Hrun.
  set (kernel := get_2d_kernel kernel_width kernel_width sigma) in *.
  set (q := width (σ !!! src) ÷ T) in *.
  apply (for_each_each
           (fun σ1 : heap =>
              (∀ l, l ≠ dst → σ1 !! l = σ !! l) ∧
              same_shape (σ !!! dst) (σ1 !!! dst) ∧
              ∀ ch row col,
                ¬ in_columns (σ !!! src) 0 (T * q) ch row col →
                data (σ1 !!! dst) !! (ch, row, col) = data (σ !!! dst) !! (ch, row, col))
           (fun t (σ1 : heap) => ∀ ch row col,
              in_columns (σ !!! src) (t * q) ((t + 1) * q) ch row col →
              ∃ n, filtered_sample kernel (σ !!! src) ch row col = Ok n
                   ∧ data (σ1 !!! dst) !! (ch, row, col) = Some n))
    in Hrun.
  - destruct Hrun as [(Hothers & Hshape & Hframe) Hall]. split_and!; [done | done |].
    intros ch row col. split; [|apply Hframe].
    intros (Hch & Hrow & Hcol).
    apply covered_columns in Hcol as (t & Ht & Hcol%elem_of_task_columns); [|done].
    apply (Hall t); [by apply elem_of_range | done].
  - split_and!; [done | apply same_shape_refl | done].
  - intros t σ1 σ2 Ht%elem_of_range (Hothers & Hshape & Hframe) Hstep.
    apply helper_effect in Hstep as (Hothers2 & Hshape2 & Heff); [|done].
    rewrite (lookup_total_eq σ σ1 src) in Heff by (by apply Hothers). fold q kernel in Heff.
    split; [split_and!|].
    + intros l Hl. rewrite Hothers2 by done. by apply Hothers.
    + by eapply same_shape_trans.
    + intros ch row col Hnot. rewrite (proj2 (Heff ch row col)); [by apply Hframe|].
      intros (Hch & Hrow & Hcol). apply Hnot. unfold in_columns. split_and!; try done; nia.
    + intros ch row col Hin. by apply Heff.
  - intros t t' σ1 σ2 _ _ (Hothers & _) Hq Hstep.
    apply helper_effect in Hstep as (_ & _ & Heff); [|done].
    rewrite (lookup_total_eq σ σ1 src) in Heff by (by apply Hothers). fold q kernel in Heff.
    intros ch row col Hin.
    destruct (decide (0 <= ch < channels (σ !!! src) ∧ 0 <= row < height (σ !!! src)
                      ∧ t' * q <= col < (t' + 1) * q)) as [Hin'|Hout].
    + by apply Heff.
    + destruct (Hq ch row col Hin) as (n & Hn & Hd). exists n. split; [done|].
      by rewrite (proj2 (Heff ch row col)).
Qed.

(** X3: what a single-step run of the filter computes. With [nsteps = 1],
    the default, and two different images, [convolution_2d] leaves in
    every sample of the destination in the columns from 0 below
    [256 * (width / 256)] the clamped weighted sum over the neighbourhood
    of that sample in the source; the other columns of the destination,
    the source and every other image are as before. The channels, the
    height and the width looked at are those of the source. *)
Theorem single_pass_filters src dst kernel_width sigma (σ σ' : heap) :
  src ≠ dst →
  convolution_2d get_2d_kernel src dst kernel_width sigma 1 σ = Ok σ' →
  (∀ l, l ≠ dst → σ' !! l = σ !! l) ∧
  same_shape (σ !!! dst) (σ' !!! dst) ∧
  ∀ ch row col,
    (in_columns (σ !!! src) 0 (256 * (width (σ !!! src) ÷ 256)) ch row col →
     ∃ n, filtered_sample (get_2d_kernel kernel_width kernel_width sigma) (σ !!! src)
            ch row col = Ok n
          ∧ data (σ' !!! dst) !! (ch, row, col) = Some n) ∧
    (¬ in_columns (σ !!! src) 0 (256 * (width (σ !!! src) ÷ 256)) ch row col →
     data (σ' !!! dst) !! (ch, row, col) = data (σ !!! dst) !! (ch, row, col)).
Proof.
  intros Hne. rewrite convolution_2d_single. by apply convolution_pass_effect.
Qed.

End PassImage.
(* ================================================================== *)
(** * The steps of [convolution_2d], one after the other               *)
(* ================================================================== *)

Lemma exec_bind_assoc {A B C} (m : exec A) (f : A -> exec B) (g : B -> exec C) :
  (y <-- (x <-- m ;; f x) ;; g y) = (x <-- m ;; y <-- f x ;; g y).
Proof. by destruct m. Qed.

Lemma swap_images_source (src dst : nat) (σ : heap) :
  swap_images src dst σ !!! src = σ !!! dst.
Proof.
  unfold swap_images. destruct (decide (src = dst)) as [->|Hne].
  - by rewrite lookup_total_insert_eq.
  - rewrite lookup_total_insert_ne by done. by rewrite lookup_total_insert_eq.
Qed.

Lemma swap_images_destination (src dst : nat) (σ : heap) :
  swap_images src dst σ !!! dst = σ !!! src.
Proof. unfold swap_images. by rewrite lookup_total_insert_eq. Qed.

Section DriverImage.

Variable get_2d_kernel : Z -> Z -> float -> list (list float).

(** A task never looks at [nsteps]. *)
Lemma convolution_pass_nsteps src dst kernel_width sigma nsteps nsteps' T (σ : heap) :
  convolution_pass get_2d_kernel src dst kernel_width sigma nsteps T σ
    = convolution_pass get_2d_kernel src dst kernel_width sigma nsteps' T σ.
Proof. reflexivity. Qed.

(** The first [k] steps of a longer run are the run of [k] steps and one
    more exchange. *)
Lemma driver_prefix src dst kernel_width sigma k nsteps (σ : heap) :
  1 <= k < nsteps →
  for_each (range 0 k)
    (fun step σ =>
       σ <-- convolution_pass get_2d_kernel src dst kernel_width sigma nsteps 256 σ ;;
       Ok (if step <? nsteps - 1 then swap_images src dst σ else σ))
    σ
  = (σk <-- convolution_2d get_2d_kernel src dst kernel_width sigma k σ ;;
     Ok (swap_images src dst σk)).
Proof.
  intros Hk. unfold convolution_2d. cbv zeta.
  rewrite (range_snoc 0 k) by lia. rewrite !for_each_snoc.
  rewrite (for_each_ext (range 0 (k - 1)) _
             (fun step σ =>
                σ <-- convolution_pass get_2d_kernel src dst kernel_width sigma k 256 σ ;;
                Ok (if step <? k - 1 then swap_images src dst σ else σ))).
  2:{ intros step σ1 Hstep%elem_of_range.
      rewrite (convolution_pass_nsteps src dst kernel_width sigma nsteps k).
      destruct (Z.ltb_spec step (nsteps - 1)); [|lia].
      destruct (Z.ltb_spec step (k - 1)); [done | lia]. }
  rewrite exec_bind_assoc.
  destruct (for_each (range 0 (k - 1)) _ σ) as [σ1|f]; [|done]. cbn [exec_bind].
  rewrite (convolution_pass_nsteps src dst kernel_width sigma nsteps k).
  destruct (convolution_pass get_2d_kernel src dst kernel_width sigma k 256 σ1)
    as [σ2|f]; [|done]. cbn [exec_bind].
  destruct (Z.ltb_spec (k - 1) (nsteps - 1)); [|lia].
  destruct (Z.ltb_spec (k - 1) (k - 1)); [lia | done].
Qed.

(** A run of [k + 1] steps is the run of [k] steps, the exchange, and one
    more pass. *)
Lemma convolution_2d_unroll src dst kernel_width sigma k (σ : heap) :
  1 <= k →
  convolution_2d get_2d_kernel src dst kernel_width sigma (k + 1) σ
  = (σk <-- convolution_2d get_2d_kernel src dst kernel_width sigma k σ ;;
     convolution_pass get_2d_kernel src dst kernel_width sigma (k + 1) 256
       (swap_images src dst σk)).
Proof.
  intros Hk. unfold convolution_2d at 1. cbv zeta.
  rewrite (range_snoc 0 (k + 1)) by lia.
  replace (range 0 (k + 1 - 1)) with (range 0 k) by (f_equal; lia).
  rewrite for_each_snoc.
  rewrite (driver_prefix src dst kernel_width sigma k (k + 1)) by lia.
  rewrite exec_bind_assoc.
  destruct (convolution_2d get_2d_kernel src dst kernel_width sigma k σ) as [σk|f]; [|done].
  cbn [exec_bind].
  destruct (convolution_pass get_2d_kernel src dst kernel_width sigma (k + 1) 256
              (swap_images src dst σk)) as [σ2|f]; [|done].
  cbn [exec_bind]. destruct (Z.ltb_spec (k + 1 - 1) (k + 1 - 1)); [lia | done].
Qed.

(** A run of at least one step ends with a pass, on the store as the
    caller gave it or as the exchange after the step before left it. *)
Lemma convolution_2d_last_pass src dst kernel_width sigma nsteps (σ σ' : heap) :
  1 <= nsteps →
  convolution_2d get_2d_kernel src dst kernel_width sigma nsteps σ = Ok σ' →
  ∃ σp, convolution_pass get_2d_kernel src dst kernel_width sigma nsteps 256 σp = Ok σ'.
Proof.
  intros Hn Hrun. destruct (Z.eq_dec nsteps 1) as [->|Hne].
  - exists σ. by rewrite <- convolution_2d_single.
  - replace nsteps with (nsteps - 1 + 1) in Hrun at 1 by lia.
    rewrite convolution_2d_unroll in Hrun by lia.
    apply exec_bind_ok in Hrun as (σk & _ & Hrun).
    rewrite (convolution_pass_nsteps _ _ _ _ _ nsteps) in Hrun. by eexists.
Qed.

(** When the two images have the same dimensions at the start, they have
    them at the end. *)
Lemma convolution_2d_shapes src dst kernel_width sigma nsteps (σ σ' : heap) :
  src ≠ dst →
  same_shape (σ !!! src) (σ !!! dst) →
  convolution_2d get_2d_kernel src dst kernel_width sigma nsteps σ = Ok σ' →
  same_shape (σ !!! src) (σ' !!! src) ∧ same_shape (σ !!! src) (σ' !!! dst).
Proof.
  intros Hne Hsame. unfold convolution_2d. cbv zeta.
  apply (for_each_invariant
           (fun σ1 : heap => same_shape (σ !!! src) (σ1 !!! src)
                             ∧ same_shape (σ !!! src) (σ1 !!! dst))).
  - split; [apply same_shape_refl | done].
  - intros step σ1 σ3 _ [Hs Hd] Hstep.
    apply exec_bind_ok in Hstep as (σ2 & Hpass & [= <-]).
    apply convolution_pass_effect in Hpass as (Hothers & Hshape & _); [|done|done].
    assert (Hs2 : same_shape (σ !!! src) (σ2 !!! src)).
    { rewrite (lookup_total_eq σ1 σ2 src) by (by apply Hothers). done. }
    assert (Hd2 : same_shape (σ !!! src) (σ2 !!! dst)).
    { eapply same_shape_trans; [exact Hd | exact Hshape]. }
    destruct (step <? nsteps - 1); [|done].
    by rewrite swap_images_source, swap_images_destination.
Qed.

(** X4: at the end of a run the destination is one pass ahead of the
    source. For any [nsteps >= 1] and two different images, when
    [convolution_2d] returns, every sample of the destination in the
    columns from 0 below [256 * (width / 256)] is the clamped weighted
    sum over the neighbourhood of that sample in the source as the run
    left it, and lies between 0 and 255; when the two images had the same
    dimensions at the start, both have them at the end. *)
Theorem destination_one_pass_ahead src dst kernel_width sigma nsteps (σ σ' : heap) :
  src ≠ dst → 1 <= nsteps →
  convolution_2d get_2d_kernel src dst kernel_width sigma nsteps σ = Ok σ' →
  (∀ ch row col,
     in_columns (σ' !!! src) 0 (256 * (width (σ' !!! src) ÷ 256)) ch row col →
     ∃ n, filtered_sample (get_2d_kernel kernel_width kernel_width sigma) (σ' !!! src)
            ch row col = Ok n
          ∧ data (σ' !!! dst) !! (ch, row, col) = Some n
          ∧ 0 <= n <= 255) ∧
  (same_shape (σ !!! src) (σ !!! dst) →
   same_shape (σ !!! src) (σ' !!! src) ∧ same_shape (σ !!! dst) (σ' !!! dst)).
Proof.
  intros Hne Hn Hrun. split.
  - destruct (convolution_2d_last_pass _ _ _ _ _ _ _ Hn Hrun) as (σp & Hpass).
    apply convolution_pass_effect in Hpass as (Hothers & _ & Heff); [|done|done].
    rewrite <- (lookup_total_eq σp σ' src) in Heff by (by apply Hothers).
    intros ch row col Hin. destruct (proj1 (Heff ch row col) Hin) as (n & Hf & Hd).
    pose proof (filtered_sample_clamped _ _ _ _ _ _ Hf) as Hrange.
    exists n. split_and!; [done | done | lia | lia].
  - intros Hsame.
    destruct (convolution_2d_shapes _ _ _ _ _ _ _ Hne Hsame Hrun) as [Hs Hd].
    split; [done|]. unfold same_shape in *. destruct_and!. split_and!; congruence.
Qed.

(** X5: a run of several steps works in the caller's images. For
    [k >= 1], when [convolution_2d] returns from [k + 1] steps, the run
    of [k] steps returns as well, and the longer run is the shorter one,
    the exchange of the two images (three copies by value) and one more
    pass: with two different images the caller's source ends as the
    destination of the run of [k] steps, not as the caller passed it. *)
Theorem multi_pass_overwrites_source src dst kernel_width sigma k (σ σ' : heap) :
  src ≠ dst → 1 <= k →
  convolution_2d get_2d_kernel src dst kernel_width sigma (k + 1) σ = Ok σ' →
  ∃ σk,
    convolution_2d get_2d_kernel src dst kernel_width sigma k σ = Ok σk ∧
    convolution_pass get_2d_kernel src dst kernel_width sigma (k + 1) 256
      (swap_images src dst σk) = Ok σ' ∧
    σ' !!! src = σk !!! dst.
Proof.
  intros Hne Hk Hrun. rewrite convolution_2d_unroll in Hrun by done.
  apply exec_bind_ok in Hrun as (σk & Hk' & Hpass). exists σk. split_and!; [done | done |].
  apply convolution_pass_effect in Hpass as (Hothers & _); [|done|done].
  rewrite (lookup_total_eq (swap_images src dst σk) σ' src) by (by apply Hothers).
  apply swap_images_source.
Qed.

End DriverImage.

(** X3 on a run: one step over the row of 256 samples, 3 by 3 box
    kernel. *)
Lemma single_pass_filters_witness :
  ∃ σ',
    convolution_2d box_kernel 0 1 3 0.37%float 1 row_images = Ok σ' ∧
    (∀ l, l ≠ 1%nat → σ' !! l = row_images !! l) ∧
    same_shape (row_images !!! 1%nat) (σ' !!! 1%nat) ∧
    ∀ ch row col,
      (in_columns (row_images !!! 0%nat) 0 (256 * (width (row_images !!! 0%nat) ÷ 256))
         ch row col →
       ∃ n, filtered_sample (box_kernel 3 3 0.37%float) (row_images !!! 0%nat) ch row col
              = Ok n
            ∧ data (σ' !!! 1%nat) !! (ch, row, col) = Some n) ∧
      (¬ in_columns (row_images !!! 0%nat) 0 (256 * (width (row_images !!! 0%nat) ÷ 256))
           ch row col →
       data (σ' !!! 1%nat) !! (ch, row, col) = data (row_images !!! 1%nat) !! (ch, row, col)).
Proof.
  assert (Hret : returned (convolution_2d box_kernel 0 1 3 0.37%float 1 row_images)
                 = true) by (vm_compute; reflexivity).
  destruct (returned_completes _ Hret) as [σ' Hrun].
  exists σ'. split; [exact Hrun|].
  apply (single_pass_filters box_kernel 0%nat 1%nat 3 0.37%float row_images σ');
    [done | exact Hrun].
Defined.

(** X4 on a run: two steps over the row of 256 samples. *)
Lemma destination_one_pass_ahead_witness :
  ∃ σ',
    convolution_2d box_kernel 0 1 3 0.37%float 2 row_images = Ok σ' ∧
    (∀ ch row col,
       in_columns (σ' !!! 0%nat) 0 (256 * (width (σ' !!! 0%nat) ÷ 256)) ch row col →
       ∃ n, filtered_sample (box_kernel 3 3 0.37%float) (σ' !!! 0%nat) ch row col = Ok n
            ∧ data (σ' !!! 1%nat) !! (ch, row, col) = Some n
            ∧ 0 <= n <= 255) ∧
    (same_shape (row_images !!! 0%nat) (row_images !!! 1%nat) →
     same_shape (row_images !!! 0%nat) (σ' !!! 0%nat)
     ∧ same_shape (row_images !!! 1%nat) (σ' !!! 1%nat)).
Proof.
  assert (Hret : returned (convolution_2d box_kernel 0 1 3 0.37%float 2 row_images)
                 = true) by (vm_compute; reflexivity).
  destruct (returned_completes _ Hret) as [σ' Hrun].
  exists σ'. split; [exact Hrun|].
  apply (destination_one_pass_ahead box_kernel 0%nat 1%nat 3 0.37%float 2 row_images σ');
    [done | done | exact Hrun].
Defined.

(** X5 on a run: two steps over the row of 256 samples. *)
Lemma multi_pass_overwrites_source_witness :
  ∃ σ' σk,
    convolution_2d box_kernel 0 1 3 0.37%float (1 + 1) row_images = Ok σ' ∧
    convolution_2d box_kernel 0 1 3 0.37%float 1 row_images = Ok σk ∧
    convolution_pass box_kernel 0 1 3 0.37%float (1 + 1) 256 (swap_images 0 1 σk) = Ok σ' ∧
    σ' !!! 0%nat = σk !!! 1%nat.
Proof.
  assert (Hret : returned (convolution_2d box_kernel 0 1 3 0.37%float (1 + 1) row_images)
                 = true) by (vm_compute; reflexivity).
  destruct (returned_completes _ Hret) as [σ' Hrun].
  exists σ'.
  destruct (multi_pass_overwrites_source box_kernel 0%nat 1%nat 3 0.37%float 1
              row_images σ' ltac:(done) ltac:(done) Hrun) as (σk & Hk & Hpass & Hsrc).
  exists σk. exact (conj Hrun (conj Hk (conj Hpass Hsrc))).
Defined.
(* ================================================================== *)
(** * The width of the kernel and the ways a task can stop             *)
(* ================================================================== *)

(** A loop that stops on a fault got it from one of its turns. *)
Lemma for_each_fault {A S} (l : list A) (body : A -> S -> exec S) (s : S) (f : fault) :
  for_each l body s = Fault f → ∃ x s1, x ∈ l ∧ body x s1 = Fault f.
Proof.
  revert s. induction l as [|a l IH]; intros s; simpl; [discriminate|].
  destruct (body a s) as [s1|f1] eqn:Ha; simpl.
  - intros Hrun. destruct (IH s1 Hrun) as (x & s2 & Hx & Hf).
    exists x, s2. split; [by right | done].
  - intros [= <-]. exists a, s. split; [by left | done].
Qed.

Lemma kernel_at_ok (kernel : list (list float)) (n row col : Z) :
  square_kernel kernel n → 0 <= row < n → 0 <= col < n →
  ∃ x, kernel_at kernel row col = Ok x.
Proof.
  intros [Hrows Hcols] Hrow Hcol. unfold kernel_at.
  destruct (Z.ltb_spec row 0); [lia|]. destruct (Z.ltb_spec col 0); [lia|]. simpl.
  destruct (lookup_lt_is_Some_2 kernel (Z.to_nat row) ltac:(lia)) as [r Hr]. rewrite Hr.
  rewrite Forall_forall in Hcols.
  pose proof (Hcols r (list_elem_of_lookup_2 _ _ _ Hr)) as Hlen.
  destruct (lookup_lt_is_Some_2 r (Z.to_nat col) ltac:(lia)) as [x ->]. by exists x.
Qed.

Lemma kernel_at_fault (kernel : list (list float)) (n row col : Z) :
  square_kernel kernel n → n <= col →
  kernel_at kernel row col = Fault (KernelIndex row col).
Proof.
  intros [Hrows Hcols] Hcol. unfold kernel_at.
  destruct ((row <? 0) || (col <? 0)); [done|].
  destruct (kernel !! Z.to_nat row) as [r|] eqn:Hr; [|done].
  rewrite Forall_forall in Hcols.
  pose proof (Hcols r (list_elem_of_lookup_2 _ _ _ Hr)) as Hlen.
  by rewrite lookup_ge_None_2 by lia.
Qed.

Lemma kernel_at_fault_inv (kernel : list (list float)) (row col : Z) (f : fault) :
  kernel_at kernel row col = Fault f → f = KernelIndex row col.
Proof.
  unfold kernel_at. destruct ((row <? 0) || (col <? 0)); [by intros [= <-]|].
  destruct (kernel !! Z.to_nat row) as [r|]; [|by intros [= <-]].
  destruct (r !! Z.to_nat col); [discriminate | by intros [= <-]].
Qed.

Lemma odd_half (n : Z) : 0 <= n → Z.odd n = true → n = 2 * (n ÷ 2) + 1.
Proof.
  intros Hn Hodd. rewrite Z.quot_div_nonneg by lia.
  apply Z.odd_spec in Hodd as [m ->].
  replace (2 * m + 1) with (1 + m * 2) by lia. rewrite Z.div_add by lia.
  change (1 / 2) with 0. lia.
Qed.

Lemma even_half (n : Z) : 0 <= n → Z.even n = true → n = 2 * (n ÷ 2).
Proof.
  intros Hn Heven. rewrite Z.quot_div_nonneg by lia.
  apply Z.even_spec in Heven as [m ->].
  replace (2 * m) with (m * 2) by lia. rewrite Z.div_mul by lia. lia.
Qed.

(** With an odd number [n] of rows and columns every [kernel[k + displ]
    [l + displ]] of the two inner loops is inside the kernel. *)
Lemma neighborhood_sum_completes (kernel : list (list float)) (n : Z) (src : Image)
    (w h ch i j : Z) :
  square_kernel kernel n → Z.odd n = true →
  completes (neighborhood_sum kernel src w h (n ÷ 2) ch i j).
Proof.
  intros Hsq Hodd.
  assert (Hn : 0 <= n) by (destruct Hsq as [<- _]; lia).
  pose proof (odd_half n Hn Hodd) as Hhalf.
  unfold completes, neighborhood_sum.
  destruct (for_each_completes (fun _ : float => True) (range (- (n ÷ 2)) (n ÷ 2 + 1))
              (fun k => for_each (range (- (n ÷ 2)) (n ÷ 2 + 1))
                 (fun l => add_neighbor kernel src w h (n ÷ 2) ch i j k l)) 0%float)
    as (val & Hval & _); [done | | by exists val].
  intros k val Hk%elem_of_range _.
  apply for_each_completes; [done|]. intros l val' Hl%elem_of_range _.
  unfold add_neighbor. destruct (outside w h (j + l) (i + k)); [by eexists|].
  destruct (kernel_at_ok kernel n (k + n ÷ 2) (l + n ÷ 2)) as [x ->]; [done | lia | lia |].
  simpl. by eexists.
Qed.

Lemma stored_value_fault (val : float) (f : fault) :
  stored_value val = Fault f → f = CastUndefined ∧ is_nan val = true.
Proof.
  intros Hf. split.
  - unfold stored_value, int_of_double in Hf.
    destruct (Prim2SF (clamp val)); try (by injection Hf); try discriminate.
    destruct (_ && _); [discriminate | by injection Hf].
  - destruct (is_nan val) eqn:Hnan; [done|].
    destruct (stored_value_completes val Hnan) as [n Hn]. congruence.
Qed.

Section TaskFaults.

Variable get_2d_kernel : Z -> Z -> float -> list (list float).

(** With an odd kernel a task stops short on the division by
    [task_size = 0] or on the cast of a NaN. *)
Lemma helper_fault_kinds src dst kernel_width sigma nsteps t T (σ : heap) (n : Z) (f : fault) :
  square_kernel (get_2d_kernel kernel_width kernel_width sigma) n →
  Z.odd n = true →
  convolution_2d_helper get_2d_kernel src dst kernel_width sigma nsteps t T σ = Fault f →
  (T = 0 ∧ f = DivisionByZero) ∨ (T ≠ 0 ∧ f = CastUndefined).
Proof.
  intros Hsq Hodd Hrun.
  destruct (Z.eq_dec T 0) as [->|HT].
  { left. rewrite helper_task_size in Hrun. by injection Hrun as <-. }
  right. split; [done|].
  rewrite helper_loops in Hrun by done.
  apply for_each_fault in Hrun as (j & σ1 & _ & Hrun).
  apply for_each_fault in Hrun as (ch & σ2 & _ & Hrun).
  apply for_each_fault in Hrun as (i & σ3 & _ & Hrun).
  unfold convolve_pixel in Hrun.
  replace (Z.of_nat (length (get_2d_kernel kernel_width kernel_width sigma))) with n in Hrun
    by (by destruct Hsq as [-> _]).
  destruct (neighborhood_sum_completes (get_2d_kernel kernel_width kernel_width sigma) n
              (σ3 !!! src) (width (σ !!! src)) (height (σ !!! src)) ch i j Hsq Hodd)
    as [val Hval].
  rewrite Hval in Hrun. cbn [exec_bind] in Hrun.
  destruct (stored_value val) as [m|f'] eqn:Hm; [discriminate|].
  cbn [exec_bind] in Hrun. injection Hrun as <-.
  by apply stored_value_fault in Hm as [-> _].
Qed.

(** X6: with a kernel of an odd number of rows and as many columns, the
    filter can stop short in one way only: on the [(int)] cast of a
    weighted sum that is a NaN. No index into the kernel is out of range,
    in no task of no pass of [convolution_2d]; a task called on its own
    can also stop on the division by [task_size = 0], which
    [convolution_2d], with its 256 tasks, never asks for. *)
Theorem convolution_faults src dst kernel_width sigma (n : Z) :
  square_kernel (get_2d_kernel kernel_width kernel_width sigma) n →
  Z.odd n = true →
  (∀ nsteps t T (σ : heap) f,
     convolution_2d_helper get_2d_kernel src dst kernel_width sigma nsteps t T σ = Fault f →
     (T = 0 ∧ f = DivisionByZero) ∨ (T ≠ 0 ∧ f = CastUndefined)) ∧
  (∀ nsteps (σ : heap) f,
     convolution_2d get_2d_kernel src dst kernel_width sigma nsteps σ = Fault f →
     f = CastUndefined).
Proof.
  intros Hsq Hodd. split.
  - intros nsteps t T σ f. by apply helper_fault_kinds with n.
  - intros nsteps σ f Hrun. unfold convolution_2d in Hrun. cbv zeta in Hrun.
    apply for_each_fault in Hrun as (step & σ1 & _ & Hrun).
    destruct (convolution_pass get_2d_kernel src dst kernel_width sigma nsteps 256 σ1)
      as [σ2|f'] eqn:Hpass; [discriminate|].
    cbn [exec_bind] in Hrun. injection Hrun as <-.
    apply for_each_fault in Hpass as (t & σ3 & _ & Hpass).
    apply (helper_fault_kinds _ _ _ _ _ _ _ _ n) in Hpass as [[? _]|[_ ->]]; done.
Qed.

End TaskFaults.

(** X7: the kernel must have an odd width, as the comment above the
    function asks. With an even number [n] of
    rows and columns, [displ = n / 2] and the offset [l = displ] asks for
    column [n] of the kernel: the weighted sum of any pixel in the image
    rows whose neighbour [displ] columns to the right is in the image
    stops on an index outside the kernel. *)
Theorem even_kernel_index_out_of_range (kernel : list (list float)) (n : Z) (src : Image)
    (w h ch i j : Z) :
  square_kernel kernel n → Z.even n = true →
  0 <= i < h → 0 <= j + n ÷ 2 < w →
  ∃ row col, neighborhood_sum kernel src w h (n ÷ 2) ch i j = Fault (KernelIndex row col).
Proof.
  intros Hsq Heven Hi Hj.
  assert (Hn : 0 <= n) by (destruct Hsq as [<- _]; lia).
  pose proof (even_half n Hn Heven) as Hhalf.
  unfold neighborhood_sum.
  destruct (for_each (range (- (n ÷ 2)) (n ÷ 2 + 1)) _ 0%float) as [val|f] eqn:Hrun.
  - exfalso. rewrite for_each_nested in Hrun.
    destruct (for_each_ok_each _ _ _ _ Hrun (0, n ÷ 2)) as (s1 & s2 & Hstep).
    { apply elem_of_list_prod. rewrite !elem_of_range. lia. }
    cbn [fst snd] in Hstep. unfold add_neighbor in Hstep.
    replace (outside w h (j + n ÷ 2) (i + 0)) with false in Hstep.
    2:{ symmetry. apply not_true_is_false. rewrite outside_spec. lia. }
    rewrite (kernel_at_fault kernel n) in Hstep by (done || lia). discriminate.
  - apply for_each_fault in Hrun as (k & s1 & _ & Hrun).
    apply for_each_fault in Hrun as (l & s2 & _ & Hrun).
    unfold add_neighbor in Hrun. destruct (outside w h (j + l) (i + k)); [discriminate|].
    destruct (kernel_at kernel (k + n ÷ 2) (l + n ÷ 2)) as [x|f'] eqn:Hk; [discriminate|].
    cbn [exec_bind] in Hrun. injection Hrun as <-.
    apply kernel_at_fault_inv in Hk as ->. by eexists _, _.
Qed.

(** X6 on a run: a kernel of one weight, a NaN; the task stops on the
    cast of the first sum, and so does the run of [convolution_2d]. *)
Lemma convolution_faults_witness :
  (∀ nsteps t T (σ : heap) f,
     convolution_2d_helper (fun _ _ _ => [[nan]]) 0 1 1 0.37%float nsteps t T σ = Fault f →
     (T = 0 ∧ f = DivisionByZero) ∨ (T ≠ 0 ∧ f = CastUndefined)) ∧
  (∀ nsteps (σ : heap) f,
     convolution_2d (fun _ _ _ => [[nan]]) 0 1 1 0.37%float nsteps σ = Fault f →
     f = CastUndefined) ∧
  convolution_2d (fun _ _ _ => [[nan]]) 0 1 1 0.37%float 1 row_images = Fault CastUndefined.
Proof.
  pose proof (convolution_faults (fun _ _ _ => [[nan]]) 0%nat 1%nat 1 0.37%float 1
                ltac:(split; [reflexivity | by repeat constructor]) ltac:(reflexivity))
    as [Htask Hrun].
  split_and!; [exact Htask | exact Hrun | vm_compute; reflexivity].
Defined.

(** X7 on a run: the 2 by 2 box kernel at the first pixel of the 4 by 4
    image. *)
Lemma even_kernel_index_out_of_range_witness :
  ∃ row col,
    neighborhood_sum (box_kernel 2 2 0.37%float) (two_images !!! 0%nat) 4 4 (2 ÷ 2) 0 0 0
      = Fault (KernelIndex row col).
Proof.
  apply (even_kernel_index_out_of_range (box_kernel 2 2 0.37%float) 2
           (two_images !!! 0%nat) 4 4 0 0 0).
  - split; [reflexivity | by repeat constructor].
  - reflexivity.
  - lia.
  - change (2 ÷ 2) with 1. lia.
Defined.
(* ================================================================== *)
(** * The values line 148 stores                                       *)
(* ================================================================== *)

Lemma is_nan_spec (x : float) : is_nan x = true → Prim2SF x = S754_nan.
Proof.
  unfold is_nan. rewrite FloatAxioms.eqb_spec. unfold SFeqb, SFcompare.
  destruct (Prim2SF x) as [[]|[]| |[] m e]; try done;
    rewrite Z.compare_refl, Pos.compare_cont_refl; done.
Qed.

Lemma stored_value_nan (val : float) :
  is_nan val = true → stored_value val = Fault CastUndefined.
Proof.
  intros Hnan%is_nan_spec. unfold stored_value, clamp.
  rewrite !FloatAxioms.ltb_spec, Hnan. unfold SFltb, SFcompare.
  destruct (Prim2SF 255); cbv iota; unfold int_of_double; by rewrite Hnan.
Qed.

(** The body of the pixel loop on a sum that is a number: it stores the
    stored value of the sum, a value from 0 to 255, at the pixel. *)
Lemma convolve_pixel_stores kernel src dst w h displ j ch i (σ : heap) (val : float) :
  neighborhood_sum kernel (σ !!! src) w h displ ch i j = Ok val →
  is_nan val = false →
  ∃ n, stored_value val = Ok n ∧ 0 <= n <= 255 ∧
       convolve_pixel kernel src dst w h displ j ch i σ
         = Ok (<[dst := store_sample (σ !!! dst) ch i j n]> σ).
Proof.
  intros Hval Hnan. destruct (stored_value_completes val Hnan) as [n Hn].
  exists n. split; [done|]. split; [by apply stored_value_cases in Hn as [? _]|].
  unfold convolve_pixel. rewrite Hval. cbn [exec_bind]. by rewrite Hn.
Qed.

(** On a sum that is a NaN neither comparison of line 148 holds, the NaN
    reaches the cast, and the run stops there. *)
Lemma convolve_pixel_nan kernel src dst w h displ j ch i (σ : heap) (val : float) :
  neighborhood_sum kernel (σ !!! src) w h displ ch i j = Ok val →
  is_nan val = true →
  convolve_pixel kernel src dst w h displ j ch i σ = Fault CastUndefined.
Proof.
  intros Hval Hnan. unfold convolve_pixel. rewrite Hval. cbn [exec_bind].
  by rewrite stored_value_nan.
Qed.

Section StoredSamples.

Variable get_2d_kernel : Z -> Z -> float -> list (list float).

(** A task between two different images, with a kernel of odd width and a
    task size other than 0, on a source none of whose sums is a NaN. *)
Lemma helper_stores_sums src dst kernel_width sigma nsteps t T (n : Z) (σ : heap) :
  src ≠ dst → T ≠ 0 →
  square_kernel (get_2d_kernel kernel_width kernel_width sigma) n →
  Z.odd n = true →
  (∀ ch row col val,
     neighborhood_sum (get_2d_kernel kernel_width kernel_width sigma) (σ !!! src)
       (width (σ !!! src)) (height (σ !!! src)) (n ÷ 2) ch row col = Ok val →
     is_nan val = false) →
  task_stores_clamped get_2d_kernel src dst kernel_width sigma nsteps t T σ.
Proof.
  intros Hne HT Hsq Hodd Hsums.
  assert (Hlen : Z.of_nat (length (get_2d_kernel kernel_width kernel_width sigma)) = n)
    by (by destruct Hsq as [-> _]).
  assert (Hrun : ∃ σ', convolution_2d_helper get_2d_kernel src dst kernel_width sigma
                         nsteps t T σ = Ok σ' ∧ σ' !!! src = σ !!! src).
  { rewrite helper_loops by done. rewrite Hlen.
    apply (for_each_completes (fun σ1 : heap => σ1 !!! src = σ !!! src)); [done|].
    intros j σ1 _ H1.
    apply (for_each_completes (fun σ1 : heap => σ1 !!! src = σ !!! src)); [done|].
    intros ch σ2 _ H2.
    apply (for_each_completes (fun σ1 : heap => σ1 !!! src = σ !!! src)); [done|].
    intros i σ3 _ H3.
    destruct (neighborhood_sum_completes (get_2d_kernel kernel_width kernel_width sigma) n
                (σ !!! src) (width (σ !!! src)) (height (σ !!! src)) ch i j Hsq Hodd)
      as [val Hval].
    pose proof (Hsums ch i j val Hval) as Hnan. rewrite <- H3 in Hval at 1.
    destruct (convolve_pixel_stores _ src dst _ _ _ j ch i σ3 val Hval Hnan)
      as (m & _ & _ & ->).
    eexists. split; [done|]. by rewrite lookup_total_insert_ne. }
  destruct Hrun as (σ' & Hrun & _). exists σ'. split; [done|].
  apply helper_effect in Hrun as (_ & _ & Heff); [|done].
  intros ch row col Hin. destruct (proj1 (Heff ch row col) Hin) as (m & Hm & Hd).
  pose proof (filtered_sample_clamped _ _ _ _ _ _ Hm). by exists m.
Qed.

(** C8, as amended: the value line 148 stores for an accumulated sum is
    255 when the sum is above 255, 0 when it is below 0, and otherwise
    the sum converted to [int], its fractional part dropped; it lies
    between 0 and 255 and exists for every sum that is a number. The body
    of the pixel loop stores this value of the weighted sum over the
    neighbourhood at the pixel whenever the sum is a number; on a sum
    that is a NaN it stops on the cast. A task between two different
    images, with a kernel of odd width and a task size other than 0,
    none of whose sums is a NaN returns and has put into every sample of
    its slice this value of the sum over the source; any task that
    returns has left in the destination, for every sample, the sample
    that was there or a value from 0 to 255, and between two different
    images every sample of its slice holds the value of its sum; and when
    the whole stage returns, every sample of its two images is a value
    from 0 to 255 or a sample one of the two had at the same place
    before. *)
Theorem stored_samples_clamped :
  (∀ val n,
     stored_value val = Ok n →
     0 <= n <= 255 ∧
     ((255 <? val)%float = true ∧ n = 255
      ∨ (255 <? val)%float = false ∧ (val <? 0)%float = true ∧ n = 0
      ∨ (255 <? val)%float = false ∧ (val <? 0)%float = false ∧ int_of_double val = Ok n)) ∧
  (∀ val, is_nan val = false → completes (stored_value val)) ∧
  (∀ kernel src dst w h displ j ch i (σ : heap) val,
     neighborhood_sum kernel (σ !!! src) w h displ ch i j = Ok val →
     is_nan val = false →
     ∃ n, stored_value val = Ok n ∧ 0 <= n <= 255 ∧
          convolve_pixel kernel src dst w h displ j ch i σ
            = Ok (<[dst := store_sample (σ !!! dst) ch i j n]> σ)) ∧
  (∀ kernel src dst w h displ j ch i (σ : heap) val,
     neighborhood_sum kernel (σ !!! src) w h displ ch i j = Ok val →
     is_nan val = true →
     convolve_pixel kernel src dst w h displ j ch i σ = Fault CastUndefined) ∧
  (∀ src dst kernel_width sigma nsteps t T n (σ : heap),
     src ≠ dst → T ≠ 0 →
     square_kernel (get_2d_kernel kernel_width kernel_width sigma) n →
     Z.odd n = true →
     (∀ ch row col val,
        neighborhood_sum (get_2d_kernel kernel_width kernel_width sigma) (σ !!! src)
          (width (σ !!! src)) (height (σ !!! src)) (n ÷ 2) ch row col = Ok val →
        is_nan val = false) →
     task_stores_clamped get_2d_kernel src dst kernel_width sigma nsteps t T σ) ∧
  (∀ src dst kernel_width sigma nsteps t T (σ σ' : heap),
     convolution_2d_helper get_2d_kernel src dst kernel_width sigma nsteps t T σ = Ok σ' →
     (∀ key,
        data (σ' !!! dst) !! key = data (σ !!! dst) !! key
        ∨ ∃ n, data (σ' !!! dst) !! key = Some n ∧ 0 <= n <= 255) ∧
     (src ≠ dst →
      ∀ ch row col,
        in_columns (σ !!! src) (t * (width (σ !!! src) ÷ T))
          ((t + 1) * (width (σ !!! src) ÷ T)) ch row col →
        ∃ n, filtered_sample (get_2d_kernel kernel_width kernel_width sigma) (σ !!! src)
               ch row col = Ok n
             ∧ data (σ' !!! dst) !! (ch, row, col) = Some n
             ∧ 0 <= n <= 255)) ∧
  (∀ src dst kernel_width sigma nsteps (σ σ' : heap),
     convolution_2d get_2d_kernel src dst kernel_width sigma nsteps σ = Ok σ' →
     clamped_or_from σ src dst (σ' !!! src) ∧ clamped_or_from σ src dst (σ' !!! dst)).
Proof.
  split_and!.
  - apply stored_value_cases.
  - apply stored_value_completes.
  - apply convolve_pixel_stores.
  - apply convolve_pixel_nan.
  - apply helper_stores_sums.
  - intros src dst kernel_width sigma nsteps t T σ σ' Hrun. split.
    + by apply (helper_stores_clamped get_2d_kernel _ _ _ _ _ _ _ _ _ Hrun).
    + intros Hne ch row col Hin.
      apply helper_effect in Hrun as (_ & _ & Heff); [|done].
      destruct (proj1 (Heff ch row col) Hin) as (m & Hm & Hd).
      pose proof (filtered_sample_clamped _ _ _ _ _ _ Hm). by exists m.
  - apply convolution_2d_stores_clamped.
Qed.

End StoredSamples.

(** C8 on a run: the corner pixel of the 4 by 4 image of 255s under the
    3 by 3 kernel of weights 1/9. Four of the nine neighbours are in the
    image, the sum is [4 * 255 / 9 = 113.33...], a number, and the pixel
    gets 113. *)
Lemma stored_samples_clamped_witness :
  ∃ val,
    neighborhood_sum (box_kernel 3 3 1%float) (two_images !!! 0%nat) 4 4 1 0 0 0 = Ok val ∧
    is_nan val = false ∧
    stored_value val = Ok 113 ∧
    convolve_pixel (box_kernel 3 3 1%float) 0 1 4 4 1 0 0 0 two_images
      = Ok (<[1%nat := store_sample (two_images !!! 1%nat) 0 0 0 113]> two_images).
Proof.
  assert (Hsum : ∃ val,
            neighborhood_sum (box_kernel 3 3 1%float) (two_images !!! 0%nat) 4 4 1 0 0 0
              = Ok val ∧ is_nan val = false ∧ stored_value val = Ok 113).
  { eexists. split; [vm_compute; reflexivity|].
    split; vm_compute; reflexivity. }
  destruct Hsum as (val & Hval & Hnan & Hstored). exists val.
  destruct (stored_samples_clamped box_kernel) as (_ & _ & Hpixel & _).
  destruct (Hpixel (box_kernel 3 3 1%float) 0%nat 1%nat 4 4 1 0 0 0 two_images val Hval Hnan)
    as (n & Hn & _ & Hstore).
  rewrite Hstored in Hn. injection Hn as <-.
  exact (conj Hval (conj Hnan (conj Hstored Hstore))).
Defined.

(** C8, the claim as stated fails: with a kernel whose one weight is a
    NaN, the sum of the first pixel of the 4 by 4 image of 255s is
    [0 + NaN * 255], a NaN; it is neither above 255 nor below 0, the
    clamp of line 148 lets it through, and the cast to [int] of a NaN is
    undefined (the model stops the run there): what the task stores for
    the pixel is no value from 0 to 255. *)
Lemma nan_sum_not_clamped :
  ¬ task_stores_clamped (fun _ _ _ => [[nan]]) 0 1 1 0.37%float 1 0 1 two_images.
Proof.
  intros (σ' & Hrun & _).
  assert (Hfault : convolution_2d_helper (fun _ _ _ => [[nan]]) 0 1 1 0.37%float 1 0 1
                     two_images = Fault CastUndefined) by (vm_compute; reflexivity).
  rewrite Hfault in Hrun. discriminate.
Qed.
(* ================================================================== *)
(** * The file [main] writes                                           *)
(* ================================================================== *)

Lemma length_flat_map_rows {A B} (f : A -> list B) (n : nat) (l : list A) :
  (∀ x, length (f x) = n) → length (flat_map f l) = (length l * n)%nat.
Proof.
  intros Hf. induction l as [|a l IH]; simpl; [done|].
  by rewrite length_app, Hf, IH.
Qed.

Lemma lookup_flat_map_rows {A B} (f : A -> list B) (n : nat) (l : list A)
    (k i : nat) (a : A) :
  (∀ x, length (f x) = n) → l !! k = Some a → (i < n)%nat →
  flat_map f l !! (k * n + i)%nat = f a !! i.
Proof.
  intros Hf. revert k. induction l as [|a0 l IH]; intros k Hk Hi; [done|].
  destruct k as [|k]; simpl in *.
  - injection Hk as ->. apply lookup_app_l. by rewrite Hf.
  - rewrite lookup_app_r by (rewrite Hf; lia). rewrite Hf.
    replace (n + k * n + i - n)%nat with (k * n + i)%nat by lia. by apply IH.
Qed.

Lemma ppm_lines_length (img : Image) (w h : Z) :
  0 <= w → 0 <= h → Z.of_nat (length (ppm_lines img w h)) = 3 + h * w.
Proof.
  intros Hw Hh. unfold ppm_lines. rewrite length_app. cbn [length].
  rewrite (length_flat_map_rows _ (Z.to_nat w)).
  - unfold range. rewrite length_seqZ, Z.sub_0_r.
    rewrite Nat2Z.inj_add, Nat2Z.inj_mul, !Z2Nat.id by lia. lia.
  - intros j. unfold range. by rewrite length_map, length_seqZ, Z.sub_0_r.
Qed.

(** The pixels come row by row: the line of row [j], column [i] is line
    [3 + j * w + i] of the file, counted from 0. *)
Lemma ppm_lines_pixel (img : Image) (w h j i : Z) :
  0 <= j < h → 0 <= i < w →
  ppm_lines img w h !! Z.to_nat (3 + j * w + i) = Some (ppm_pixel_line img j i).
Proof.
  intros Hj Hi.
  replace (Z.to_nat (3 + j * w + i))
    with (3 + Z.to_nat j * Z.to_nat w + Z.to_nat i)%nat
    by (rewrite !Z2Nat.inj_add, Z2Nat.inj_mul by nia; reflexivity).
  unfold ppm_lines.
  rewrite lookup_app_r by (cbn [length]; lia). cbn [length].
  replace (3 + Z.to_nat j * Z.to_nat w + Z.to_nat i - 3)%nat
    with (Z.to_nat j * Z.to_nat w + Z.to_nat i)%nat by lia.
  rewrite (lookup_flat_map_rows _ (Z.to_nat w) _ _ _ j).
  - unfold range. rewrite list_lookup_fmap, lookup_seqZ_lt by lia. simpl. f_equal. f_equal. lia.
  - intros j'. unfold range. by rewrite length_map, length_seqZ, Z.sub_0_r.
  - unfold range. rewrite lookup_seqZ_lt by lia. f_equal. lia.
  - lia.
Qed.

Lemma ppm_lines_header (img : Image) (w h : Z) :
  take 3 (ppm_lines img w h) = ["P3"; pretty w +:+ " " +:+ pretty h; "255"].
Proof. reflexivity. Qed.

Section MainFile.

Variable hypot : float -> float -> float.
Variable log : float -> float.
Variable colorize : list Z -> float -> Z -> list gradient -> list Z.
Variable get_2d_kernel : Z -> Z -> float -> list (list float).

(** The body of [main] for any width and height. *)
Lemma render_file w h pixels_inside lines :
  0 <= w → 0 <= h →
  render hypot log colorize get_2d_kernel w h = Ok (pixels_inside, lines) →
  Z.of_nat (length lines) = 3 + h * w ∧
  take 3 lines = ["P3"; pretty w +:+ " " +:+ pretty h; "255"] ∧
  ∀ j i, 0 <= j < h → 0 <= i < w →
    ∃ r g b,
      lines !! Z.to_nat (3 + j * w + i)
        = Some (" " +:+ pretty r +:+ " " +:+ pretty g +:+ " " +:+ pretty b) ∧
      (i < 256 * (w ÷ 256) → 0 <= r <= 255 ∧ 0 <= g <= 255 ∧ 0 <= b <= 255).
Proof.
  intros Hw Hh Hrun. unfold render in Hrun. cbv zeta in Hrun.
  apply exec_bind_ok in Hrun as ([[image1 locals] total] & Hfractal & Hrun).
  apply exec_bind_ok in Hrun as (σ' & Hconv & [= <- <-]). cbn [fst snd] in Hconv.
  split_and!; [by apply ppm_lines_length | apply ppm_lines_header |].
  intros j i Hj Hi.
  exists (sample (σ' !!! 1%nat) 0 j i), (sample (σ' !!! 1%nat) 1 j i),
         (sample (σ' !!! 1%nat) 2 j i).
  split; [by apply ppm_lines_pixel|]. intros Hcol.
  assert (Hshape1 : same_shape (new_image 3 h w) image1).
  { unfold fractal_stage in Hfractal. destruct (512 <? 0); [discriminate|].
    apply exec_bind_ok in Hfractal as (r & Hfractal & [= <- <- <-]).
    by apply fractal_dispatch_effect in Hfractal as [? _]. }
  set (σ0 := <[0%nat := image1]> (<[1%nat := new_image 3 h w]> ∅)) in *.
  assert (H0 : σ0 !!! 0%nat = image1) by apply lookup_total_insert_eq.
  assert (H1 : σ0 !!! 1%nat = new_image 3 h w).
  { unfold σ0. rewrite lookup_total_insert_ne by done. apply lookup_total_insert_eq. }
  destruct (convolution_2d_shapes get_2d_kernel 0%nat 1%nat 5 0.37%float 20 σ0 σ')
    as [Hs _]; [done | | done |].
  { rewrite H0, H1. destruct Hshape1 as (Hc & Hh' & Hw'). by split_and!. }
  rewrite H0 in Hs.
  destruct (convolution_2d_last_pass get_2d_kernel 0%nat 1%nat 5 0.37%float 20 σ0 σ')
    as (σp & Hpass); [done | done |].
  apply convolution_pass_effect in Hpass as (Hothers & _ & Heff); [|done|done].
  rewrite <- (lookup_total_eq σp σ' 0%nat) in Heff by (by apply Hothers).
  assert (Hsample : ∀ ch, 0 <= ch < 3 → 0 <= sample (σ' !!! 1%nat) ch j i <= 255).
  { intros ch Hch.
    destruct (proj1 (Heff ch j i)) as (n & Hn & Hd).
    - destruct Hshape1 as (Hc1 & Hh1 & Hw1). destruct Hs as (Hc2 & Hh2 & Hw2).
      unfold in_columns. rewrite <- Hc2, <- Hh2, <- Hw2, <- Hc1, <- Hh1, <- Hw1.
      cbn [new_image channels height width]. lia.
    - unfold sample. rewrite Hd. cbn [default].
      by apply filtered_sample_clamped in Hn. }
  split_and!; apply Hsample; lia.
Qed.

Lemma main_unfold :
  main hypot log colorize get_2d_kernel = render hypot log colorize get_2d_kernel 1536 1024.
Proof. reflexivity. Qed.

(** X8: the file [main] writes is a PPM file of the declared size, with
    every sample within the declared maximum. When [main] gets to write
    [mandelbrot-task.ppm], the file starts with the lines [P3],
    [1536 1024] and [255], goes on with one line for each of the
    1536 * 1024 pixels, row by row, and the line of every pixel holds a
    blank and a numeral three times, each number between 0 and 255. So it
    is for any other width and height in the place of 1536 and 1024, as
    far as the 256 tasks of the last pass reach: for the pixels in the
    columns from 0 below [256 * (width / 256)]. *)
Theorem main_writes_valid_ppm :
  (∀ w h pixels_inside lines,
     0 <= w → 0 <= h →
     render hypot log colorize get_2d_kernel w h = Ok (pixels_inside, lines) →
     Z.of_nat (length lines) = 3 + h * w ∧
     take 3 lines = ["P3"; pretty w +:+ " " +:+ pretty h; "255"] ∧
     ∀ j i, 0 <= j < h → 0 <= i < w →
       ∃ r g b,
         lines !! Z.to_nat (3 + j * w + i)
           = Some (" " +:+ pretty r +:+ " " +:+ pretty g +:+ " " +:+ pretty b) ∧
         (i < 256 * (w ÷ 256) → 0 <= r <= 255 ∧ 0 <= g <= 255 ∧ 0 <= b <= 255)) ∧
  (∀ pixels_inside lines,
     main hypot log colorize get_2d_kernel = Ok (pixels_inside, lines) →
     Z.of_nat (length lines) = 3 + 1024 * 1536 ∧
     take 3 lines = ["P3"; "1536 1024"; "255"] ∧
     ∀ j i, 0 <= j < 1024 → 0 <= i < 1536 →
       ∃ r g b,
         lines !! Z.to_nat (3 + j * 1536 + i)
           = Some (" " +:+ pretty r +:+ " " +:+ pretty g +:+ " " +:+ pretty b) ∧
         0 <= r <= 255 ∧ 0 <= g <= 255 ∧ 0 <= b <= 255).
Proof.
  split; [apply render_file|].
  intros pixels_inside lines Hrun. rewrite main_unfold in Hrun.
  apply render_file in Hrun as (Hlen & Hhead & Hpixels); [|done|done].
  assert (Hsize : pretty 1536 +:+ " " +:+ pretty 1024 = "1536 1024")
    by (vm_compute; reflexivity).
  rewrite Hsize in Hhead.
  split_and!; [exact Hlen | exact Hhead |].
  intros j i Hj Hi.
  destruct (Hpixels j i Hj Hi) as (r & g & b & Hline & Hrange).
  exists r, g, b. split; [exact Hline|].
  apply Hrange. change (256 * (1536 ÷ 256)) with 1536. lia.
Qed.

End MainFile.

(** X8 on a run: an image 256 wide and 1 high. *)
Lemma main_writes_valid_ppm_witness :
  ∃ pixels_inside lines,
    render hypot_sqrt log_any colorize_keep box_kernel 256 1 = Ok (pixels_inside, lines) ∧
    Z.of_nat (length lines) = 3 + 1 * 256 ∧
    take 3 lines = ["P3"; pretty 256 +:+ " " +:+ pretty 1; "255"] ∧
    ∀ j i, 0 <= j < 1 → 0 <= i < 256 →
      ∃ r g b,
        lines !! Z.to_nat (3 + j * 256 + i)
          = Some (" " +:+ pretty r +:+ " " +:+ pretty g +:+ " " +:+ pretty b) ∧
        (i < 256 * (256 ÷ 256) → 0 <= r <= 255 ∧ 0 <= g <= 255 ∧ 0 <= b <= 255).
Proof.
  assert (Hret : returned (render hypot_sqrt log_any colorize_keep box_kernel 256 1) = true)
    by (vm_compute; reflexivity).
  destruct (returned_completes _ Hret) as [[pixels_inside lines] Hrun].
  exists pixels_inside, lines. split; [exact Hrun|].
  apply (proj1 (main_writes_valid_ppm hypot_sqrt log_any colorize_keep box_kernel)
           256 1 pixels_inside lines); [done | done | exact Hrun].
Defined.
(* ================================================================== *)
(** * The order of the fractal tasks                                   *)
(* ================================================================== *)

(** [for_each_permutation] for turns that commute as far as they are
    turns of the loop. *)
Lemma for_each_permutation_on {A S} (body : A -> S -> exec S) (l l' : list A) :
  Permutation l l' →
  (∀ x y, x ∈ l → y ∈ l → x ≠ y → commutes (body x) (body y)) →
  NoDup l →
  ∀ s s', for_each l body s = Ok s' → for_each l' body s = Ok s'.
Proof.
  intros Hperm. induction Hperm as [|x l l' Hperm IH|x y l|l l' l'' H1 IH1 H2 IH2];
    intros Hc Hnodup s s' Hrun.
  - done.
  - cbn [for_each] in *. apply exec_bind_ok in Hrun as (s1 & -> & Hrun). simpl.
    apply NoDup_cons in Hnodup as [_ Hnodup]. apply IH; [|done|done].
    intros a b Ha Hb. apply Hc; by right.
  - cbn [for_each] in *.
    apply NoDup_cons in Hnodup as [Hy _]. rewrite not_elem_of_cons in Hy.
    apply exec_bind_ok in Hrun as (s1 & Hy1 & Hrun).
    apply exec_bind_ok in Hrun as (s2 & Hx2 & Hrun).
    assert (Hswap : (t <-- body x s ;; body y t) = Ok s2).
    { apply (Hc y x); [by left | right; by left | tauto |]. by rewrite Hy1. }
    apply exec_bind_ok in Hswap as (t & Hxt & Hyt). rewrite Hxt. simpl. by rewrite Hyt.
  - apply IH2.
    + intros a b Ha Hb. apply Hc; by rewrite H1.
    + by rewrite <- H1.
    + by apply IH1.
Qed.

Lemma overlay_blank (img : Image) : overlay (blank_of img) img = img.
Proof. destruct img as [c h w d]. unfold overlay. simpl. by rewrite (left_id_L ∅ (∪)). Qed.

Lemma overlay_store (top base : Image) (ch row col v : Z) :
  store_sample (overlay top base) ch row col v = overlay (store_sample top ch row col v) base.
Proof. unfold overlay, store_sample. simpl. by rewrite insert_union_l. Qed.

Lemma blank_of_overlay (top base : Image) : blank_of (overlay top base) = blank_of base.
Proof. done. Qed.

Section FractalOrder.

Variable hypot : float -> float -> float.
Variable log : float -> float.
Variable colorize : list Z -> float -> Z -> list gradient -> list Z.

(** A task never reads the image: on any image it does what it does on
    the fresh image of the same dimensions, laid over what was there. *)
Lemma mandelbrot_overlay image ratio t T :
  exec_rel (fun r b => snd r = snd b ∧ fst r = overlay (fst b) image)
    (mandelbrot hypot log colorize image ratio t T)
    (mandelbrot hypot log colorize (blank_of image) ratio t T).
Proof.
  unfold mandelbrot. cbn [blank_of new_image channels height width]. unfold int_div.
  destruct (T =? 0); [done|]. cbn [exec_bind].
  apply (exec_rel_bind
           (fun s b => fs_pixel s = fs_pixel b ∧ fs_inside s = fs_inside b
                       ∧ fs_image s = overlay (fs_image b) image)).
  - apply for_each_sim.
    { split_and!; [done | done |]. symmetry. apply overlay_blank. }
    intros i s b _ Hsb. apply for_each_sim; [done|].
    intros j s1 b1 _ (Hp & Hn & Hi). unfold mandelbrot_pixel. rewrite Hp, Hn, Hi.
    apply (exec_rel_bind (fun a c => a = overlay c image)).
    + unfold write_channels. apply for_each_sim; [done|].
      intros ch a c _ ->. destruct (pixel_at _ ch); [|done]. simpl. apply overlay_store.
    + intros a c ->. simpl. done.
  - intros s b (Hp & Hn & Hi). simpl. done.
Qed.

(** What a task writes on the fresh image stays in its own columns. *)
Lemma mandelbrot_blank_columns image ratio t T W n key :
  mandelbrot hypot log colorize (blank_of image) ratio t T = Ok (W, n) →
  is_Some (data W !! key) →
  t * (width image ÷ T) <= snd key < (t + 1) * (width image ÷ T).
Proof.
  intros Hrun Hkey. destruct key as [[ch row] col]. cbn [snd].
  pose proof (mandelbrot_effect _ _ _ _ _ _ _ _ _ Hrun ch row col) as [_ Hout].
  cbn [blank_of new_image channels height width data] in Hout.
  destruct (decide (t * (width image ÷ T) <= col < (t + 1) * (width image ÷ T)))
    as [Hin|Hnot]; [done|].
  rewrite Hout in Hkey; [|unfold in_columns; simpl; tauto].
  rewrite lookup_empty in Hkey. by destruct Hkey.
Qed.

(** Two different tasks of the stage commute: they write in different
    columns of the image and in different slots. *)
Lemma fractal_tasks_commute ratio t t' T :
  0 <= t → 0 <= t' → t ≠ t' →
  commutes
    (fun s : Image * list Z =>
       r <-- mandelbrot hypot log colorize (fst s) ratio t T ;;
       Ok (fst r, <[Z.to_nat t := snd r]> (snd s)))
    (fun s : Image * list Z =>
       r <-- mandelbrot hypot log colorize (fst s) ratio t' T ;;
       Ok (fst r, <[Z.to_nat t' := snd r]> (snd s))).
Proof.
  intros Ht Ht' Hne [img locals] s' Hrun.
  apply exec_bind_ok in Hrun as ([img1 locals1] & Hfirst & Hsecond).
  apply exec_bind_ok in Hfirst as ([a n] & Ha & [= <- <-]).
  apply exec_bind_ok in Hsecond as ([b n'] & Hb & [= <-]). cbn [fst snd] in *.
  pose proof (mandelbrot_overlay img ratio t T) as Hta. rewrite Ha in Hta.
  destruct (mandelbrot hypot log colorize (blank_of img) ratio t T)
    as [[W m]|] eqn:HW; [|done].
  cbn [exec_rel fst snd] in Hta. destruct Hta as [<- ->].
  pose proof (mandelbrot_overlay (overlay W img) ratio t' T) as Htb. rewrite Hb in Htb.
  rewrite blank_of_overlay in Htb.
  destruct (mandelbrot hypot log colorize (blank_of img) ratio t' T)
    as [[W' m']|] eqn:HW'; [|done].
  cbn [exec_rel fst snd] in Htb. destruct Htb as [<- ->].
  pose proof (mandelbrot_overlay img ratio t' T) as Htb'. rewrite HW' in Htb'.
  destruct (mandelbrot hypot log colorize img ratio t' T) as [[b' k']|] eqn:Hb'; [|done].
  cbn [exec_rel fst snd] in Htb'. destruct Htb' as [-> ->]. cbn [exec_bind fst snd].
  pose proof (mandelbrot_overlay (overlay W' img) ratio t T) as Hta'.
  rewrite blank_of_overlay, HW in Hta'.
  destruct (mandelbrot hypot log colorize (overlay W' img) ratio t T)
    as [[a' k]|] eqn:Ha'; [|done].
  cbn [exec_rel fst snd] in Hta'. destruct Hta' as [-> ->]. cbn [exec_bind fst snd].
  f_equal. f_equal.
  - unfold overlay. cbn [channels height width data]. f_equal.
    rewrite !(assoc_L (∪)). f_equal. apply map_union_comm.
    apply map_disjoint_spec. intros key x y Hx Hy.
    pose proof (mandelbrot_blank_columns _ _ _ _ _ _ key HW (mk_is_Some _ _ Hx)).
    pose proof (mandelbrot_blank_columns _ _ _ _ _ _ key HW' (mk_is_Some _ _ Hy)).
    nia.
  - apply list_insert_insert_ne. lia.
Qed.

(** X9: the picture and the counts of the fractal stage do not depend on
    the order in which the tasks run. When the stage returns with its
    tasks run in the order of their creation, the task loop run in any
    other order of the same tasks returns the same image and the same
    slots of [pixels_inside_local]. *)
Theorem fractal_stage_any_order T ratio image (order : list Z) image' locals total :
  Permutation (range 0 T) order →
  fractal_stage hypot log colorize T ratio image = Ok (image', locals, total) →
  for_each order
    (fun i (s : Image * list Z) =>
       r <-- mandelbrot hypot log colorize (fst s) ratio i T ;;
       Ok (fst r, <[Z.to_nat i := snd r]> (snd s)))
    (image, replicate (Z.to_nat T) 0) = Ok (image', locals).
Proof.
  intros Hperm Hrun. unfold fractal_stage in Hrun.
  destruct (T <? 0); [discriminate|].
  apply exec_bind_ok in Hrun as ([img l] & Hrun & [= <- <- <-]).
  revert Hrun. apply for_each_permutation_on; [done | | apply NoDup_seqZ].
  intros t t' Ht%elem_of_range Ht'%elem_of_range Hne.
  apply fractal_tasks_commute; lia.
Qed.

End FractalOrder.

(** X9 on a run: the two tasks of an image 4 wide, the second one
    first. *)
Lemma fractal_stage_any_order_witness :
  ∃ image' locals total,
    fractal_stage hypot_sqrt log_any colorize_keep 2 1.5%float (new_image 3 2 4)
      = Ok (image', locals, total) ∧
    for_each [1; 0]
      (fun i (s : Image * list Z) =>
         r <-- mandelbrot hypot_sqrt log_any colorize_keep (fst s) 1.5%float i 2 ;;
         Ok (fst r, <[Z.to_nat i := snd r]> (snd s)))
      (new_image 3 2 4, replicate (Z.to_nat 2) 0) = Ok (image', locals).
Proof.
  assert (Hret : returned (fractal_stage hypot_sqrt log_any colorize_keep 2 1.5%float
                             (new_image 3 2 4)) = true) by (vm_compute; reflexivity).
  destruct (returned_completes _ Hret) as [[[image' locals] total] Hrun].
  exists image', locals, total. split; [exact Hrun|].
  apply (fractal_stage_any_order hypot_sqrt log_any colorize_keep 2 1.5%float
           (new_image 3 2 4) [1; 0] image' locals total); [|exact Hrun].
  apply (perm_swap 1 0 []).
Defined.
(* ================================================================== *)
(** * The kernel of one weight 1                                       *)
(* ================================================================== *)

(** From [int] to [double], times 1, plus 0, clamped and cast back: every
    value from 0 to 255 comes back as it was. *)
Lemma unit_weight_round_trip (v : Z) :
  0 <= v <= 255 → stored_value (0 + 1 * double_of_int v)%float = Ok v.
Proof.
  intros Hv.
  assert (Hall : forallb (fun v => match stored_value (0 + 1 * double_of_int v)%float with
                                   | Ok n => n =? v
                                   | Fault _ => false
                                   end) (seqZ 0 256) = true) by (vm_compute; reflexivity).
  rewrite forallb_forall in Hall. specialize (Hall v).
  destruct (stored_value (0 + 1 * double_of_int v)%float) as [n|f].
  - f_equal. apply Z.eqb_eq, Hall, list_elem_of_In, elem_of_seqZ. lia.
  - discriminate Hall. apply list_elem_of_In, elem_of_seqZ. lia.
Qed.

Lemma neighborhood_sum_unit (src : Image) (ch row col : Z) :
  0 <= row < height src → 0 <= col < width src →
  neighborhood_sum [[1%float]] src (width src) (height src) 0 ch row col
    = Ok (0 + 1 * double_of_int (sample src ch row col))%float.
Proof.
  intros Hrow Hcol. unfold neighborhood_sum.
  change (range (- 0) (0 + 1)) with [0]. cbn [for_each]. unfold add_neighbor.
  replace (outside (width src) (height src) (col + 0) (row + 0)) with false.
  2:{ symmetry. apply not_true_is_false. rewrite outside_spec. lia. }
  rewrite !Z.add_0_r. reflexivity.
Qed.

Lemma filtered_sample_unit (src : Image) (ch row col : Z) :
  0 <= row < height src → 0 <= col < width src →
  0 <= sample src ch row col <= 255 →
  filtered_sample [[1%float]] src ch row col = Ok (sample src ch row col).
Proof.
  intros Hrow Hcol Hv. unfold filtered_sample.
  change (Z.of_nat (length [[1%float]]) ÷ 2) with 0.
  rewrite neighborhood_sum_unit by done. cbn [exec_bind].
  by apply unit_weight_round_trip.
Qed.

(** The columns the tasks walk through are columns of the image. *)
Lemma task_column_in_image (w T t j : Z) :
  0 < T → 0 <= t < T → j ∈ task_columns (w ÷ T) t → 0 <= j < w.
Proof.
  intros HT Ht Hj%elem_of_task_columns.
  assert (Hq : 0 < w ÷ T) by nia.
  assert (Hw : 0 <= w).
  { destruct (Z.le_gt_cases 0 w) as [|Hneg]; [done|].
    pose proof (Z.quot_opp_l w T ltac:(lia)) as Hopp.
    pose proof (Z.quot_pos (- w) T ltac:(lia) HT). lia. }
  rewrite Z.quot_div_nonneg in * by lia.
  pose proof (Z.mul_div_le w T HT). nia.
Qed.

Section IdentityKernel.

Variable get_2d_kernel : Z -> Z -> float -> list (list float).

(** X10: the filter with the kernel of one weight 1 copies. When
    [get_2d_kernel] gives the 1 by 1 kernel of weight 1 and the samples
    of the source image are between 0 and 255, a single-step run of
    [convolution_2d] between two different images returns, and every
    sample of the destination in the columns from 0 below
    [256 * (width / 256)] is the sample of the source at the same
    place: conversion to [double], clamp and cast back lose nothing. *)
Theorem identity_kernel_copies src dst kernel_width sigma (σ : heap) :
  get_2d_kernel kernel_width kernel_width sigma = [[1%float]] →
  src ≠ dst →
  (∀ ch row col, in_columns (σ !!! src) 0 (width (σ !!! src)) ch row col →
     0 <= sample (σ !!! src) ch row col <= 255) →
  ∃ σ',
    convolution_2d get_2d_kernel src dst kernel_width sigma 1 σ = Ok σ' ∧
    ∀ ch row col,
      in_columns (σ !!! src) 0 (256 * (width (σ !!! src) ÷ 256)) ch row col →
      data (σ' !!! dst) !! (ch, row, col) = Some (sample (σ !!! src) ch row col).
Proof.
  intros Hkernel Hne Hbytes. rewrite convolution_2d_single.
  destruct (for_each_completes (fun σ1 : heap => σ1 !!! src = σ !!! src) (range 0 256)
              (fun i => convolution_2d_helper get_2d_kernel src dst kernel_width sigma 1 i 256)
              σ) as (σ' & Hrun & _); [done | |].
  - intros t σ1 Ht%elem_of_range Hsrc. rewrite helper_loops by done.
    rewrite Hkernel, Hsrc. change (Z.of_nat (length [[1%float]]) ÷ 2) with 0.
    apply for_each_completes; [done|]. intros j σ2 Hj Hsrc2.
    apply for_each_completes; [done|]. intros ch σ3 Hch%elem_of_range Hsrc3.
    apply for_each_completes; [done|]. intros i σ4 Hi%elem_of_range Hsrc4.
    pose proof (task_column_in_image _ 256 t j ltac:(lia) Ht Hj) as Hcol.
    unfold convolve_pixel. rewrite Hsrc4, neighborhood_sum_unit by done. cbn [exec_bind].
    rewrite unit_weight_round_trip by (apply Hbytes; unfold in_columns; lia).
    cbn [exec_bind]. eexists. split; [done|]. by rewrite lookup_total_insert_ne.
  - exists σ'. split; [exact Hrun|]. intros ch row col Hin.
    apply convolution_pass_effect in Hrun as (_ & _ & Heff); [|done|done].
    destruct (proj1 (Heff ch row col) Hin) as (n & Hn & Hd).
    rewrite Hkernel in Hn. rewrite Hd. f_equal.
    destruct Hin as (Hch & Hrow & Hcol).
    assert (Hcol' : 0 <= col < width (σ !!! src)).
    { apply (covered_columns _ 256) in Hcol as (t & Ht & Hcol); [|done].
      by apply (task_column_in_image _ 256 t). }
    rewrite filtered_sample_unit in Hn;
      [congruence | done | done | apply Hbytes; unfold in_columns; lia].
Qed.

End IdentityKernel.

Lemma row_images_bytes (ch row col : Z) :
  in_columns (row_images !!! 0%nat) 0 (width (row_images !!! 0%nat)) ch row col →
  0 <= sample (row_images !!! 0%nat) ch row col <= 255.
Proof.
  intros (Hch & Hrow & Hcol).
  change (channels (row_images !!! 0%nat)) with 1 in Hch.
  change (height (row_images !!! 0%nat)) with 1 in Hrow.
  change (width (row_images !!! 0%nat)) with 256 in Hcol.
  assert (Hall : forallb (fun c => (0 <=? sample (row_images !!! 0%nat) 0 0 c)
                                   && (sample (row_images !!! 0%nat) 0 0 c <=? 255))
                   (seqZ 0 256) = true) by (vm_compute; reflexivity).
  rewrite forallb_forall in Hall.
  replace ch with 0 by lia. replace row with 0 by lia.
  specialize (Hall col ltac:(apply list_elem_of_In, elem_of_seqZ; lia)).
  apply andb_true_iff in Hall as [?%Z.leb_le ?%Z.leb_le]. lia.
Qed.

(** X10 on a run: the row of 256 samples of value 200. *)
Lemma identity_kernel_copies_witness :
  ∃ σ',
    convolution_2d (fun _ _ _ => [[1%float]]) 0 1 1 0.37%float 1 row_images = Ok σ' ∧
    ∀ ch row col,
      in_columns (row_images !!! 0%nat) 0 (256 * (width (row_images !!! 0%nat) ÷ 256))
        ch row col →
      data (σ' !!! 1%nat) !! (ch, row, col) = Some (sample (row_images !!! 0%nat) ch row col).
Proof.
  apply (identity_kernel_copies (fun _ _ _ => [[1%float]]) 0%nat 1%nat 1 0.37%float row_images).
  - reflexivity.
  - done.
  - exact row_images_bytes.
Defined.
(* ================================================================== *)
(** * More runs                                                        *)
(* ================================================================== *)

(** X12 on a run: two tasks on a 3-channel image 4 wide and 2 high. *)
Lemma fractal_stage_completes_witness :
  completes (fractal_stage hypot_sqrt log_any colorize_keep 2 1.5%float (new_image 3 2 4)).
Proof.
  apply (fractal_stage_completes hypot_sqrt log_any colorize_keep).
  - intros pixel q iteration g. reflexivity.
  - lia.
  - simpl. lia.
Defined.

(** X13 on a run: a pass of two tasks over the 4 by 4 image, the second
    task first. *)
Lemma convolution_pass_any_order_witness :
  ∃ σ',
    convolution_pass box_kernel 0 1 3 0.37%float 1 2 two_images = Ok σ' ∧
    for_each [1; 0]
      (fun i => convolution_2d_helper box_kernel 0 1 3 0.37%float 1 i 2)
      two_images = Ok σ'.
Proof.
  assert (Hret : returned (convolution_pass box_kernel 0 1 3 0.37%float 1 2 two_images)
                 = true) by (vm_compute; reflexivity).
  destruct (returned_completes _ Hret) as [σ' Hrun].
  exists σ'. split; [exact Hrun|].
  apply (convolution_pass_any_order box_kernel 0%nat 1%nat 3 0.37%float 1 2 [1; 0]
           two_images σ'); [done | apply (perm_swap 1 0 []) | exact Hrun].
Defined.
(* ================================================================== *)
(** * Sums that are no NaN: the filter on eight-bit images             *)
(* ================================================================== *)

(** ** Rounding keeps the sign                                         *)

Lemma shr_1_nonneg (mrs : shr_record) : 0 <= shr_m mrs → 0 <= shr_m (shr_1 mrs).
Proof. destruct mrs as [[|[p|p|]|p] r s]; simpl; lia. Qed.

Lemma iter_pos_invariant {A} (P : A -> Prop) (f : A -> A) :
  (∀ x, P x → P (f x)) → ∀ n x, P x → P (SpecFloat.iter_pos f n x).
Proof. intros Hf. induction n as [n IH|n IH|]; intros x Hx; simpl; auto. Qed.

Lemma shr_nonneg (mrs : shr_record) (e n : Z) :
  0 <= shr_m mrs → 0 <= shr_m (fst (shr mrs e n)).
Proof.
  intros Hm. destruct n as [|p|p]; simpl; [done | | done].
  by apply (iter_pos_invariant (fun mrs => 0 <= shr_m mrs) shr_1 shr_1_nonneg).
Qed.

Lemma shr_fexp_nonneg (m e : Z) (l : location) :
  0 <= m → 0 <= shr_m (fst (shr_fexp prec emax m e l)).
Proof. intros Hm. unfold shr_fexp. apply shr_nonneg. by destruct l as [|[]]. Qed.

Lemma round_nearest_even_nonneg (mx : Z) (lx : location) :
  0 <= mx → 0 <= round_nearest_even mx lx.
Proof. intros Hm. destruct lx as [|[]]; simpl; try lia. destruct (Z.even mx); lia. Qed.

Lemma binary_round_aux_nonneg (mx ex : Z) (lx : location) :
  0 <= mx → nonneg_sf (binary_round_aux prec emax false mx ex lx) = true.
Proof.
  intros Hm. unfold binary_round_aux.
  pose proof (shr_fexp_nonneg mx ex lx Hm) as H1.
  destruct (shr_fexp prec emax mx ex lx) as [mrs' e']. cbn [fst] in H1.
  pose proof (shr_fexp_nonneg _ e' loc_Exact
                (round_nearest_even_nonneg _ (loc_of_shr_record mrs') H1)) as H2.
  destruct (shr_fexp prec emax (round_nearest_even (shr_m mrs') (loc_of_shr_record mrs'))
              e' loc_Exact) as [mrs'' e'']. cbn [fst] in H2.
  destruct (shr_m mrs'') as [|m|m]; [done | | lia].
  by destruct (e'' <=? emax - prec).
Qed.

Lemma binary_round_nonneg (m : positive) (e : Z) :
  nonneg_sf (binary_round prec emax false m e) = true.
Proof.
  unfold binary_round. destruct (shl_align m e _) as [mz ez].
  by apply binary_round_aux_nonneg.
Qed.

(** The product of two numbers that are [+0] or positive is [+0],
    positive or [+infinity]. *)
Lemma mul_nonneg (x y : float) :
  finite_nonneg x = true → finite_nonneg y = true → nonneg (x * y) = true.
Proof.
  unfold finite_nonneg, nonneg. rewrite FloatAxioms.mul_spec.
  destruct (Prim2SF x) as [[]|[]| |[] mx ex]; try discriminate;
    destruct (Prim2SF y) as [[]|[]| |[] my ey]; try discriminate; intros _ _; try done.
  by apply binary_round_aux_nonneg.
Qed.

(** So is the sum of two numbers that are [+0], positive or
    [+infinity]. *)
Lemma add_nonneg (x y : float) :
  nonneg x = true → nonneg y = true → nonneg (x + y) = true.
Proof.
  unfold nonneg. rewrite FloatAxioms.add_spec.
  destruct (Prim2SF x) as [[]|[]| |[] mx ex]; try discriminate;
    destruct (Prim2SF y) as [[]|[]| |[] my ey]; try discriminate; intros _ _; try done.
  unfold SF64add, SFadd, cond_Zopp, binary_normalize.
  cbn [Z.add]. apply binary_round_nonneg.
Qed.

Lemma nonneg_not_nan (x : float) : nonneg x = true → is_nan x = false.
Proof.
  unfold nonneg, is_nan. rewrite FloatAxioms.eqb_spec. unfold SFeqb, SFcompare.
  destruct (Prim2SF x) as [[]|[]| |[] m e]; try discriminate; intros _; try done.
  by rewrite Z.compare_refl, Pos.compare_cont_refl.
Qed.

(** The [double] of a value from 0 to 255 is [+0] or positive. *)
Lemma double_of_byte (v : Z) : 0 <= v <= 255 → finite_nonneg (double_of_int v) = true.
Proof.
  intros Hv.
  assert (Hall : forallb (fun v => finite_nonneg (double_of_int v)) (seqZ 0 256) = true)
    by (vm_compute; reflexivity).
  rewrite forallb_forall in Hall. apply Hall, list_elem_of_In, elem_of_seqZ. lia.
Qed.

(** ** The filter                                                      *)

Lemma kernel_at_weight (kernel : list (list float)) (row col : Z) (x : float) :
  weights_nonneg kernel → kernel_at kernel row col = Ok x → finite_nonneg x = true.
Proof.
  intros Hw. unfold kernel_at. destruct ((row <? 0) || (col <? 0)); [discriminate|].
  destruct (kernel !! Z.to_nat row) as [r|] eqn:Hr; [|discriminate].
  destruct (r !! Z.to_nat col) as [y|] eqn:Hy; [|discriminate]. intros [= <-].
  unfold weights_nonneg in Hw. rewrite Forall_forall in Hw.
  pose proof (Hw r (list_elem_of_lookup_2 _ _ _ Hr)) as Hrow.
  rewrite Forall_forall in Hrow. by apply Hrow, (list_elem_of_lookup_2 _ (Z.to_nat col)).
Qed.

Lemma bytes_store (img : Image) (ch row col v : Z) :
  bytes img → 0 <= v <= 255 → bytes (store_sample img ch row col v).
Proof.
  intros Himg Hv ch' row' col'. unfold sample. cbn [store_sample data].
  destruct (decide ((ch, row, col) = (ch', row', col'))) as [<-|Hne].
  - by rewrite lookup_insert_eq.
  - rewrite lookup_insert_ne by done. apply Himg.
Qed.

(** The weighted sum of a pixel of an eight-bit image under a kernel of
    odd width without negative weights is no NaN. *)
Lemma neighborhood_sum_nonneg (kernel : list (list float)) (n : Z) (src : Image)
    (w h ch i j : Z) :
  square_kernel kernel n → Z.odd n = true → weights_nonneg kernel → bytes src →
  ∃ val, neighborhood_sum kernel src w h (n ÷ 2) ch i j = Ok val ∧ nonneg val = true.
Proof.
  intros Hsq Hodd Hw Hsrc.
  assert (Hn : 0 <= n) by (destruct Hsq as [<- _]; lia).
  pose proof (odd_half n Hn Hodd) as Hhalf.
  unfold neighborhood_sum.
  apply (for_each_completes (fun val => nonneg val = true)); [done|].
  intros k val Hk%elem_of_range Hval.
  apply (for_each_completes (fun val => nonneg val = true)); [done|].
  intros l val' Hl%elem_of_range Hval'.
  unfold add_neighbor. destruct (outside w h (j + l) (i + k)); [by eexists|].
  destruct (kernel_at_ok kernel n (k + n ÷ 2) (l + n ÷ 2)) as [x Hx]; [done | lia | lia |].
  rewrite Hx. cbn [exec_bind]. eexists. split; [done|].
  apply add_nonneg; [done|]. apply mul_nonneg.
  - by apply (kernel_at_weight kernel (k + n ÷ 2) (l + n ÷ 2)).
  - apply double_of_byte, Hsrc.
Qed.

Section EightBit.

Variable get_2d_kernel : Z -> Z -> float -> list (list float).

(** A pass over eight-bit images returns, and leaves eight-bit images;
    the two images may be the same one. *)
Lemma convolution_pass_bytes src dst kernel_width sigma nsteps T (n : Z) (σ : heap) :
  square_kernel (get_2d_kernel kernel_width kernel_width sigma) n →
  Z.odd n = true →
  weights_nonneg (get_2d_kernel kernel_width kernel_width sigma) →
  bytes (σ !!! src) → bytes (σ !!! dst) →
  ∃ σ', convolution_pass get_2d_kernel src dst kernel_width sigma nsteps T σ = Ok σ'
        ∧ bytes (σ' !!! src) ∧ bytes (σ' !!! dst).
Proof.
  intros Hsq Hodd Hw Hs Hd. unfold convolution_pass.
  apply (for_each_completes (fun σ1 : heap => bytes (σ1 !!! src) ∧ bytes (σ1 !!! dst)));
    [done|].
  intros t σ1 Ht%elem_of_range H1. rewrite helper_loops by lia.
  apply for_each_completes; [done|]. intros j σ2 _ H2.
  apply for_each_completes; [done|]. intros ch σ3 _ H3.
  apply for_each_completes; [done|]. intros i σ4 _ [Hs4 Hd4].
  unfold convolve_pixel.
  replace (Z.of_nat (length (get_2d_kernel kernel_width kernel_width sigma))) with n
    by (by destruct Hsq as [-> _]).
  destruct (neighborhood_sum_nonneg (get_2d_kernel kernel_width kernel_width sigma) n
              (σ4 !!! src) (width (σ1 !!! src)) (height (σ1 !!! src)) ch i j)
    as (val & -> & Hval); [done..|].
  cbn [exec_bind].
  destruct (stored_value_completes val (nonneg_not_nan val Hval)) as [m Hm].
  rewrite Hm. cbn [exec_bind]. eexists. split; [done|].
  apply stored_value_cases in Hm as [Hm _].
  rewrite lookup_total_insert_eq. split; [|by apply bytes_store].
  destruct (decide (src = dst)) as [->|Hne].
  - rewrite lookup_total_insert_eq. by apply bytes_store.
  - by rewrite lookup_total_insert_ne.
Qed.

Lemma convolution_2d_bytes src dst kernel_width sigma nsteps (n : Z) (σ : heap) :
  square_kernel (get_2d_kernel kernel_width kernel_width sigma) n →
  Z.odd n = true →
  weights_nonneg (get_2d_kernel kernel_width kernel_width sigma) →
  bytes (σ !!! src) → bytes (σ !!! dst) →
  ∃ σ', convolution_2d get_2d_kernel src dst kernel_width sigma nsteps σ = Ok σ'
        ∧ bytes (σ' !!! src) ∧ bytes (σ' !!! dst).
Proof.
  intros Hsq Hodd Hw Hs Hd. unfold convolution_2d. cbv zeta.
  apply (for_each_completes (fun σ1 : heap => bytes (σ1 !!! src) ∧ bytes (σ1 !!! dst)));
    [done|].
  intros step σ1 _ [Hs1 Hd1].
  destruct (convolution_pass_bytes src dst kernel_width sigma nsteps 256 n σ1)
    as (σ2 & -> & Hs2 & Hd2); [done..|].
  cbn [exec_bind]. eexists. split; [done|].
  destruct (step <? nsteps - 1); [|done].
  by rewrite swap_images_source, swap_images_destination.
Qed.


End EightBit.
(* ================================================================== *)
(** * [main] runs to its end                                           *)
(* ================================================================== *)

Lemma new_image_bytes (c h w : Z) : bytes (new_image c h w).
Proof. intros ch row col. unfold sample. cbn [new_image data]. by rewrite lookup_empty. Qed.


Section MainReturns.

Variable hypot : float -> float -> float.
Variable log : float -> float.
Variable colorize : list Z -> float -> Z -> list gradient -> list Z.
Variable get_2d_kernel : Z -> Z -> float -> list (list float).

(** With a [colorize] that gives colours from 0 to 255, the fractal stage
    leaves an eight-bit image when it started on one. *)
Lemma fractal_stage_bytes T ratio image image' locals total :
  (∀ pixel q iteration g, Forall (fun v => 0 <= v <= 255) (colorize pixel q iteration g)) →
  bytes image →
  fractal_stage hypot log colorize T ratio image = Ok (image', locals, total) →
  bytes image'.
Proof.
  intros Hcolour Himage Hrun. unfold fractal_stage in Hrun.
  destruct (Z.ltb_spec T 0) as [|HT]; [discriminate|].
  apply exec_bind_ok in Hrun as (r & Hrun & [= <- <- <-]).
  apply fractal_dispatch_effect in Hrun as [_ Heff]; [|done].
  intros ch row col. specialize (Heff ch row col) as [Hin Hout]. unfold in_columns in *.
  destruct (decide (0 <= ch < channels image ∧ 0 <= row < height image
                    ∧ 0 <= col < T * (width image ÷ T))) as [Hyes|Hno].
  - destruct (Hin Hyes) as (pixel & v & Hv & Hd). unfold sample. rewrite Hd. cbn [default].
    rewrite mandelbrot_kernel_pixel in Hv.
    pose proof (Hcolour pixel
                  (smooth_index log
                     (fst (escape hypot (point (width image) (height image)
                                           (ratio / 10)%float col row)))
                     (snd (escape hypot (point (width image) (height image)
                                           (ratio / 10)%float col row))))
                  (snd (escape hypot (point (width image) (height image)
                                        (ratio / 10)%float col row)))
                  gradients) as Hall.
    rewrite Forall_lookup in Hall. by apply (Hall (Z.to_nat ch)).
  - unfold sample. rewrite (Hout Hno). apply Himage.
Qed.

Lemma render_returns (n w h : Z) :
  (∀ pixel q iteration g, length (colorize pixel q iteration g) = length pixel) →
  (∀ pixel q iteration g, Forall (fun v => 0 <= v <= 255) (colorize pixel q iteration g)) →
  square_kernel (get_2d_kernel 5 5 0.37%float) n →
  Z.odd n = true →
  weights_nonneg (get_2d_kernel 5 5 0.37%float) →
  completes (render hypot log colorize get_2d_kernel w h).
Proof.
  intros Hlen Hcolour Hsq Hodd Hweights. unfold completes, render. cbv zeta.
  assert (Hfractal : ∃ r, fractal_stage hypot log colorize 512
                            (double_of_int w / double_of_int h)%float (new_image 3 h w)
                          = Ok r).
  { unfold fractal_stage. change (512 <? 0) with false. cbv iota.
    destruct (for_each_completes
                (fun s : Image * list Z => same_shape (new_image 3 h w) (fst s))
                (range 0 512)
                (fun i (s : Image * list Z) =>
                   r <-- mandelbrot hypot log colorize (fst s)
                           (double_of_int w / double_of_int h)%float i 512 ;;
                   Ok (fst r, <[Z.to_nat i := snd r]> (snd s)))
                (new_image 3 h w, replicate (Z.to_nat 512) 0)) as (r & -> & _).
    - apply same_shape_refl.
    - intros t [img slots] _ Hshape. cbn [fst snd] in *.
      destruct (mandelbrot_completes hypot log colorize Hlen img
                  (double_of_int w / double_of_int h)%float t 512) as [[img' c] Htask];
        [done | left; by destruct Hshape as (<- & _) |].
      rewrite Htask. cbn [exec_bind fst snd]. eexists. split; [done|]. cbn [fst].
      apply mandelbrot_count in Htask as [_ Hshape']. by eapply same_shape_trans.
    - cbn [exec_bind]. by eexists. }
  destruct Hfractal as [[[image1 locals] total] Hfractal].
  rewrite Hfractal. cbn [exec_bind fst snd].
  pose proof (fractal_stage_bytes _ _ _ _ _ _ Hcolour (new_image_bytes 3 h w) Hfractal)
    as Himage1.
  destruct (convolution_2d_bytes get_2d_kernel 0%nat 1%nat 5 0.37%float 20 n
              (<[0%nat := image1]> (<[1%nat := new_image 3 h w]> ∅)))
    as (σ' & Hconv & _); [done | done | done | | |].
  - by rewrite lookup_total_insert_eq.
  - rewrite lookup_total_insert_ne by done. rewrite lookup_total_insert_eq.
    apply new_image_bytes.
  - rewrite Hconv. cbn [exec_bind]. by eexists.
Qed.

(** X15: [main] runs to its end and writes its file. When [colorize]
    leaves the size of the pixel buffer alone and fills it with colours
    from 0 to 255, and [get_2d_kernel(5, 5, 0.37)] is a kernel of an odd
    number of rows and as many columns whose weights are [+0] or positive
    numbers, [main] returns: no division by zero, no index out of range,
    no undefined cast in either stage. So does the body of [main] for any
    other width and height. *)
Theorem main_returns (n : Z) :
  (∀ pixel q iteration g, length (colorize pixel q iteration g) = length pixel) →
  (∀ pixel q iteration g, Forall (fun v => 0 <= v <= 255) (colorize pixel q iteration g)) →
  square_kernel (get_2d_kernel 5 5 0.37%float) n →
  Z.odd n = true →
  weights_nonneg (get_2d_kernel 5 5 0.37%float) →
  completes (main hypot log colorize get_2d_kernel) ∧
  ∀ w h, completes (render hypot log colorize get_2d_kernel w h).
Proof.
  intros Hlen Hcolour Hsq Hodd Hweights. split.
  - rewrite main_unfold. by apply (render_returns n).
  - intros w h. by apply (render_returns n).
Qed.

End MainReturns.


(** X15 on a run: a [colorize] that paints every pixel white and the 5 by
    5 box kernel. *)
Lemma main_returns_witness :
  completes (main hypot_sqrt log_any (fun pixel _ _ _ => map (fun _ => 255) pixel) box_kernel) ∧
  ∀ w h,
    completes (render hypot_sqrt log_any (fun pixel _ _ _ => map (fun _ => 255) pixel)
                 box_kernel w h).
Proof.
  apply (main_returns hypot_sqrt log_any (fun pixel _ _ _ => map (fun _ => 255) pixel)
           box_kernel 5).
  - intros pixel q iteration g. apply length_map.
  - intros pixel q iteration g. apply Forall_forall.
    intros v (x & -> & _)%list_elem_of_fmap. done.
  - split; [reflexivity | by repeat constructor].
  - reflexivity.
  - by repeat constructor.
Defined.
